(** * The ADR-Manager store (src/plugins/store.js)

    A shallow embedding of the Vue store that holds the added
    repositories, the opened ADR and the commit bookkeeping, together
    with the properties of its operations.

    JavaScript objects are shared by reference: the same ADR object sits
    in [adrs] and in [addedAdrs] of its repository and is the value of
    [currentlyEditedAdr]; the same repository object is an element of
    [addedRepositories] and the value of [currentRepository].  The model
    therefore keeps two object stores (one for ADR objects, one for
    repository objects) and lets every field hold references.

    A call returns or throws, and what it did to the store before a
    throw stays done; emitted events are kept as a log in the store, and
    the local storage entry as the value that was written last.
    Console output is not modelled.  A string is the sequence of the
    bytes of its UTF-8 encoding (a surrogate that stands alone is three
    bytes like any other code unit); a number is an integer that is a
    double, or [NaN].  [setActiveBranch], which sets a field of the
    store that nothing reads, and the part of [reload] that rebuilds the
    repositories with [Repository.constructFromString] (classes.js) are
    left out. *)

From Stdlib Require Import ZArith String Ascii DecimalString.
From stdpp Require Import base option list gmap strings.

Local Open Scope string_scope.
Local Open Scope Z_scope.
Local Open Scope list_scope.

(** ** JavaScript string and array primitives used by the store *)

Module Js.

(** [s.split(sep)] for a one-character separator: never empty. *)
Fixpoint split (sep : ascii) (s : string) : list string :=
  match s with
  | EmptyString => [EmptyString]
  | String c s' =>
      if Ascii.eqb c sep then EmptyString :: split sep s'
      else match split sep s' with
           | [] => [String c EmptyString]
           | seg :: rest => String c seg :: rest
           end
  end.

(** [l.join(sep)]. *)
Fixpoint join (sep : string) (l : list string) : string :=
  match l with
  | [] => EmptyString
  | x :: rest =>
      match rest with
      | [] => x
      | _ :: _ => x +:+ sep +:+ join sep rest
      end
  end.

Fixpoint repeatChar (n : nat) (c : ascii) : string :=
  match n with
  | O => EmptyString
  | S n' => String c (repeatChar n' c)
  end.

(** [s.padStart(n, c)] for a one-character filler. *)
Definition padStart (n : nat) (c : ascii) (s : string) : string :=
  repeatChar (n - String.length s) c +:+ s.

(** *** Numbers

    A number as the key [id] of an ADR holds it: an integer (one that
    is a double) or [NaN]. *)
Inductive number :=
  | NaN
  | Num (z : Z).

#[global] Instance number_eq_dec : EqDecision number.
Proof. solve_decision. Defined.

(** [ToNumber] of the value of a key: [undefined] gives [NaN]. *)
Definition toNumber (v : option number) : number := default NaN v.

(** [Math.max(a, b)]: [NaN] when one of the two is. *)
Definition max2 (a b : number) : number :=
  match a, b with
  | Num x, Num y => Num (Z.max x y)
  | _, _ => NaN
  end.

(** [x + 1].  Numbers are doubles: the sum is exact from [-2^53] up to
    [2^53 - 1].  Beyond that [x + 1] is no double and the nearest
    double is taken: between [2^53] and [2^54] the doubles are the even
    integers, [x + 1] lies in the middle of [x] and [x + 2], and the
    one with the even significand is taken; further out it is [x]. *)
Definition add1 (n : number) : number :=
  match n with
  | NaN => NaN
  | Num z =>
      if (- 2 ^ 53 <=? z) && (z <? 2 ^ 53) then Num (z + 1)
      else if (Z.abs z <? 2 ^ 54) && Z.odd (z / 2) then Num (z + 2)
      else Num z
  end.

(** The decimal digits of an integer, a minus sign before them for a
    negative one. *)
Definition digits (z : Z) : string :=
  NilZero.string_of_int (Z.to_int z).

(** The double nearest to the integer [r], [0 <= r] (of two at the same
    distance the one with the even significand): the 53 leading binary
    digits of [r], rounded. *)
Definition toDouble (r : Z) : Z :=
  let e := Z.log2 r in
  if e <=? 52 then r
  else
    let u := 2 ^ (e - 52) in
    let q := r / u in
    let rest := r mod u in
    if (u <? 2 * rest) || ((u =? 2 * rest) && Z.odd q) then (q + 1) * u
    else q * u.

(** The integer with at most [k] leading decimal digits (of [n]) that
    [toDouble] takes to [x]: [x] cut to [k] digits or the next such
    integer above it, the nearer one if both do. *)
Definition withDigits (x n k : Z) : option Z :=
  let p := 10 ^ (n - k) in
  let lo := x / p * p in
  let hi := lo + p in
  if (toDouble lo =? x) && (toDouble hi =? x) then
    Some (if x - lo <=? hi - x then lo else hi)
  else if toDouble lo =? x then Some lo
  else if toDouble hi =? x then Some hi
  else None.

(** The integer with the fewest leading digits that denotes the double
    [x]; with all [n] digits of [x] it is [x] itself. *)
Fixpoint shortest (fuel : nat) (x n k : Z) : Z :=
  match fuel with
  | O => x
  | S fuel' =>
      match withDigits x n k with
      | Some r => r
      | None => shortest fuel' x n (k + 1)
      end
  end.

(** A string of digits without the zeros at its end. *)
Fixpoint dropZeros (s : string) : string :=
  match s with
  | EmptyString => EmptyString
  | String c s' =>
      match dropZeros s' with
      | EmptyString =>
          if Ascii.eqb c "0"%char then EmptyString else String c EmptyString
      | t => String c t
      end
  end.

(** The exponent notation of a double [x], [10^21 <= x]: the fewest
    digits that denote [x], a point after the first of them, and the
    power of ten. *)
Definition exponential (x : Z) : string :=
  let n := Z.of_nat (String.length (digits x)) in
  let r := digits (shortest (Z.to_nat n) x n 1) in
  let power := digits (Z.of_nat (String.length r) - 1) in
  match dropZeros r with
  | EmptyString => EmptyString
  | String c EmptyString => String c ("e+" +:+ power)
  | String c rest => String c ("." +:+ rest +:+ "e+" +:+ power)
  end.

(** [x.toString()]: the decimal digits of an integer below [10^21], the
    exponent notation from there on. *)
Definition toString (n : number) : string :=
  match n with
  | NaN => "NaN"
  | Num z =>
      if Z.abs z <? 10 ^ 21 then digits z
      else (if z <? 0 then "-" else "") +:+ exponential (Z.abs z)
  end.

(** [s.replace(/^#+/, "")]: the leading run of hash signs is dropped. *)
Fixpoint stripHashes (s : string) : string :=
  match s with
  | String c s' => if Ascii.eqb c "#"%char then stripHashes s' else s
  | EmptyString => EmptyString
  end.

(** *** White space

    A string is the sequence of the bytes of its UTF-8 encoding.  The
    characters that [trim] strips are the white space and the line
    terminators of the language: U+0009 to U+000D, U+0020, U+00A0,
    U+1680, U+2000 to U+200A, U+2028, U+2029, U+202F, U+205F, U+3000
    and U+FEFF. *)
Definition bytes (l : list nat) : string :=
  foldr (λ n s, String (ascii_of_nat n) s) EmptyString l.

Definition whiteSpaceChars : list string :=
  bytes <$>
    [ [9]; [10]; [11]; [12]; [13]; [32]; [194; 160]; [225; 154; 128];
      [226; 128; 128]; [226; 128; 129]; [226; 128; 130]; [226; 128; 131];
      [226; 128; 132]; [226; 128; 133]; [226; 128; 134]; [226; 128; 135];
      [226; 128; 136]; [226; 128; 137]; [226; 128; 138]; [226; 128; 168];
      [226; 128; 169]; [226; 128; 175]; [226; 129; 159]; [227; 128; 128];
      [239; 187; 191] ]%nat.

(** The rest of [s] after [w], when [s] starts with [w]. *)
Fixpoint dropPrefix (w s : string) : option string :=
  match w, s with
  | EmptyString, _ => Some s
  | String a w', String b s' =>
      if Ascii.eqb a b then dropPrefix w' s' else None
  | String _ _, EmptyString => None
  end.

(** The rest of [s] after the white space character that it starts
    with, if it starts with one. *)
Definition dropWhiteSpace (s : string) : option string :=
  foldr (λ w found,
           match dropPrefix w s with
           | Some rest => Some rest
           | None => found
           end)
        None whiteSpaceChars.

(** [s.trimStart()].  [fuel] bounds the rounds; the length of the string
    is enough, as every round drops a byte at least. *)
Fixpoint trimStartFuel (fuel : nat) (s : string) : string :=
  match fuel with
  | O => s
  | S fuel' =>
      match dropWhiteSpace s with
      | Some rest => trimStartFuel fuel' rest
      | None => s
      end
  end.

Definition trimStart (s : string) : string :=
  trimStartFuel (String.length s) s.

(** The string consists of white space characters. *)
Fixpoint allWhiteFuel (fuel : nat) (s : string) : bool :=
  match s with
  | EmptyString => true
  | String _ _ =>
      match fuel with
      | O => false
      | S fuel' =>
          match dropWhiteSpace s with
          | Some rest => allWhiteFuel fuel' rest
          | None => false
          end
      end
  end.

Definition allWhite (s : string) : bool :=
  allWhiteFuel (String.length s) s.

(** [s.trimEnd()]: the string up to where only white space follows. *)
Fixpoint trimEnd (s : string) : string :=
  match s with
  | EmptyString => EmptyString
  | String c s' =>
      if allWhite (String c s') then EmptyString else String c (trimEnd s')
  end.

Definition trim (s : string) : string := trimEnd (trimStart s).

(** [l.findIndex(p)]: the first index whose element satisfies [p],
    [-1] when there is none. *)
Definition findIndex {A} (P : A -> Prop) `{!∀ x, Decision (P x)}
    (l : list A) : Z :=
  match list_find P l with
  | Some (i, _) => Z.of_nat i
  | None => -1
  end.

(** [l.find(p)]: [undefined] is [None]. *)
Definition find {A} (P : A -> Prop) `{!∀ x, Decision (P x)}
    (l : list A) : option A :=
  snd <$> list_find P l.

(** [l[i]] for an integer index: [undefined] out of range. *)
Definition at_ {A} (l : list A) (i : Z) : option A :=
  if i <? 0 then None else l !! Z.to_nat i.

(** The position that [splice(start, ...)] works from: a negative
    [start] counts from the end, and the result is clamped to
    [0 .. length]. *)
Definition spliceStart {A} (start : Z) (l : list A) : nat :=
  let len := Z.of_nat (length l) in
  Z.to_nat (if start <? 0 then Z.max (len + start) 0 else Z.min start len).

(** [l.splice(start, 1)]: the array afterwards and the array of removed
    elements (at most one). *)
Definition splice1 {A} (start : Z) (l : list A) : list A * list A :=
  let k := spliceStart start l in
  (take k l ++ drop (S k) l, take 1 (drop k l)).

(** [l.splice(start, 1, x)]: as [splice1], with [x] put in the place of
    what was removed. *)
Definition splice1With {A} (start : Z) (x : A) (l : list A) : list A :=
  let k := spliceStart start l in
  take k l ++ x :: drop (S k) l.

(** [l.includes(v)] for an array [l] of objects and a value [v] that is
    an object or [undefined]. *)
Definition includes `{EqDecision A} (l : list A) (v : option A) : bool :=
  match v with
  | Some x => bool_decide (x ∈ l)
  | None => false
  end.

(** [_.has(o, key)] on a field that is present or absent. *)
Definition has {A} (field : option A) : bool :=
  match field with Some _ => true | None => false end.

End Js.

(** ** Data model *)

(** An ADR object.  A key that an object does not carry is [None]
    ([isValidAdr] asks for keys, [changedFilesInRepo] for the key
    [newAdr]); [id], when the object has one, is a number. *)
Record Adr := mkAdr {
  originalMd : option string;
  editedMd : option string;
  path : option string;
  id : option Js.number;
  newAdr : option bool
}.

(** A repository object.  [adrs] and [addedAdrs] hold references to ADR
    objects; [deletedAdrs] may be missing ([deleteAdr] creates it) and
    its entries may be [undefined] ([deleteAdr] can push the first
    element of an empty array).  Each of the three arrays belongs to
    its repository object alone. *)
Record Repository := mkRepository {
  fullName : string;
  activeBranch : string;
  branches : list string;
  adrs : list nat;
  addedAdrs : list nat;
  deletedAdrs : option (list (option nat))
}.

(** The value that [JSON.stringify] writes for a repository: the
    objects themselves in place of the references. *)
Record RepositoryJson := mkRepositoryJson {
  jsonFullName : string;
  jsonActiveBranch : string;
  jsonBranches : list string;
  jsonAdrs : list Adr;
  jsonAddedAdrs : list Adr;
  jsonDeletedAdrs : option (list (option Adr))
}.

(** The events of the store. *)
Inductive Event :=
  | OpenAdrEvent (adr : nat)
  | SetModeEvent (mode : string).

(** The store: the two object stores, the data of the Vue instance, the
    events emitted so far and the [addedRepositories] entry of the local
    storage. *)
Record Store := mkStore {
  adrObjs : gmap nat Adr;
  repoObjs : gmap nat Repository;
  currentRepository : option nat;
  currentlyEditedAdr : option nat;
  addedRepositories : list nat;
  mode : string;
  emitted : list Event;
  localStorage : option (list RepositoryJson)
}.

(** The record handed to the commit dialog by the three file listings. *)
Record CommitFile := mkCommitFile {
  title : option string;
  value : option string;
  filePath : string;
  fileSelected : bool;
  fileStatus : string
}.

(** A pushed file as [updateLocalStorageAfterCommit] receives it. *)
Record PushedFile := mkPushedFile {
  pushedType : string;
  pushedPath : string
}.

(** What a call does besides changing the store: it returns, or it
    throws (a [TypeError] of the runtime, or a thrown string). *)
Inductive exn :=
  | TypeError
  | Thrown (message : string).

Inductive outcome (A : Type) :=
  | Returns (a : A)
  | Throws (e : exn).
Arguments Returns {A} a.
Arguments Throws {A} e.

(** *** Object stores

    Every reference denotes an object.  The finite map lists the objects
    that were written; any other reference denotes an object without
    keys (for an ADR), or a repository with empty fields. *)
Definition blankAdr : Adr :=
  {| originalMd := None; editedMd := None; path := None; id := None;
     newAdr := None |}.

Definition blankRepository : Repository :=
  {| fullName := ""; activeBranch := ""; branches := []; adrs := [];
     addedAdrs := []; deletedAdrs := None |}.

Definition adrAt (st : Store) (a : nat) : Adr :=
  default blankAdr (adrObjs st !! a).

Definition repoAt (st : Store) (r : nat) : Repository :=
  default blankRepository (repoObjs st !! r).

(** *** Field updates *)
Definition set_adrObjs (h : gmap nat Adr) (st : Store) : Store :=
  {| adrObjs := h; repoObjs := repoObjs st;
     currentRepository := currentRepository st;
     currentlyEditedAdr := currentlyEditedAdr st;
     addedRepositories := addedRepositories st; mode := mode st;
     emitted := emitted st; localStorage := localStorage st |}.

Definition set_repoObjs (h : gmap nat Repository) (st : Store) : Store :=
  {| adrObjs := adrObjs st; repoObjs := h;
     currentRepository := currentRepository st;
     currentlyEditedAdr := currentlyEditedAdr st;
     addedRepositories := addedRepositories st; mode := mode st;
     emitted := emitted st; localStorage := localStorage st |}.

Definition set_currentRepository (r : option nat) (st : Store) : Store :=
  {| adrObjs := adrObjs st; repoObjs := repoObjs st;
     currentRepository := r;
     currentlyEditedAdr := currentlyEditedAdr st;
     addedRepositories := addedRepositories st; mode := mode st;
     emitted := emitted st; localStorage := localStorage st |}.

Definition set_currentlyEditedAdr (a : option nat) (st : Store) : Store :=
  {| adrObjs := adrObjs st; repoObjs := repoObjs st;
     currentRepository := currentRepository st;
     currentlyEditedAdr := a;
     addedRepositories := addedRepositories st; mode := mode st;
     emitted := emitted st; localStorage := localStorage st |}.

Definition set_addedRepositories (l : list nat) (st : Store) : Store :=
  {| adrObjs := adrObjs st; repoObjs := repoObjs st;
     currentRepository := currentRepository st;
     currentlyEditedAdr := currentlyEditedAdr st;
     addedRepositories := l; mode := mode st;
     emitted := emitted st; localStorage := localStorage st |}.

Definition emit (e : Event) (st : Store) : Store :=
  {| adrObjs := adrObjs st; repoObjs := repoObjs st;
     currentRepository := currentRepository st;
     currentlyEditedAdr := currentlyEditedAdr st;
     addedRepositories := addedRepositories st; mode := mode st;
     emitted := emitted st ++ [e]; localStorage := localStorage st |}.

Definition set_localStorage (v : option (list RepositoryJson)) (st : Store)
    : Store :=
  {| adrObjs := adrObjs st; repoObjs := repoObjs st;
     currentRepository := currentRepository st;
     currentlyEditedAdr := currentlyEditedAdr st;
     addedRepositories := addedRepositories st; mode := mode st;
     emitted := emitted st; localStorage := v |}.

(** Writes to a field of an object. *)
Definition writeAdr (a : nat) (o : Adr) (st : Store) : Store :=
  set_adrObjs (<[a := o]> (adrObjs st)) st.

Definition writeRepo (r : nat) (o : Repository) (st : Store) : Store :=
  set_repoObjs (<[r := o]> (repoObjs st)) st.

Definition set_adrs (l : list nat) (R : Repository) : Repository :=
  {| fullName := fullName R; activeBranch := activeBranch R;
     branches := branches R; adrs := l; addedAdrs := addedAdrs R;
     deletedAdrs := deletedAdrs R |}.

Definition set_addedAdrs (l : list nat) (R : Repository) : Repository :=
  {| fullName := fullName R; activeBranch := activeBranch R;
     branches := branches R; adrs := adrs R; addedAdrs := l;
     deletedAdrs := deletedAdrs R |}.

Definition set_deletedAdrs (l : option (list (option nat))) (R : Repository)
    : Repository :=
  {| fullName := fullName R; activeBranch := activeBranch R;
     branches := branches R; adrs := adrs R; addedAdrs := addedAdrs R;
     deletedAdrs := l |}.

Definition set_originalMd (v : option string) (o : Adr) : Adr :=
  {| originalMd := v; editedMd := editedMd o; path := path o; id := id o;
     newAdr := newAdr o |}.

Definition set_editedMd (v : option string) (o : Adr) : Adr :=
  {| originalMd := originalMd o; editedMd := v; path := path o; id := id o;
     newAdr := newAdr o |}.

Definition set_path (v : option string) (o : Adr) : Adr :=
  {| originalMd := originalMd o; editedMd := editedMd o; path := v;
     id := id o; newAdr := newAdr o |}.

Definition set_newAdr (v : option bool) (o : Adr) : Adr :=
  {| originalMd := originalMd o; editedMd := editedMd o; path := path o;
     id := id o; newAdr := v |}.

(** ** Loops *)

(** [for (x of l) body] over an array that the body does not change,
    threading the store; a throw ends the loop. *)
Fixpoint forOf {A} (l : list A) (body : A -> Store -> outcome unit * Store)
    (st : Store) : outcome unit * Store :=
  match l with
  | [] => (Returns tt, st)
  | x :: l' =>
      match body x st with
      | (Returns _, st') => forOf l' body st'
      | (Throws e, st') => (Throws e, st')
      end
  end.

(** [for (x of l) body] where the body only collects into a local
    array. *)
Fixpoint forOfCollect {A B} (l : list A)
    (body : A -> list B -> outcome (list B)) (acc : list B)
    : outcome (list B) :=
  match l with
  | [] => Returns acc
  | x :: l' =>
      match body x acc with
      | Returns acc' => forOfCollect l' body acc'
      | Throws e => Throws e
      end
  end.

(** The results of a row of calls: all of them, or the first throw. *)
Fixpoint collect {A} (l : list (outcome A)) : outcome (list A) :=
  match l with
  | [] => Returns []
  | Returns a :: l' =>
      match collect l' with
      | Returns r => Returns (a :: r)
      | Throws e => Throws e
      end
  | Throws e :: _ => Throws e
  end.

(** [for (e of arr) { if (matches(e)) arr.splice(arr.indexOf(e), 1) }]:
    the array is changed while it is iterated.  The iterator keeps an
    index: each round reads [arr[i]] from the array as it is then, and
    goes on with [i + 1] whether or not an element was removed.  The
    result is the array when the loop ends, and whether it ended by a
    throw of [matches].  [fuel] bounds the rounds; the length of the
    array is enough, as [i] grows every round and the array never does. *)
Fixpoint spliceWhileIterating {A} `{EqDecision A}
    (matches : A -> outcome bool) (fuel : nat) (i : nat) (arr : list A)
    : outcome unit * list A :=
  match fuel with
  | O => (Returns tt, arr)
  | S fuel' =>
      match arr !! i with
      | None => (Returns tt, arr)
      | Some e =>
          match matches e with
          | Throws x => (Throws x, arr)
          | Returns true =>
              let index := Js.findIndex (λ y, y = e) arr in
              spliceWhileIterating matches fuel' (S i)
                (fst (Js.splice1 index arr))
          | Returns false =>
              spliceWhileIterating matches fuel' (S i) arr
          end
      end
  end.

(** What the loop above leaves of the part of the array that it has
    not visited yet, for a test [p] that does not throw and an array
    without duplicates: an element that passes the test is removed, and
    the element after it moves into its place and is never looked at. *)
Fixpoint keepAfterRemoval {A} (p : A → bool) (l : list A) : list A :=
  match l with
  | [] => []
  | x :: l' =>
      if p x then
        match l' with
        | [] => []
        | y :: l'' => y :: keepAfterRemoval p l''
        end
      else x :: keepAfterRemoval p l'
  end.

(** ** The store's operations *)

Section Store.

(** Collaborators that are not part of the store: the file name
    sanitizer (package sanitize-filename), the case conversion and the
    template of a new ADR (parser.js and classes.js). *)
Variable sanitize : string -> string.
Variable naturalCase2snakeCase : string -> string.
(** [ArchitecturalDecisionRecord.createNewAdr().title] *)
Variable templateTitle : string.
(** [adr2md(ArchitecturalDecisionRecord.createNewAdr())] *)
Variable templateMd : string.

Definition isValidAdr (adr : Adr) : bool :=
  Js.has (originalMd adr) && Js.has (editedMd adr) && Js.has (path adr).

(** [isValidAdr] on a value that is an ADR object or [undefined]. *)
Definition isValidAdrValue (st : Store) (adr : option nat) : bool :=
  match adr with
  | Some a => isValidAdr (adrAt st a)
  | None => false
  end.

Definition toJson (st : Store) (r : nat) : RepositoryJson :=
  let R := repoAt st r in
  {| jsonFullName := fullName R;
     jsonActiveBranch := activeBranch R;
     jsonBranches := branches R;
     jsonAdrs := adrAt st <$> adrs R;
     jsonAddedAdrs := adrAt st <$> addedAdrs R;
     jsonDeletedAdrs :=
       (λ l : list (option nat), (λ e : option nat, adrAt st <$> e) <$> l)
         <$> deletedAdrs R |}.

Definition updateLocalStorageRepositories (st : Store) : Store :=
  set_localStorage (Some (toJson st <$> addedRepositories st)) st.

Definition openAdr (adr : option nat) (st : Store) : Store :=
  if decide (adr ≠ currentlyEditedAdr st) then
    let repo :=
      Js.find (λ r, Js.includes (adrs (repoAt st r)) adr = true)
              (addedRepositories st) in
    match adr, repo with
    | Some a, Some r =>
        if isValidAdr (adrAt st a) then
          emit (OpenAdrEvent a)
            (set_currentlyEditedAdr (Some a)
               (set_currentRepository (Some r) st))
        else st
    | _, _ => st
    end
  else st.

Definition openAnyAdr (st : Store) : Store :=
  let reposWithAdrs :=
    filter (λ r, is_Some (adrs (repoAt st r) !! 0%nat))
           (addedRepositories st) in
  if Js.includes reposWithAdrs (currentRepository st) then
    let someAdr :=
      r ← currentRepository st; adrs (repoAt st r) !! 0%nat in
    openAdr someAdr st
  else if (0 <? length reposWithAdrs)%nat then
    let someAdr := r ← reposWithAdrs !! 0%nat; adrs (repoAt st r) !! 0%nat in
    openAdr someAdr st
  else if decide (currentRepository st = None) then
    set_currentRepository (addedRepositories st !! 0%nat) st
  else st.

Definition ensureSomeAdrIsOpened (st : Store) : Store :=
  if bool_decide (currentlyEditedAdr st = None)
     || negb (isValidAdrValue st (currentlyEditedAdr st))
     || negb (existsb
                (λ r, Js.includes (adrs (repoAt st r)) (currentlyEditedAdr st))
                (addedRepositories st))
  then
    openAnyAdr (set_currentRepository None (set_currentlyEditedAdr None st))
  else st.

Definition addRepositories (repoList : list nat) (st : Store)
    : outcome unit * Store :=
  let alreadyAddedRepos :=
    filter (λ repoToAdd,
              fullName (repoAt st repoToAdd)
                ∈ (fullName ∘ repoAt st) <$> addedRepositories st)
           repoList in
  if (0 <? length alreadyAddedRepos)%nat then
    (Throws (Thrown
       ("I won't add an already added repository to the store! "
          +:+ Js.join ", " ((fullName ∘ repoAt st) <$> alreadyAddedRepos))),
     st)
  else
    (Returns tt,
     ensureSomeAdrIsOpened
       (updateLocalStorageRepositories
          (set_addedRepositories (addedRepositories st ++ repoList) st))).

Definition removeRepository (repoToRemove : nat) (st : Store) : Store :=
  updateLocalStorageRepositories
    (ensureSomeAdrIsOpened
       (set_addedRepositories
          (filter (λ r, fullName (repoAt st r)
                          ≠ fullName (repoAt st repoToRemove))
                  (addedRepositories st))
          st)).

Definition updateRepository (updatedRepository : nat) (st : Store)
    : outcome unit * Store :=
  let index :=
    Js.findIndex (λ r, fullName (repoAt st r)
                         = fullName (repoAt st updatedRepository))
                 (addedRepositories st) in
  let oldRepo := Js.at_ (addedRepositories st) index in
  let st1 :=
    set_addedRepositories
      (Js.splice1With index updatedRepository (addedRepositories st)) st in
  match oldRepo with
  | None => (Throws TypeError, st1)
  | Some old =>
      let st2 :=
        match currentlyEditedAdr st1 with
        | Some cur =>
            if Js.includes (adrs (repoAt st1 old)) (Some cur) then
              openAdr
                (Js.find (λ a, path (adrAt st1 a) = path (adrAt st1 cur))
                         (adrs (repoAt st1 updatedRepository)))
                st1
            else st1
        | None => st1
        end in
      (Returns tt, updateLocalStorageRepositories st2)
  end.

(** Modelled from the spec: [Repository.addAdr] of classes.js, which is
    not among the sources; createNewAdr "registers it in the repository
    ([adrs] and [addedAdrs])". *)
Definition addAdr (adr : nat) (R : Repository) : Repository :=
  set_addedAdrs (addedAdrs R ++ [adr]) (set_adrs (adrs R ++ [adr]) R).

(** [Math.max(...ids, -1)]; an ADR without [id] counts as [NaN].  (The
    limit that an engine puts on the number of arguments of a call is
    not modelled.) *)
Definition maxId (ids : list (option Js.number)) : Js.number :=
  foldr (λ v m, Js.max2 (Js.toNumber v) m) (Js.Num (-1)) ids.

Definition createNewAdr (repo : nat) (st : Store) : option nat * Store :=
  if bool_decide (repo ∈ addedRepositories st) then
    let id := Js.add1 (maxId ((id ∘ adrAt st) <$> adrs (repoAt st repo))) in
    let newAdr :=
      {| originalMd := Some "";
         editedMd := Some templateMd;
         id := Some id;
         path := Some ("docs/adr/"
                         +:+ Js.padStart 4 "0" (Js.toString id)
                         +:+ "-" +:+ templateTitle +:+ ".md");
         newAdr := Some true |} in
    let ref := fresh (dom (adrObjs st)) in
    let st1 := writeAdr ref newAdr st in
    let st2 := writeRepo repo (addAdr ref (repoAt st1 repo)) st1 in
    (Some ref, updateLocalStorageRepositories st2)
  else (None, st).

Definition deleteAdr (adr : nat) (repo : nat) (st : Store) : Store :=
  let R := repoAt st repo in
  let adrIndexAdr := Js.findIndex (λ adrEl, adrEl = adr) (adrs R) in
  let adrIndexNewAdr := Js.findIndex (λ adrEl, adrEl = adr) (addedAdrs R) in
  let deleted := default [] (deletedAdrs R) in
  let file := snd (Js.splice1 adrIndexAdr (adrs R)) !! 0%nat in
  let R1 :=
    set_deletedAdrs (Some deleted)
      (set_adrs (fst (Js.splice1 adrIndexAdr (adrs R))) R) in
  let R2 :=
    if 0 <=? adrIndexNewAdr then
      set_addedAdrs (fst (Js.splice1 adrIndexNewAdr (addedAdrs R1))) R1
    else set_deletedAdrs (Some (deleted ++ [file])) R1 in
  updateLocalStorageRepositories
    (ensureSomeAdrIsOpened (writeRepo repo R2 st)).

Definition updateMdOfCurrentAdr (md : string) (st : Store)
    : outcome unit * Store :=
  match currentlyEditedAdr st with
  | None => (Throws TypeError, st)
  | Some cur =>
      let st1 := writeAdr cur (set_editedMd (Some md) (adrAt st cur)) st in
      if match currentRepository st1 with
         | Some r => Js.includes (addedAdrs (repoAt st1 r)) (Some cur)
         | None => false
         end
      then
        match path (adrAt st1 cur), Js.split "010" md !! 0%nat,
              id (adrAt st1 cur) with
        | Some p, Some line, Some n =>
            let path := Js.split "/" p in
            let title := Js.trim (Js.stripHashes line) in
            let name :=
              sanitize
                (Js.padStart 4 "0" (Js.toString n)
                   +:+ "-" +:+ naturalCase2snakeCase title +:+ ".md") in
            let path := <[(length path - 1)%nat := name]> path in
            let st2 :=
              writeAdr cur
                (set_path (Some (Js.join "/" path)) (adrAt st1 cur)) st1 in
            (Returns tt, updateLocalStorageRepositories st2)
        | _, _, _ => (Throws TypeError, st1)
        end
      else (Returns tt, updateLocalStorageRepositories st1)
  end.

Definition dataStructureDataCommit (file : Adr) (fileType : string)
    : outcome CommitFile :=
  match path file with
  | None => Throws TypeError
  | Some p =>
      Returns {| title := Js.split "/" p !! 2%nat;
                 value := editedMd file;
                 filePath := p;
                 fileSelected := false;
                 fileStatus := fileType |}
  end.

Definition changedFilesInRepo (repoName : string) (st : Store)
    : outcome (list CommitFile) :=
  forOfCollect (addedRepositories st)
    (λ repo changedFiles,
       if decide (repoName = fullName (repoAt st repo)) then
         forOfCollect (adrs (repoAt st repo))
           (λ changedFile changedFiles,
              if negb (Js.has (newAdr (adrAt st changedFile))) then
                if decide (editedMd (adrAt st changedFile)
                             ≠ originalMd (adrAt st changedFile))
                then
                  match dataStructureDataCommit (adrAt st changedFile)
                          "changed" with
                  | Returns f => Returns (changedFiles ++ [f])
                  | Throws e => Throws e
                  end
                else Returns changedFiles
              else Returns changedFiles)
           changedFiles
       else Returns changedFiles)
    [].

Definition deletedFilesInRepo (repoName : string) (st : Store)
    : outcome (list CommitFile) :=
  forOfCollect (addedRepositories st)
    (λ repo deletedFiles,
       if decide (repoName = fullName (repoAt st repo)) then
         match deletedAdrs (repoAt st repo) with
         | None => Throws TypeError
         | Some deleted =>
             forOfCollect deleted
               (λ deletedFile deletedFiles,
                  match deletedFile with
                  | None => Throws TypeError
                  | Some d =>
                      match path (adrAt st d) with
                      | None => Throws TypeError
                      | Some p =>
                          Returns
                            (deletedFiles ++
                               [{| filePath := p;
                                   title := Js.split "/" p !! 2%nat;
                                   value := None;
                                   fileSelected := false;
                                   fileStatus := "deleted" |}])
                      end
                  end)
               deletedFiles
         end
       else Returns deletedFiles)
    [].

Definition newFilesInRepo (repoName : string) (st : Store)
    : outcome (list CommitFile) :=
  forOfCollect (addedRepositories st)
    (λ repo newFiles,
       if decide (repoName = fullName (repoAt st repo)) then
         forOfCollect (addedAdrs (repoAt st repo))
           (λ newFile newFiles,
              match dataStructureDataCommit (adrAt st newFile) "new" with
              | Returns f => Returns (newFiles ++ [f])
              | Throws e => Throws e
              end)
           newFiles
       else Returns newFiles)
    [].

Definition handleUpdateLocalStorageNew (file : PushedFile)
    (repoName : string) (st : Store) : outcome unit * Store :=
  forOf (addedRepositories st)
    (λ repo st,
       if decide (repoName = fullName (repoAt st repo)) then
         let added := addedAdrs (repoAt st repo) in
         let added' :=
           snd (spliceWhileIterating
                  (λ repoEntry,
                     Returns (bool_decide
                                (Some (pushedPath file)
                                   = path (adrAt st repoEntry))))
                  (length added) 0 added) in
         let st1 := writeRepo repo (set_addedAdrs added' (repoAt st repo)) st in
         forOf (adrs (repoAt st1 repo))
           (λ repoEntry st,
              if decide (Some (pushedPath file) = path (adrAt st repoEntry))
              then
                let o := set_newAdr None (adrAt st repoEntry) in
                (Returns tt, writeAdr repoEntry (set_originalMd (editedMd o) o) st)
              else (Returns tt, st))
           st1
       else (Returns tt, st))
    st.

Definition handleUpdateLocalStorageChanged (file : PushedFile)
    (repoName : string) (st : Store) : outcome unit * Store :=
  forOf (addedRepositories st)
    (λ repo st,
       if decide (repoName = fullName (repoAt st repo)) then
         forOf (adrs (repoAt st repo))
           (λ repoEntry st,
              if decide (Some (pushedPath file) = path (adrAt st repoEntry))
              then
                let o := adrAt st repoEntry in
                (Returns tt, writeAdr repoEntry (set_originalMd (editedMd o) o) st)
              else (Returns tt, st))
           st
       else (Returns tt, st))
    st.

Definition handleUpdateLocalStorageDeleted (file : PushedFile)
    (repoName : string) (st : Store) : outcome unit * Store :=
  forOf (addedRepositories st)
    (λ repo st,
       if decide (repoName = fullName (repoAt st repo)) then
         match deletedAdrs (repoAt st repo) with
         | None => (Throws TypeError, st)
         | Some deleted =>
             let (res, deleted') :=
               spliceWhileIterating
                 (λ repoEntry : option nat,
                    match repoEntry with
                    | None => Throws TypeError
                    | Some d =>
                        Returns (bool_decide
                                   (Some (pushedPath file)
                                      = path (adrAt st d)))
                    end)
                 (length deleted) 0 deleted in
             (res,
              writeRepo repo
                (set_deletedAdrs (Some deleted') (repoAt st repo)) st)
         end
       else (Returns tt, st))
    st.

Definition updateLocalStorageAfterCommit (pushedFiles : list PushedFile)
    (repoName : string) (st : Store) : outcome unit * Store :=
  match
    forOf pushedFiles
      (λ file st,
         if decide (pushedType file = "new") then
           handleUpdateLocalStorageNew file repoName st
         else if decide (pushedType file = "changed") then
           handleUpdateLocalStorageChanged file repoName st
         else if decide (pushedType file = "deleted") then
           handleUpdateLocalStorageDeleted file repoName st
         else (Returns tt, st))
      st
  with
  | (Returns _, st') => (Returns tt, updateLocalStorageRepositories st')
  | (Throws e, st') => (Throws e, st')
  end.

(** ** Properties of the data model *)

(** The invariant of the state store on the opened ADR: when
    [currentlyEditedAdr] is set, it is a valid ADR and it is in [adrs]
    of some repository of [addedRepositories]. *)
Definition openedAdrOk (st : Store) : Prop :=
  ∀ a, currentlyEditedAdr st = Some a →
       isValidAdr (adrAt st a) = true
       ∧ ∃ r, r ∈ addedRepositories st ∧ a ∈ adrs (repoAt st r).

(** The flag [newAdr] as the data model words it: a "boolean flag
    (absence = false)". *)
Definition flaggedNew (o : Adr) : bool :=
  match newAdr o with
  | Some b => b
  | None => false
  end.

(** What [changedFilesInRepo] is to return for the repository [r] that
    [repoName] names, given a reading [unpublished] of "flagged
    unpublished-new": the ADRs of [adrs] that are not unpublished and
    whose [editedMd] differs from [originalMd], in order, each as the
    record of its third path segment, its [editedMd], its path and the
    status "changed"; an ADR whose [editedMd] is its [originalMd] is not
    among them. *)
Definition changedFilesSpec (unpublished : Adr → bool) (repoName : string)
    (r : nat) (st : Store) : Prop :=
  let changed :=
    filter (λ a, unpublished (adrAt st a) = false
                 ∧ editedMd (adrAt st a) ≠ originalMd (adrAt st a))
           (adrs (repoAt st r)) in
  ((∀ a, a ∈ changed → is_Some (path (adrAt st a))) →
   ∃ files, changedFilesInRepo repoName st = Returns files)
  ∧ (∀ files, changedFilesInRepo repoName st = Returns files →
     Forall2
       (λ a file,
          ∃ p, path (adrAt st a) = Some p
               ∧ file = {| title := Js.split "/" p !! 2%nat;
                           value := editedMd (adrAt st a);
                           filePath := p;
                           fileSelected := false;
                           fileStatus := "changed" |})
       changed files)
  ∧ (∀ a, editedMd (adrAt st a) = originalMd (adrAt st a) → a ∉ changed).

(** The invariants of the data model on a repository: every ADR of
    [adrs] is valid; [path] is unique across [adrs]; [addedAdrs] is a
    subset of [adrs]; [newAdr] is true on the ADRs that are not yet
    published, those of [addedAdrs], and on no other; [deletedAdrs]
    holds valid ADRs that are no longer in [adrs]. *)
Definition repositoryOk (st : Store) (R : Repository) : Prop :=
  (∀ a, a ∈ adrs R → isValidAdr (adrAt st a) = true)
  ∧ NoDup ((path ∘ adrAt st) <$> adrs R)
  ∧ (∀ a, a ∈ addedAdrs R → a ∈ adrs R)
  ∧ (∀ a, a ∈ adrs R → a ∈ addedAdrs R ↔ newAdr (adrAt st a) = Some true)
  ∧ ∃ deleted, deletedAdrs R = Some (Some <$> deleted)
               ∧ ∀ d, d ∈ deleted →
                      isValidAdr (adrAt st d) = true ∧ d ∉ adrs R.

(** The invariants of the data model on the ADRs of a repository: the
    ids are non-negative and unique within [adrs], and the last segment
    of a path is the id padded to four digits, a hyphen, a title and
    .md. *)
Definition namingOk (st : Store) (R : Repository) : Prop :=
  NoDup ((id ∘ adrAt st) <$> adrs R)
  ∧ ∀ a, a ∈ adrs R →
         ∃ z p dir title,
           id (adrAt st a) = Some (Js.Num z) ∧ 0 ≤ z
           ∧ path (adrAt st a) = Some p
           ∧ Js.split "/" p
             = dir ++ [Js.padStart 4 "0" (Js.toString (Js.Num z))
                         +:+ "-" +:+ title +:+ ".md"].

Definition disjointPaths (xs ys : list CommitFile) : Prop :=
  ∀ f g, f ∈ xs → g ∈ ys → filePath f ≠ filePath g.

(** The three file listings of a repository return, and no path is in
    two of them. *)
Definition diffSetsDisjoint (repoName : string) (st : Store) : Prop :=
  ∃ changed new deleted,
    changedFilesInRepo repoName st = Returns changed
    ∧ newFilesInRepo repoName st = Returns new
    ∧ deletedFilesInRepo repoName st = Returns deleted
    ∧ disjointPaths changed new
    ∧ disjointPaths changed deleted
    ∧ disjointPaths new deleted.

(** The object stores are the same in both stores. *)
Definition sameObjects (st st' : Store) : Prop :=
  adrObjs st' = adrObjs st ∧ repoObjs st' = repoObjs st.

(** Nothing differs but the two pointers and the emitted events:
    [openAdr], [openAnyAdr] and [ensureSomeAdrIsOpened] change no more
    than that. *)
Definition sameData (st st' : Store) : Prop :=
  sameObjects st st'
  ∧ addedRepositories st' = addedRepositories st
  ∧ localStorage st' = localStorage st ∧ mode st' = mode st.

End Store.

(** ** Collaborators, for the examples

    The store's operations take the case conversion and the sanitizer
    as parameters.  Where an example has to run them, these stand in. *)

Module Collaborators.

Definition lowerCase (c : ascii) : ascii :=
  let n := nat_of_ascii c in
  if (65 <=? n)%nat && (n <=? 90)%nat then ascii_of_nat (n + 32) else c.

(** Modelled from the spec: [naturalCase2snakeCase] of parser.js, which
    is not among the sources; the title is converted "to a normalized
    lowercase-with-underscores form", "lowercase, spaces→underscores". *)
Fixpoint naturalCase2snakeCase (s : string) : string :=
  match s with
  | EmptyString => EmptyString
  | String c s' =>
      String (if Ascii.eqb c " " then "_"%char else lowerCase c)
             (naturalCase2snakeCase s')
  end.

(** Characters that a file name cannot hold: control characters and
    [/ ? < > \ : * |] and the double quote. *)
Definition illegalInFileName (c : ascii) : bool :=
  let n := nat_of_ascii c in
  (n <? 32)%nat || ((128 <=? n)%nat && (n <=? 159)%nat)
  || bool_decide (n ∈ [47; 63; 60; 62; 92; 58; 42; 124; 34]%nat).

(** Modelled from the spec: the file name sanitizer (package
    sanitize-filename), which "sanitizes it for filesystem safety": the
    characters that a file name cannot hold are dropped. *)
Fixpoint sanitize (s : string) : string :=
  match s with
  | EmptyString => EmptyString
  | String c s' =>
      if illegalInFileName c then sanitize s' else String c (sanitize s')
  end.

End Collaborators.

(** ** Example stores

    Small stores on which the operations are run below.  ADR and
    repository objects sit in the object stores under the references
    [0], [1], ... *)

Module Examples.

(** A published ADR whose edited text is its baseline. *)
Definition publishedAdr : Adr :=
  {| originalMd := Some "# x"; editedMd := Some "# x";
     path := Some "docs/adr/0000-x.md";
     id := Some (Js.Num 0); newAdr := None |}.

(** A published ADR that has been edited since. *)
Definition editedAdr : Adr :=
  {| originalMd := Some "old"; editedMd := Some "new";
     path := Some "docs/adr/0001-y.md";
     id := Some (Js.Num 1); newAdr := None |}.

(** An ADR created locally and not published yet. *)
Definition unpublishedAdr : Adr :=
  {| originalMd := Some ""; editedMd := Some "# A";
     path := Some "docs/adr/0003-a.md";
     id := Some (Js.Num 3); newAdr := Some true |}.

(** Repository [0] is added and holds the three ADRs; repository [1]
    has the same full name and no ADR; repository [2] has another
    name.  ADR [0] is opened. *)
Definition store1 : Store :=
  {| adrObjs := {[ 0%nat := publishedAdr; 1%nat := editedAdr;
                   2%nat := unpublishedAdr ]};
     repoObjs :=
       {[ 0%nat := {| fullName := "owner/repo"; activeBranch := "main";
                      branches := ["main"]; adrs := [0; 1; 2]%nat;
                      addedAdrs := [2%nat]; deletedAdrs := Some [] |};
          1%nat := {| fullName := "owner/repo"; activeBranch := "main";
                      branches := ["main"]; adrs := [];
                      addedAdrs := []; deletedAdrs := Some [] |};
          2%nat := {| fullName := "owner/other"; activeBranch := "main";
                      branches := ["main"]; adrs := [];
                      addedAdrs := []; deletedAdrs := Some [] |} ]};
     currentRepository := Some 0%nat;
     currentlyEditedAdr := Some 0%nat;
     addedRepositories := [0%nat];
     mode := "basic";
     emitted := [];
     localStorage := None |}.

(** An edited ADR that carries the key [newAdr] with the value false. *)
Definition flagFalseAdr : Adr :=
  {| originalMd := Some "old"; editedMd := Some "new";
     path := Some "docs/adr/0000-x.md";
     id := Some (Js.Num 0); newAdr := Some false |}.

Definition store2 : Store :=
  {| adrObjs := {[ 0%nat := flagFalseAdr ]};
     repoObjs :=
       {[ 0%nat := {| fullName := "owner/repo"; activeBranch := "main";
                      branches := ["main"]; adrs := [0%nat];
                      addedAdrs := []; deletedAdrs := Some [] |} ]};
     currentRepository := Some 0%nat;
     currentlyEditedAdr := Some 0%nat;
     addedRepositories := [0%nat];
     mode := "basic";
     emitted := [];
     localStorage := None |}.

(** A new ADR that took the id, and then the file name, of a deleted
    one. *)
Definition reusedPathAdr : Adr :=
  {| originalMd := Some ""; editedMd := Some "# x";
     path := Some "docs/adr/0000-x.md";
     id := Some (Js.Num 0); newAdr := Some true |}.

(** The published ADR [0] has been deleted; ADR [1], created after
    that, is not published yet and has the same path. *)
Definition store3 : Store :=
  {| adrObjs := {[ 0%nat := publishedAdr; 1%nat := reusedPathAdr ]};
     repoObjs :=
       {[ 0%nat := {| fullName := "owner/repo"; activeBranch := "main";
                      branches := ["main"]; adrs := [1%nat];
                      addedAdrs := [1%nat];
                      deletedAdrs := Some [Some 0%nat] |} ]};
     currentRepository := Some 0%nat;
     currentlyEditedAdr := Some 1%nat;
     addedRepositories := [0%nat];
     mode := "basic";
     emitted := [];
     localStorage := None |}.

(** A second published ADR with the path of [publishedAdr]. *)
Definition republishedAdr : Adr :=
  {| originalMd := Some "# x"; editedMd := Some "# x";
     path := Some "docs/adr/0000-x.md";
     id := Some (Js.Num 0); newAdr := None |}.

(** Both published ADRs have been deleted, one after the other. *)
Definition store4 : Store :=
  {| adrObjs := {[ 0%nat := publishedAdr; 1%nat := republishedAdr ]};
     repoObjs :=
       {[ 0%nat := {| fullName := "owner/repo"; activeBranch := "main";
                      branches := ["main"]; adrs := [];
                      addedAdrs := [];
                      deletedAdrs := Some [Some 0%nat; Some 1%nat] |} ]};
     currentRepository := Some 0%nat;
     currentlyEditedAdr := None;
     addedRepositories := [0%nat];
     mode := "basic";
     emitted := [];
     localStorage := None |}.

(** One repository with one published ADR, which is opened. *)
Definition store0 : Store :=
  {| adrObjs := {[ 0%nat := publishedAdr ]};
     repoObjs :=
       {[ 0%nat := {| fullName := "owner/repo"; activeBranch := "main";
                      branches := ["main"]; adrs := [0%nat];
                      addedAdrs := []; deletedAdrs := Some [] |} ]};
     currentRepository := Some 0%nat;
     currentlyEditedAdr := Some 0%nat;
     addedRepositories := [0%nat];
     mode := "basic";
     emitted := [];
     localStorage := None |}.

(** A published ADR that has been deleted. *)
Definition deletedAdr : Adr :=
  {| originalMd := Some "# z"; editedMd := Some "# z";
     path := Some "docs/adr/0002-z.md";
     id := Some (Js.Num 2); newAdr := None |}.

(** As [store1], with the deleted ADR [3] in [deletedAdrs]. *)
Definition store5 : Store :=
  {| adrObjs := {[ 0%nat := publishedAdr; 1%nat := editedAdr;
                   2%nat := unpublishedAdr; 3%nat := deletedAdr ]};
     repoObjs :=
       {[ 0%nat := {| fullName := "owner/repo"; activeBranch := "main";
                      branches := ["main"]; adrs := [0; 1; 2]%nat;
                      addedAdrs := [2%nat];
                      deletedAdrs := Some [Some 3%nat] |} ]};
     currentRepository := Some 0%nat;
     currentlyEditedAdr := Some 0%nat;
     addedRepositories := [0%nat];
     mode := "basic";
     emitted := [];
     localStorage := None |}.

(** [store1] with the unpublished ADR [2] opened. *)
Definition store1Unpublished : Store :=
  set_currentlyEditedAdr (Some 2%nat) store1.

End Examples.

(** ** Further operations of the store *)

(** [s] holds no character [c]. *)
Fixpoint noChar (c : ascii) (s : string) : bool :=
  match s with
  | EmptyString => true
  | String x s' => negb (Ascii.eqb x c) && noChar c s'
  end.

(** ** What a file name is made of

    The words of the description of [updateMdOfCurrentAdr],
    [createNewAdr] and [addRepositories], said without the primitives
    above. *)









(** [text] lists [names] in order, with [sep] between two of them. *)
Inductive joined (sep : string) : list string → string → Prop :=
  | joined_nil : joined sep [] EmptyString
  | joined_one (x : string) : joined sep [x] x
  | joined_cons (x y : string) (l : list string) (text : string) :
      joined sep (y :: l) text →
      joined sep (x :: y :: l) (x +:+ sep +:+ text).

(** [l.find(p)] for a test that can throw: the elements before the first
    hit are tested in order, and a throw ends the search. *)
Fixpoint findThrowing {A} (p : A → outcome bool) (l : list A)
    : outcome (option A) :=
  match l with
  | [] => Returns None
  | x :: l' =>
      match p x with
      | Throws e => Throws e
      | Returns true => Returns (Some x)
      | Returns false => findThrowing p l'
      end
  end.

(** The test of [openAdrBy]: [adr.path.split("/").pop() === adrName]. *)
Definition hasFileName (st : Store) (adrName : string) (a : nat)
    : outcome bool :=
  match path (adrAt st a) with
  | None => Throws TypeError
  | Some p => Returns (bool_decide (last (Js.split "/" p) = Some adrName))
  end.

Definition openAdrBy (repoFullName adrName : string) (st : Store)
    : outcome (option nat) * Store :=
  let repo :=
    Js.find (λ repo, fullName (repoAt st repo) = repoFullName)
            (addedRepositories st) in
  match repo with
  | Some r =>
      match findThrowing (hasFileName st adrName) (adrs (repoAt st r)) with
      | Throws e => (Throws e, st)
      | Returns (Some adr) => (Returns (Some adr), openAdr (Some adr) st)
      | Returns None => (Returns None, st)
      end
  | None => (Returns None, st)
  end.

Definition set_mode (m : string) (st : Store) : Store :=
  {| adrObjs := adrObjs st; repoObjs := repoObjs st;
     currentRepository := currentRepository st;
     currentlyEditedAdr := currentlyEditedAdr st;
     addedRepositories := addedRepositories st; mode := m;
     emitted := emitted st; localStorage := localStorage st |}.

(** [setMode]: the store afterwards and what was written under the key
    [mode] of the local storage ([None]: nothing was written). *)
Definition setMode (m : string) (st : Store) : Store * option string :=
  if bool_decide (m ∈ ["basic"; "advanced"; "professional"]) then
    (emit (SetModeEvent m) (set_mode m st), Some m)
  else (st, None).

(** The key [mode] of the local storage after [setMode]: what was there
    stays when nothing is written. *)
Definition setModeStored (s : Store * option string) (m : string)
    : Store * option string :=
  match setMode m (fst s) with
  | (st', Some written) => (st', Some written)
  | (st', None) => (st', snd s)
  end.

(** [localStorage.getItem("mode") || "basic"] of [reload]: a missing
    key and the empty string give basic. *)
Definition reloadMode (stored : option string) : string :=
  match stored with
  | None | Some EmptyString => "basic"
  | Some m => m
  end.

(** The object that [getRepoInfoForCommit] returns. *)
Record RepoInfo := mkRepoInfo {
  userName : option string;
  repoName : option string;
  infoActiveBranch : string
}.

(** The loop returns at the first repository that has the name;
    without one the function returns [undefined]. *)
Fixpoint getRepoInfoLoop (st : Store) (name : string) (repos : list nat)
    : option RepoInfo :=
  match repos with
  | [] => None
  | repo :: repos' =>
      if decide (name = fullName (repoAt st repo)) then
        Some {| userName := Js.split "/" (fullName (repoAt st repo)) !! 0%nat;
                repoName := Js.split "/" (fullName (repoAt st repo)) !! 1%nat;
                infoActiveBranch := activeBranch (repoAt st repo) |}
      else getRepoInfoLoop st name repos'
  end.

Definition getRepoInfoForCommit (name : string) (st : Store)
    : option RepoInfo :=
  getRepoInfoLoop st name (addedRepositories st).

(** A repository as [JSON.parse] hands it to [isValidRepoList]: an
    object whose keys may be missing; an array entry may be [null]. *)
Record RepositoryData := mkRepositoryData {
  dataFullName : option string;
  dataActiveBranch : option string;
  dataBranches : option (list string);
  dataAddedAdrs : option (list (option Adr));
  dataDeletedAdrs : option (list (option Adr));
  dataAdrs : option (list (option Adr))
}.

(** [isValidAdr] on an entry of a parsed array. *)
Definition isValidAdrData (adr : option Adr) : bool :=
  match adr with
  | Some o => Js.has (originalMd o) && Js.has (editedMd o) && Js.has (path o)
  | None => false
  end.

Definition isValidRepoList (repos : list RepositoryData) : bool :=
  forallb
    (λ repo,
       Js.has (dataFullName repo)
       && Js.has (dataActiveBranch repo)
       && Js.has (dataBranches repo)
       && Js.has (dataAddedAdrs repo)
       && Js.has (dataDeletedAdrs repo)
       && match dataAdrs repo with
          | Some l => forallb isValidAdrData l
          | None => false
          end)
    repos.

(** What [JSON.parse] gives back for the value that [JSON.stringify]
    wrote for a repository: a key whose value was [undefined] is not
    there, an [undefined] array entry is [null].  (An [id] that was
    [NaN] comes back as [null]; the validation does not read the [id],
    and it is left as it was.) *)
Definition parseJson (j : RepositoryJson) : RepositoryData :=
  {| dataFullName := Some (jsonFullName j);
     dataActiveBranch := Some (jsonActiveBranch j);
     dataBranches := Some (jsonBranches j);
     dataAddedAdrs := Some (Some <$> jsonAddedAdrs j);
     dataDeletedAdrs := jsonDeletedAdrs j;
     dataAdrs := Some (Some <$> jsonAdrs j) |}.

(** [addedRepositories] is unique by [fullName]. *)
Definition uniqueNames (st : Store) : Prop :=
  NoDup ((fullName ∘ repoAt st) <$> addedRepositories st).

(** The ADRs that the loops over the repositories named [repoName]
    visit, in the order of the visit. *)
Definition adrsNamed (repoName : string) (st : Store) : list nat :=
  r ← filter (λ repo, repoName = fullName (repoAt st repo))
             (addedRepositories st);
  adrs (repoAt st r).

(** The batch that tells [updateLocalStorageAfterCommit] that the
    listed files were pushed. *)
Definition pushedAs (type : string) (files : list CommitFile)
    : list PushedFile :=
  (λ f, {| pushedType := type; pushedPath := filePath f |}) <$> files.

(** The baseline of some ADRs was moved up to their edited text, and
    nothing else happened to the objects, the list and the pointers:
    what the handler of the changed type may do. *)
Definition rebased (st st' : Store) : Prop :=
  repoObjs st' = repoObjs st
  ∧ addedRepositories st' = addedRepositories st
  ∧ currentRepository st' = currentRepository st
  ∧ currentlyEditedAdr st' = currentlyEditedAdr st
  ∧ emitted st' = emitted st
  ∧ ∀ a, path (adrAt st' a) = path (adrAt st a)
         ∧ editedMd (adrAt st' a) = editedMd (adrAt st a)
         ∧ newAdr (adrAt st' a) = newAdr (adrAt st a)
         ∧ id (adrAt st' a) = id (adrAt st a)
         ∧ (originalMd (adrAt st' a) = originalMd (adrAt st a)
            ∨ originalMd (adrAt st' a) = editedMd (adrAt st a)).

(** Some ADRs were published, and nothing else happened to the ADR
    objects: the baseline of a published ADR is its edited text and its
    key [newAdr] is gone.  This is what the handler of the new type may
    do to the ADRs. *)
Definition released (st st' : Store) : Prop :=
  ∀ a, path (adrAt st' a) = path (adrAt st a)
       ∧ editedMd (adrAt st' a) = editedMd (adrAt st a)
       ∧ id (adrAt st' a) = id (adrAt st a)
       ∧ ((originalMd (adrAt st' a) = originalMd (adrAt st a)
           ∧ newAdr (adrAt st' a) = newAdr (adrAt st a))
          ∨ (originalMd (adrAt st' a) = editedMd (adrAt st a)
             ∧ newAdr (adrAt st' a) = None)).

(** The ADR is as a published one that has no local edit. *)
Definition settled (st : Store) (a : nat) : Prop :=
  originalMd (adrAt st a) = editedMd (adrAt st a)
  ∧ newAdr (adrAt st a) = None.

(** What the bookkeeping of a commit may do, whatever the batch: the
    baseline of an ADR is moved up to its edited text, its key [newAdr]
    is deleted, and [addedAdrs] and [deletedAdrs] of a repository
    change.  The list of repositories, the pointers, the events, the
    mode, the name, branches and [adrs] of every repository and the
    path, edited text and id of every ADR are not touched. *)
Definition committed (st st' : Store) : Prop :=
  addedRepositories st' = addedRepositories st
  ∧ currentRepository st' = currentRepository st
  ∧ currentlyEditedAdr st' = currentlyEditedAdr st
  ∧ emitted st' = emitted st
  ∧ mode st' = mode st
  ∧ (∀ r, fullName (repoAt st' r) = fullName (repoAt st r)
          ∧ activeBranch (repoAt st' r) = activeBranch (repoAt st r)
          ∧ branches (repoAt st' r) = branches (repoAt st r)
          ∧ adrs (repoAt st' r) = adrs (repoAt st r))
  ∧ (∀ a, path (adrAt st' a) = path (adrAt st a)
          ∧ editedMd (adrAt st' a) = editedMd (adrAt st a)
          ∧ id (adrAt st' a) = id (adrAt st a)
          ∧ (originalMd (adrAt st' a) = originalMd (adrAt st a)
             ∨ originalMd (adrAt st' a) = editedMd (adrAt st a))
          ∧ (newAdr (adrAt st' a) = newAdr (adrAt st a)
             ∨ newAdr (adrAt st' a) = None)).

(** ** More example stores *)

Module MoreExamples.

(** An object that lacks the key [originalMd]. *)
Definition invalidAdr : Adr :=
  {| originalMd := None; editedMd := Some "# w";
     path := Some "docs/adr/0007-w.md";
     id := Some (Js.Num 7); newAdr := None |}.

(** Nothing is opened; the first ADR of the repository is not valid, the
    second one is. *)
Definition invalidFirst : Store :=
  {| adrObjs := {[ 0%nat := invalidAdr; 1%nat := Examples.publishedAdr ]};
     repoObjs :=
       {[ 0%nat := {| fullName := "owner/repo"; activeBranch := "main";
                      branches := ["main"]; adrs := [0; 1]%nat;
                      addedAdrs := []; deletedAdrs := Some [] |} ]};
     currentRepository := None;
     currentlyEditedAdr := None;
     addedRepositories := [0%nat];
     mode := "basic";
     emitted := [];
     localStorage := None |}.

(** [store1] with nothing opened. *)
Definition store1Closed : Store :=
  set_currentRepository None (set_currentlyEditedAdr None Examples.store1).

(** The added repository [0] holds the opened ADR [0]; repository [1]
    is a fresh copy of it, with ADR [1] at the same path. *)
Definition refreshed : Store :=
  {| adrObjs := {[ 0%nat := Examples.publishedAdr;
                   1%nat := Examples.republishedAdr ]};
     repoObjs :=
       {[ 0%nat := {| fullName := "owner/repo"; activeBranch := "main";
                      branches := ["main"]; adrs := [0%nat];
                      addedAdrs := []; deletedAdrs := Some [] |};
          1%nat := {| fullName := "owner/repo"; activeBranch := "main";
                      branches := ["main"]; adrs := [1%nat];
                      addedAdrs := []; deletedAdrs := Some [] |} ]};
     currentRepository := Some 0%nat;
     currentlyEditedAdr := Some 0%nat;
     addedRepositories := [0%nat];
     mode := "basic";
     emitted := [];
     localStorage := None |}.

(** Two published ADRs with their own paths have been deleted, one
    after the other. *)
Definition twoDeleted : Store :=
  {| adrObjs := {[ 0%nat := Examples.publishedAdr;
                   3%nat := Examples.deletedAdr ]};
     repoObjs :=
       {[ 0%nat := {| fullName := "owner/repo"; activeBranch := "main";
                      branches := ["main"]; adrs := [];
                      addedAdrs := [];
                      deletedAdrs := Some [Some 0%nat; Some 3%nat] |} ]};
     currentRepository := Some 0%nat;
     currentlyEditedAdr := None;
     addedRepositories := [0%nat];
     mode := "basic";
     emitted := [];
     localStorage := None |}.



End MoreExamples.

(** ** Facts about the primitives *)

(** Membership in a list that is written out. *)
Ltac each_elem H :=
  repeat (apply elem_of_cons in H as [->|H]);
  [..|by apply not_elem_of_nil in H].

(** ** Facts about strings *)

Lemma append_assoc (a b c : string) : (a +:+ b) +:+ c = a +:+ (b +:+ c).
Proof.
  induction a as [|x a IH]; [done|].
  change (String x ((a +:+ b) +:+ c) = String x (a +:+ (b +:+ c))).
  by f_equal.
Qed.

Lemma append_nil_r (a : string) : a +:+ "" = a.
Proof.
  induction a as [|x a IH]; [done|].
  change (String x (a +:+ "") = String x a). by f_equal.
Qed.


Lemma split_nonempty (sep : ascii) (s : string) : Js.split sep s ≠ [].
Proof.
  destruct s as [|c s]; simpl; [done|].
  destruct (Ascii.eqb c sep); [done|]. by destruct (Js.split sep s).
Qed.


(** A string without the separator is its only segment. *)
Lemma split_noChar (sep : ascii) (s : string) :
  noChar sep s = true → Js.split sep s = [s].
Proof.
  induction s as [|c s IH]; [done|]. cbn [noChar Js.split].
  intros [Hc Hs]%andb_true_iff. apply negb_true_iff in Hc.
  by rewrite Hc, IH.
Qed.

(** The first separator ends the first segment. *)
Lemma split_app (sep : ascii) (a b : string) :
  noChar sep a = true →
  Js.split sep (a +:+ String sep b) = a :: Js.split sep b.
Proof.
  induction a as [|c a IH]; intros Ha.
  - change (Js.split sep (String sep b) = "" :: Js.split sep b).
    cbn [Js.split]. by rewrite Ascii.eqb_refl.
  - cbn [noChar] in Ha. apply andb_true_iff in Ha as [Hc Ha].
    apply negb_true_iff in Hc.
    change (Js.split sep (String c (a +:+ String sep b))
            = String c a :: Js.split sep b).
    cbn [Js.split]. by rewrite Hc, IH.
Qed.

(** The segments of a split string do not hold the separator. *)
Lemma split_segments (sep : ascii) (s : string) :
  Forall (λ x, noChar sep x = true) (Js.split sep s).
Proof.
  induction s as [|c s IH]; cbn [Js.split].
  - by constructor.
  - destruct (Ascii.eqb c sep) eqn:Hc; [by constructor|].
    destruct (Js.split sep s) as [|seg rest].
    + constructor; [|done]. cbn [noChar]. by rewrite Hc.
    + apply Forall_cons in IH as [Hseg Hrest].
      constructor; [|done]. cbn [noChar]. by rewrite Hc, Hseg.
Qed.


(** Joining segments that do not hold the separator and splitting the
    result gives the segments back. *)
Lemma split_join (sep : ascii) (l : list string) :
  l ≠ [] → Forall (λ x, noChar sep x = true) l →
  Js.split sep (Js.join (String sep "") l) = l.
Proof.
  induction l as [|x l IH]; [done|]. intros _ [Hx Hl]%Forall_cons.
  destruct l as [|y l].
  - by apply split_noChar.
  - change (Js.join (String sep "") (x :: y :: l))
      with (x +:+ String sep (Js.join (String sep "") (y :: l))).
    rewrite split_app by done. f_equal. by apply IH.
Qed.




Lemma join_joined (sep : string) (l : list string) :
  joined sep l (Js.join sep l).
Proof.
  induction l as [|x l IH]; [constructor|].
  destruct l as [|y l]; [constructor|].
  change (Js.join sep (x :: y :: l))
    with (x +:+ sep +:+ Js.join sep (y :: l)).
  by constructor.
Qed.

(** What is listed holds every name. *)
Lemma joined_holds (sep : string) (l : list string) (text x : string) :
  joined sep l text → x ∈ l → ∃ pre post, text = pre +:+ x +:+ post.
Proof.
  induction 1 as [|y|y z l text _ IH]; intros Hx.
  - by apply not_elem_of_nil in Hx.
  - apply list_elem_of_singleton in Hx as ->. exists "", "".
    by rewrite append_nil_r.
  - apply elem_of_cons in Hx as [->|Hx].
    + by exists "", (sep +:+ text).
    + destruct (IH Hx) as (pre & post & ->).
      exists (y +:+ sep +:+ pre), post. by rewrite !append_assoc.
Qed.





(** *** White space *)













Lemma find_Some {A} (P : A → Prop) `{!∀ x, Decision (P x)} (l : list A) x :
  Js.find P l = Some x → x ∈ l ∧ P x.
Proof.
  unfold Js.find. destruct (list_find P l) as [[i y]|] eqn:E; [|done].
  intros [= <-]. apply list_find_Some in E as (Hi & HP & _).
  split; [by eapply list_elem_of_lookup_2 | done].
Qed.

Lemma find_None {A} (P : A → Prop) `{!∀ x, Decision (P x)} (l : list A) :
  Js.find P l = None → ∀ x, x ∈ l → ¬ P x.
Proof.
  unfold Js.find. destruct (list_find P l) as [[i y]|] eqn:E; [done|].
  intros _ x Hx. apply list_find_None in E.
  by eapply (proj1 (Forall_forall _ _) E).
Qed.

Lemma find_is_Some {A} (P : A → Prop) `{!∀ x, Decision (P x)} (l : list A) x :
  x ∈ l → P x → is_Some (Js.find P l).
Proof.
  intros Hx HP. destruct (Js.find P l) eqn:E; [by eexists|].
  by destruct (find_None P l E x).
Qed.

Lemma includes_Some `{EqDecision A} (l : list A) (x : A) :
  Js.includes l (Some x) = true ↔ x ∈ l.
Proof. apply bool_decide_eq_true. Qed.

Lemma includes_true `{EqDecision A} (l : list A) (v : option A) :
  Js.includes l v = true ↔ ∃ x, v = Some x ∧ x ∈ l.
Proof.
  destruct v as [x|]; simpl.
  - rewrite bool_decide_eq_true.
    split; [by exists x | by intros (? & [= <-] & ?)].
  - split; [done | by intros (? & ? & ?)].
Qed.

(** ** The opened ADR *)

Lemma sameObjects_adrAt st st' a :
  sameObjects st st' → adrAt st' a = adrAt st a.
Proof. intros [H _]. unfold adrAt. by rewrite H. Qed.

Lemma sameObjects_repoAt st st' r :
  sameObjects st st' → repoAt st' r = repoAt st r.
Proof. intros [_ H]. unfold repoAt. by rewrite H. Qed.

Lemma sameObjects_trans st1 st2 st3 :
  sameObjects st1 st2 → sameObjects st2 st3 → sameObjects st1 st3.
Proof. intros [H1 H2] [H3 H4]. split; congruence. Qed.

Lemma updateLocalStorageRepositories_sameObjects st :
  sameObjects st (updateLocalStorageRepositories st).
Proof. by split. Qed.

Lemma openAdr_cases adr st :
  openAdr adr st = st
  ∨ ∃ a r, adr = Some a ∧ adr ≠ currentlyEditedAdr st
           ∧ isValidAdr (adrAt st a) = true
           ∧ Js.find (λ r, Js.includes (adrs (repoAt st r)) adr = true)
                     (addedRepositories st) = Some r
           ∧ openAdr adr st
             = emit (OpenAdrEvent a)
                 (set_currentlyEditedAdr (Some a)
                    (set_currentRepository (Some r) st)).
Proof.
  unfold openAdr. destruct (decide _) as [Hne|]; [|by left].
  destruct adr as [a|]; [|by left].
  destruct (Js.find _ _) as [r|] eqn:E; [|by left].
  destruct (isValidAdr (adrAt st a)) eqn:V; [|by left].
  right. by exists a, r.
Qed.

Lemma openAdr_sameData adr st : sameData st (openAdr adr st).
Proof.
  destruct (openAdr_cases adr st) as [->|(a & r & _ & _ & _ & _ & ->)];
    by repeat split.
Qed.

Lemma openAdr_ok adr st : openedAdrOk st → openedAdrOk (openAdr adr st).
Proof.
  intros Hok.
  destruct (openAdr_cases adr st) as [->|(a & r & -> & _ & V & F & ->)];
    [done|].
  intros a' [= <-]. apply find_Some in F as [Hr Ha].
  apply includes_Some in Ha. split; [done|]. by exists r.
Qed.

Lemma openAnyAdr_sameData st : sameData st (openAnyAdr st).
Proof.
  unfold openAnyAdr.
  repeat case_match; try apply openAdr_sameData; by repeat split.
Qed.

Lemma openAnyAdr_ok st : openedAdrOk st → openedAdrOk (openAnyAdr st).
Proof.
  intros Hok. unfold openAnyAdr.
  repeat case_match; try (by apply openAdr_ok); exact Hok.
Qed.

Lemma ensureSomeAdrIsOpened_sameData st :
  sameData st (ensureSomeAdrIsOpened st).
Proof.
  unfold ensureSomeAdrIsOpened. case_match; [|by repeat split].
  destruct (openAnyAdr_sameData
              (set_currentRepository None (set_currentlyEditedAdr None st)))
    as ((? & ?) & ? & ? & ?).
  by repeat split.
Qed.

(** The invariant on the opened ADR holds after
    [ensureSomeAdrIsOpened], whatever the store was. *)
Lemma ensureSomeAdrIsOpened_ok st : openedAdrOk (ensureSomeAdrIsOpened st).
Proof.
  unfold ensureSomeAdrIsOpened.
  destruct (_ || _) eqn:C.
  - apply openAnyAdr_ok. by intros a [=].
  - apply orb_false_elim in C as [C Hex].
    apply orb_false_elim in C as [_ V].
    apply negb_false_iff in V, Hex.
    intros a Ha. rewrite Ha in V, Hex. split; [done|].
    apply existsb_exists in Hex as (r & Hr & Hin).
    exists r. split; [by apply list_elem_of_In|by apply includes_Some].
Qed.

Lemma updateLocalStorageRepositories_ok st :
  openedAdrOk st → openedAdrOk (updateLocalStorageRepositories st).
Proof. done. Qed.

Lemma addRepositories_ok repoList st :
  openedAdrOk st → openedAdrOk (snd (addRepositories repoList st)).
Proof.
  intros Hok. unfold addRepositories. case_match; [done|].
  apply ensureSomeAdrIsOpened_ok.
Qed.

Lemma removeRepository_ok repoToRemove st :
  openedAdrOk (removeRepository repoToRemove st).
Proof.
  apply updateLocalStorageRepositories_ok, ensureSomeAdrIsOpened_ok.
Qed.

Lemma deleteAdr_ok adr repo st : openedAdrOk (deleteAdr adr repo st).
Proof.
  apply updateLocalStorageRepositories_ok, ensureSomeAdrIsOpened_ok.
Qed.

(** ** openAdr *)

(** C9: [openAdr adr] does nothing when [adr] is the opened ADR.  When
    it is not, and [adr] is a valid ADR in [adrs] of some added
    repository, then [currentRepository] becomes such a repository (the
    first one in [addedRepositories] that holds it), [currentlyEditedAdr]
    becomes [adr], the event open-adr is emitted with [adr], and nothing
    else changes; in every other case the store is unchanged, and so no
    event is emitted. *)
Theorem openAdr_spec (adr : option nat) (st : Store) :
  (adr = currentlyEditedAdr st → openAdr adr st = st)
  ∧ (adr ≠ currentlyEditedAdr st →
     ∀ a, adr = Some a → isValidAdr (adrAt st a) = true →
          (∃ r, r ∈ addedRepositories st ∧ a ∈ adrs (repoAt st r)) →
     ∃ r, r ∈ addedRepositories st ∧ a ∈ adrs (repoAt st r)
          ∧ currentRepository (openAdr adr st) = Some r
          ∧ currentlyEditedAdr (openAdr adr st) = Some a
          ∧ emitted (openAdr adr st) = emitted st ++ [OpenAdrEvent a]
          ∧ sameData st (openAdr adr st))
  ∧ (adr ≠ currentlyEditedAdr st →
     ¬ (∃ a, adr = Some a ∧ isValidAdr (adrAt st a) = true
             ∧ ∃ r, r ∈ addedRepositories st ∧ a ∈ adrs (repoAt st r)) →
     openAdr adr st = st).
Proof.
  split; [|split].
  - intros ->. unfold openAdr. by rewrite decide_False by auto.
  - intros Hne a -> V (r0 & Hr0 & Ha0).
    unfold openAdr. rewrite decide_True by done.
    destruct (find_is_Some
                (λ r, Js.includes (adrs (repoAt st r)) (Some a) = true)
                (addedRepositories st) r0 Hr0) as [r F];
      [by apply includes_Some|].
    rewrite F, V. apply find_Some in F as [Hr Ha].
    apply includes_Some in Ha. exists r. by repeat split.
  - intros Hne Hno.
    destruct (openAdr_cases adr st) as [->|(a & r & -> & _ & V & F & _)];
      [done|].
    destruct Hno. exists a. apply find_Some in F as [Hr Ha].
    apply includes_Some in Ha. repeat split; [done|]. by exists r.
Qed.

(** In [store1] no ADR but [0] is opened: opening ADR [1] moves the
    pointers and emits the event; opening ADR [7], which no repository
    holds, changes nothing. *)
Lemma openAdr_spec_witness :
  openAdr (Some 0%nat) Examples.store1 = Examples.store1
  ∧ (∃ r, r ∈ addedRepositories Examples.store1
          ∧ 1%nat ∈ adrs (repoAt Examples.store1 r)
          ∧ currentRepository (openAdr (Some 1%nat) Examples.store1) = Some r
          ∧ currentlyEditedAdr (openAdr (Some 1%nat) Examples.store1)
            = Some 1%nat
          ∧ emitted (openAdr (Some 1%nat) Examples.store1)
            = emitted Examples.store1 ++ [OpenAdrEvent 1%nat]
          ∧ sameData Examples.store1 (openAdr (Some 1%nat) Examples.store1))
  ∧ openAdr (Some 7%nat) Examples.store1 = Examples.store1.
Proof.
  split; [|split].
  - apply (proj1 (openAdr_spec (Some 0%nat) Examples.store1)). reflexivity.
  - apply (proj1 (proj2 (openAdr_spec (Some 1%nat) Examples.store1)));
      [discriminate | reflexivity | reflexivity |].
    exists 0%nat. split; [by apply list_elem_of_here|].
    vm_compute. apply list_elem_of_further, list_elem_of_here.
  - apply (proj2 (proj2 (openAdr_spec (Some 7%nat) Examples.store1)));
      [discriminate|].
    intros (a & [= <-] & V & _). vm_compute in V. discriminate.
Defined.

(** ** addRepositories *)

Lemma filter_length_pos {A} (P : A → Prop) `{!∀ x, Decision (P x)}
    (l : list A) :
  (0 <? length (filter P l))%nat = true ↔ ∃ x, x ∈ l ∧ P x.
Proof.
  rewrite Nat.ltb_lt. split.
  - destruct (filter P l) as [|x l'] eqn:E; simpl; [lia|]. intros _.
    assert (Hin : x ∈ filter P l) by (rewrite E; apply list_elem_of_here).
    apply list_elem_of_filter in Hin as [HP Hx]. by exists x.
  - intros (x & Hx & HP).
    assert (Hin : x ∈ filter P l) by by apply list_elem_of_filter.
    destruct (filter P l); [by apply not_elem_of_nil in Hin|simpl; lia].
Qed.

(** C2: when a repository of the input list has the full name of an
    added repository, [addRepositories] throws, the message lists the
    full names of exactly the colliding input repositories (in input
    order, with a comma and a space between two of them, after the
    fixed words), so that every colliding name is in it, and the store,
    hence [addedRepositories], is unchanged; otherwise it returns and
    [addedRepositories] is the old list followed by the input list. *)
Theorem addRepositories_spec (repoList : list nat) (st : Store) :
  let collides := λ r,
    ∃ r', r' ∈ addedRepositories st
          ∧ fullName (repoAt st r) = fullName (repoAt st r') in
  ((∃ r, r ∈ repoList ∧ collides r) →
   ∃ names text,
     addRepositories repoList st
     = (Throws (Thrown
          ("I won't add an already added repository to the store! "
             +:+ text)), st)
     ∧ joined ", " names text
     ∧ (∀ n, n ∈ names → ∃ pre post, text = pre +:+ n +:+ post)
     ∧ (∀ n, n ∈ names
             ↔ ∃ r, r ∈ repoList ∧ collides r ∧ fullName (repoAt st r) = n)
     ∧ names
       = (fullName ∘ repoAt st)
           <$> filter (λ r, fullName (repoAt st r)
                              ∈ (fullName ∘ repoAt st)
                                  <$> addedRepositories st)
                      repoList
     ∧ text = Js.join ", " names)
  ∧ ((¬ ∃ r, r ∈ repoList ∧ collides r) →
     fst (addRepositories repoList st) = Returns tt
     ∧ addedRepositories (snd (addRepositories repoList st))
       = addedRepositories st ++ repoList).
Proof.
  intros collides.
  assert (Hcol : ∀ r, collides r
                      ↔ fullName (repoAt st r)
                          ∈ (fullName ∘ repoAt st) <$> addedRepositories st).
  { intros r. unfold collides. rewrite list_elem_of_fmap. simpl.
    split; intros (r' & H1 & H2); exists r'; by split. }
  unfold addRepositories.
  set (already := filter _ repoList).
  assert (Hpos : (0 <? length already)%nat = true
                 ↔ ∃ r, r ∈ repoList ∧ collides r).
  { unfold already. rewrite filter_length_pos.
    split; intros (r & Hr & Hc); exists r; split; auto; by apply Hcol. }
  split.
  - intros Hex. apply Hpos in Hex. rewrite Hex.
    exists ((fullName ∘ repoAt st) <$> already),
      (Js.join ", " ((fullName ∘ repoAt st) <$> already)).
    split; [done|]. split; [apply join_joined|].
    split; [intros n Hn; by eapply joined_holds; [apply join_joined|]|].
    split; [|done].
    intros n. rewrite list_elem_of_fmap. unfold already. simpl.
    split.
    + intros (r & -> & Hr). apply list_elem_of_filter in Hr as [Hc Hr].
      exists r. repeat split; [done|by apply Hcol].
    + intros (r & Hr & Hc & <-). exists r. split; [done|].
      apply list_elem_of_filter. split; [by apply Hcol|done].
  - intros Hno. destruct (0 <? length already)%nat eqn:E.
    { destruct Hno. by apply Hpos. }
    split; [done|]. simpl.
    by destruct (ensureSomeAdrIsOpened_sameData
                  (updateLocalStorageRepositories
                     (set_addedRepositories
                        (addedRepositories st ++ repoList) st)))
      as (_ & -> & _).
Qed.

(** With the repositories [0] (owner/repo) and [2] (owner/other) added,
    adding the repositories [1] (owner/repo), [2] and [1] throws and
    names the three; adding repository [2] alone to [store1] appends
    it. *)
Lemma addRepositories_spec_witness :
  addRepositories [1; 2; 1]%nat
    (set_addedRepositories [0; 2]%nat Examples.store1)
  = (Throws (Thrown
       "I won't add an already added repository to the store! owner/repo, owner/other, owner/repo"),
     set_addedRepositories [0; 2]%nat Examples.store1)
  ∧ fst (addRepositories [2%nat] Examples.store1) = Returns tt
  ∧ addedRepositories (snd (addRepositories [2%nat] Examples.store1))
    = [0; 2]%nat.
Proof.
  split.
  - destruct (proj1 (addRepositories_spec [1; 2; 1]%nat
                       (set_addedRepositories [0; 2]%nat Examples.store1)))
      as (names & text & Heq & _ & _ & _ & -> & ->).
    { exists 1%nat. split; [apply list_elem_of_here|].
      exists 0%nat. split; [apply list_elem_of_here|reflexivity]. }
    rewrite Heq. reflexivity.
  - apply (proj2 (addRepositories_spec [2%nat] Examples.store1)).
    intros (r & Hr & r' & Hr' & Hn).
    apply list_elem_of_singleton in Hr as ->.
    apply list_elem_of_singleton in Hr' as ->.
    vm_compute in Hn. discriminate.
Defined.

Example addRepositories_message :
  addRepositories [1; 2; 1]%nat Examples.store1
  = (Throws (Thrown
       "I won't add an already added repository to the store! owner/repo, owner/repo"),
     Examples.store1).
Proof. reflexivity. Qed.

(** ** The invariant on the opened ADR *)

(** C1: the store keeps [currentlyEditedAdr] valid and reachable after
    [addRepositories], [removeRepository] and [deleteAdr], which end in
    [ensureSomeAdrIsOpened]; [updateRepository] does not.  In [store1]
    ADR [0] of repository [0] is opened and the invariant holds;
    repository [1] has the same full name and no ADR.  After
    [updateRepository 1], which returns, [currentlyEditedAdr] is still
    ADR [0], the only added repository is [1], and ADR [0] is in no
    added repository. *)
Theorem updateRepository_orphans_opened_adr :
  openedAdrOk Examples.store1
  ∧ fst (updateRepository 1%nat Examples.store1) = Returns tt
  ∧ addedRepositories (snd (updateRepository 1%nat Examples.store1))
    = [1%nat]
  ∧ currentlyEditedAdr (snd (updateRepository 1%nat Examples.store1))
    = Some 0%nat
  ∧ ¬ openedAdrOk (snd (updateRepository 1%nat Examples.store1)).
Proof.
  split; [|split; [|split; [|split]]]; try reflexivity.
  - intros a [= <-]. split; [reflexivity|].
    exists 0%nat. split; [apply list_elem_of_here|].
    vm_compute. apply list_elem_of_here.
  - intros Hok. destruct (Hok 0%nat eq_refl) as (_ & r & Hr & Ha).
    vm_compute in Hr. apply list_elem_of_singleton in Hr as ->.
    vm_compute in Ha. by apply not_elem_of_nil in Ha.
Qed.

(** ** deleteAdr *)

Lemma findIndex_elem `{EqDecision A} (x : A) (l : list A) :
  x ∈ l →
  ∃ i, l !! i = Some x ∧ (∀ j, (j < i)%nat → l !! j ≠ Some x)
       ∧ Js.findIndex (λ y, y = x) l = Z.of_nat i.
Proof.
  intros Hx. unfold Js.findIndex.
  destruct (list_find (λ y, y = x) l) as [[i y]|] eqn:E.
  - apply list_find_Some in E as (Hi & -> & Hbefore).
    exists i. repeat split; [done|].
    intros j Hj Hl. by apply (Hbefore j x).
  - apply list_find_None in E.
    by destruct (proj1 (Forall_forall _ _) E x Hx).
Qed.

Lemma findIndex_not_elem `{EqDecision A} (x : A) (l : list A) :
  x ∉ l → Js.findIndex (λ y, y = x) l = -1.
Proof.
  intros Hx. unfold Js.findIndex.
  destruct (list_find (λ y, y = x) l) as [[i y]|] eqn:E; [|done].
  apply list_find_Some in E as (Hi & -> & _).
  destruct Hx. by eapply list_elem_of_lookup_2.
Qed.

Lemma splice1_at {A} (l : list A) (i : nat) (x : A) :
  l !! i = Some x → Js.splice1 (Z.of_nat i) l = (delete i l, [x]).
Proof.
  intros Hi. pose proof (lookup_lt_Some _ _ _ Hi) as Hlt.
  unfold Js.splice1, Js.spliceStart.
  replace (Z.of_nat i <? 0) with false by (symmetry; apply Z.ltb_ge; lia).
  rewrite Z.min_l, Nat2Z.id by lia.
  rewrite <- delete_take_drop. f_equal.
  by rewrite (drop_S _ _ _ Hi).
Qed.

Lemma splice1_last {A} (l : list A) (x : A) :
  Js.splice1 (-1) (l ++ [x]) = (l, [x]).
Proof.
  assert (Hk : Js.spliceStart (-1) (l ++ [x]) = length l).
  { unfold Js.spliceStart. change (-1 <? 0) with true. cbv iota.
    rewrite length_app. simpl length. lia. }
  unfold Js.splice1. rewrite Hk.
  rewrite take_app_length, drop_app_length.
  rewrite (drop_ge (l ++ [x])) by (rewrite length_app; simpl; lia).
  by rewrite app_nil_r.
Qed.

Lemma splice1_nil {A} (start : Z) : Js.splice1 start (@nil A) = ([], []).
Proof.
  unfold Js.splice1, Js.spliceStart. by rewrite take_nil, !drop_nil.
Qed.

Lemma NoDup_delete_lookup {A} (l : list A) (i : nat) (x : A) :
  NoDup l → l !! i = Some x → x ∉ delete i l.
Proof.
  intros Hnd Hi. rewrite <- (take_drop_middle l i x Hi) in Hnd.
  apply NoDup_app in Hnd as (_ & Hdisj & Hnd').
  apply NoDup_cons in Hnd' as [Hx _].
  rewrite delete_take_drop. intros [Hin|Hin]%elem_of_app; [|done].
  apply (Hdisj x Hin). apply list_elem_of_here.
Qed.

(** The repository object after [deleteAdr], as the code computes it. *)
Lemma deleteAdr_repoAt adr repo st :
  let R := repoAt st repo in
  let adrIndexAdr := Js.findIndex (λ adrEl, adrEl = adr) (adrs R) in
  let adrIndexNewAdr := Js.findIndex (λ adrEl, adrEl = adr) (addedAdrs R) in
  let deleted := default [] (deletedAdrs R) in
  repoAt (deleteAdr adr repo st) repo
  = if 0 <=? adrIndexNewAdr then
      {| fullName := fullName R; activeBranch := activeBranch R;
         branches := branches R;
         adrs := fst (Js.splice1 adrIndexAdr (adrs R));
         addedAdrs := fst (Js.splice1 adrIndexNewAdr (addedAdrs R));
         deletedAdrs := Some deleted |}
    else
      {| fullName := fullName R; activeBranch := activeBranch R;
         branches := branches R;
         adrs := fst (Js.splice1 adrIndexAdr (adrs R));
         addedAdrs := addedAdrs R;
         deletedAdrs :=
           Some (deleted ++ [snd (Js.splice1 adrIndexAdr (adrs R)) !! 0%nat])
      |}.
Proof.
  intros R iA iN deleted. unfold deleteAdr.
  fold R. fold iA. fold iN. fold deleted.
  set (R2 := if 0 <=? iN then _ else _).
  rewrite (sameObjects_repoAt (writeRepo repo R2 st)).
  - unfold repoAt, writeRepo. simpl. rewrite lookup_insert_eq. simpl.
    subst R2. destruct (0 <=? iN); reflexivity.
  - eapply sameObjects_trans;
      [apply ensureSomeAdrIsOpened_sameData
      |apply updateLocalStorageRepositories_sameObjects].
Qed.

(** C3: for [adr] in [repo.adrs], [deleteAdr adr repo] removes the first
    occurrence of [adr] from [repo.adrs] (so [adr] is gone when the list
    has no duplicates).  If [adr] is in [repo.addedAdrs], its first
    occurrence is removed from [addedAdrs] as well and [deletedAdrs] is
    what it was (the empty array when it was missing): [adr] is not
    added to it.  If [adr] is not in [addedAdrs], then [addedAdrs] is
    unchanged and [adr] is appended to [deletedAdrs]. *)
Theorem deleteAdr_member (adr repo : nat) (st : Store) :
  let R := repoAt st repo in
  let R' := repoAt (deleteAdr adr repo st) repo in
  adr ∈ adrs R →
  (∃ i, adrs R !! i = Some adr
        ∧ (∀ j, (j < i)%nat → adrs R !! j ≠ Some adr)
        ∧ adrs R' = delete i (adrs R))
  ∧ (NoDup (adrs R) → adr ∉ adrs R')
  ∧ (adr ∈ addedAdrs R →
     (∃ k, addedAdrs R !! k = Some adr
           ∧ (∀ j, (j < k)%nat → addedAdrs R !! j ≠ Some adr)
           ∧ addedAdrs R' = delete k (addedAdrs R))
     ∧ (NoDup (addedAdrs R) → adr ∉ addedAdrs R')
     ∧ deletedAdrs R' = Some (default [] (deletedAdrs R)))
  ∧ (adr ∉ addedAdrs R →
     addedAdrs R' = addedAdrs R
     ∧ deletedAdrs R'
       = Some (default [] (deletedAdrs R) ++ [Some adr])).
Proof.
  intros R R' Hin. unfold R'. rewrite deleteAdr_repoAt. fold R.
  destruct (findIndex_elem adr (adrs R) Hin) as (i & Hi & Hfirst & ->).
  rewrite (splice1_at _ _ _ Hi).
  destruct (decide (adr ∈ addedAdrs R)) as [Hadded|Hnot].
  - destruct (findIndex_elem adr (addedAdrs R) Hadded)
      as (k & Hk & Hkfirst & ->).
    replace (0 <=? Z.of_nat k) with true by (symmetry; apply Z.leb_le; lia).
    rewrite (splice1_at _ _ _ Hk). simpl.
    split; [by exists i|].
    split; [intros Hnd; by apply NoDup_delete_lookup|].
    split; [|done]. intros _.
    split; [by exists k|].
    split; [intros Hnd; by apply NoDup_delete_lookup|done].
  - rewrite (findIndex_not_elem adr (addedAdrs R) Hnot).
    change (0 <=? -1) with false. simpl.
    split; [by exists i|].
    split; [intros Hnd; by apply NoDup_delete_lookup|].
    split; [done|]. by intros _.
Qed.

(** In [store1] ADR [2] is in [adrs] and in [addedAdrs] of repository
    [0], ADR [1] is in [adrs] only. *)
Lemma deleteAdr_member_witness :
  (let R' := repoAt (deleteAdr 2%nat 0%nat Examples.store1) 0%nat in
   adrs R' = [0; 1]%nat ∧ addedAdrs R' = [] ∧ deletedAdrs R' = Some [])
  ∧ (let R' := repoAt (deleteAdr 1%nat 0%nat Examples.store1) 0%nat in
     adrs R' = [0; 2]%nat ∧ addedAdrs R' = [2%nat]
     ∧ deletedAdrs R' = Some [Some 1%nat]).
Proof.
  split.
  - destruct (deleteAdr_member 2%nat 0%nat Examples.store1)
      as (_ & _ & Hadded & _).
    { vm_compute. do 2 apply list_elem_of_further. apply list_elem_of_here. }
    destruct Hadded as (_ & _ & Hdel).
    { vm_compute. apply list_elem_of_here. }
    split; [reflexivity|]. split; [reflexivity|exact Hdel].
  - destruct (deleteAdr_member 1%nat 0%nat Examples.store1)
      as (_ & _ & _ & Hpub).
    { vm_compute. apply list_elem_of_further, list_elem_of_here. }
    destruct Hpub as [Hadd Hdel].
    { vm_compute. intros H. apply list_elem_of_singleton in H. discriminate. }
    split; [reflexivity|]. split; [exact Hadd|exact Hdel].
Defined.

(** C10: when [repo.adrs] is not empty and [adr] is neither in
    [repo.adrs] nor in [repo.addedAdrs], [deleteAdr adr repo] removes the
    last element of [repo.adrs] and appends that element, which is not
    [adr], to [repo.deletedAdrs]: [findIndex] answers [-1], and
    [splice(-1, 1)] takes the last element. *)
Theorem deleteAdr_not_member (adr repo : nat) (st : Store) :
  let R := repoAt st repo in
  let R' := repoAt (deleteAdr adr repo st) repo in
  adrs R ≠ [] → adr ∉ adrs R → adr ∉ addedAdrs R →
  Js.findIndex (λ adrEl, adrEl = adr) (adrs R) = -1
  ∧ ∃ l x, adrs R = l ++ [x]
           ∧ x ≠ adr
           ∧ adrs R' = l
           ∧ addedAdrs R' = addedAdrs R
           ∧ deletedAdrs R' = Some (default [] (deletedAdrs R) ++ [Some x]).
Proof.
  intros R R' Hne Hnot Hnotadded.
  split; [by apply findIndex_not_elem|].
  unfold R'. rewrite deleteAdr_repoAt. fold R.
  rewrite (findIndex_not_elem adr (adrs R) Hnot).
  rewrite (findIndex_not_elem adr (addedAdrs R) Hnotadded).
  change (0 <=? -1) with false. cbv iota.
  destruct (exists_last Hne) as (l & x & E).
  exists l, x. rewrite E, splice1_last. simpl.
  split; [done|]. split; [|done].
  intros ->. apply Hnot. rewrite E. apply elem_of_app. right.
  apply list_elem_of_here.
Qed.

(** No repository of [store1] holds ADR [9]: deleting it from
    repository [0] takes away ADR [2], the last of [adrs]. *)
Lemma deleteAdr_not_member_witness :
  let R' := repoAt (deleteAdr 9%nat 0%nat Examples.store1) 0%nat in
  adrs R' = [0; 1]%nat ∧ addedAdrs R' = [2%nat]
  ∧ deletedAdrs R' = Some [Some 2%nat].
Proof.
  destruct (deleteAdr_not_member 9%nat 0%nat Examples.store1)
    as (_ & l & x & E & _ & Hadrs & Hadd & Hdel).
  - vm_compute. discriminate.
  - vm_compute. intros H. apply list_elem_of_In in H. simpl in H.
    intuition discriminate.
  - vm_compute. intros H. apply list_elem_of_singleton in H. discriminate.
  - repeat split; reflexivity.
Defined.

(** ** createNewAdr *)

(** [Math.max(...ids, -1)] when every ADR has an integer as [id]: the
    greatest of them, or [-1]. *)
Lemma maxId_integers (ids : list (option Js.number)) :
  (∀ v, v ∈ ids → ∃ z, v = Some (Js.Num z)) →
  ∃ m, maxId ids = Js.Num m
       ∧ -1 ≤ m
       ∧ (∀ z, Some (Js.Num z) ∈ ids → z ≤ m)
       ∧ (m = -1 ∨ Some (Js.Num m) ∈ ids).
Proof.
  unfold maxId. induction ids as [|v ids IH]; intros Hall.
  - exists (-1). split; [done|]. split; [lia|]. split; [|by left].
    intros z Hz. by apply not_elem_of_nil in Hz.
  - destruct IH as (m & Hm & Hlow & Hup & Hmem).
    { intros w Hw. by apply Hall, list_elem_of_further. }
    destruct (Hall v) as [z ->]; [apply list_elem_of_here|].
    cbn [foldr]. rewrite Hm. cbn [Js.toNumber default Js.max2].
    exists (Z.max z m). split; [done|]. split; [lia|]. split.
    + intros y [[= ->]|Hy]%elem_of_cons; [lia|].
      specialize (Hup y Hy). lia.
    + destruct (Z.max_spec z m) as [[_ ->]|[_ ->]].
      * destruct Hmem as [Hmem|Hmem]; [by left|].
        right. by apply list_elem_of_further.
      * right. apply list_elem_of_here.
Qed.

(** [NaN] spreads: an ADR without [id], or with [NaN] as [id], makes
    the greatest id [NaN]. *)
Lemma maxId_NaN (ids : list (option Js.number)) (v : option Js.number) :
  v ∈ ids → Js.toNumber v = Js.NaN → maxId ids = Js.NaN.
Proof.
  unfold maxId. induction ids as [|w ids IH]; intros Hv Hnan.
  - by apply not_elem_of_nil in Hv.
  - cbn [foldr]. apply elem_of_cons in Hv as [<-|Hv].
    + by rewrite Hnan.
    + rewrite (IH Hv Hnan). by destruct (Js.toNumber w).
Qed.

(** Adding one is exact below [2^53]. *)
Lemma add1_exact (z : Z) :
  -1 ≤ z < 2 ^ 53 → Js.add1 (Js.Num z) = Js.Num (z + 1).
Proof.
  intros Hz. unfold Js.add1.
  change (2 ^ 53) with 9007199254740992 in *.
  rewrite (proj2 (Z.leb_le _ _)) by lia.
  rewrite (proj2 (Z.ltb_lt _ _)) by lia. done.
Qed.

Section NewAdr.

Variable templateTitle : string.
Variable templateMd : string.


End NewAdr.



(** ** updateMdOfCurrentAdr *)

Section Rename.

Variable sanitize : string → string.
Variable naturalCase2snakeCase : string → string.

(** The ways [updateMdOfCurrentAdr] goes when an ADR is opened. *)
Lemma updateMdOfCurrentAdr_cases (md : string) (cur : nat) (st : Store) :
  currentlyEditedAdr st = Some cur →
  let o1 := set_editedMd (Some md) (adrAt st cur) in
  let st1 := writeAdr cur o1 st in
  updateMdOfCurrentAdr sanitize naturalCase2snakeCase md st
  = if match currentRepository st with
       | Some r => Js.includes (addedAdrs (repoAt st r)) (Some cur)
       | None => false
       end
    then
      match path (adrAt st cur), Js.split "010" md !! 0%nat,
            id (adrAt st cur) with
      | Some p, Some line, Some n =>
          let name :=
            sanitize
              (Js.padStart 4 "0" (Js.toString n)
                 +:+ "-"
                 +:+ naturalCase2snakeCase (Js.trim (Js.stripHashes line))
                 +:+ ".md") in
          (Returns tt,
           updateLocalStorageRepositories
             (writeAdr cur
                (set_path
                   (Some (Js.join "/"
                            (<[(length (Js.split "/" p) - 1)%nat := name]>
                               (Js.split "/" p))))
                   o1)
                st1))
      | _, _, _ => (Throws TypeError, st1)
      end
    else (Returns tt, updateLocalStorageRepositories st1).
Proof.
  intros Hcur o1 st1. unfold updateMdOfCurrentAdr. rewrite Hcur.
  fold o1. fold st1.
  assert (Ho : adrAt st1 cur = o1).
  { unfold adrAt, st1. simpl. by rewrite lookup_insert_eq. }
  rewrite Ho.
  change (currentRepository st1) with (currentRepository st).
  assert (Hr : ∀ r, repoAt st1 r = repoAt st r) by done.
  destruct (currentRepository st) as [r|]; [|done].
  rewrite Hr. done.
Qed.


End Rename.


(** ** The file listings *)

Lemma collect_Returns {A} (l : list (outcome A)) (ys : list A) :
  collect l = Returns ys ↔ l = Returns <$> ys.
Proof.
  revert ys. induction l as [|[a|e] l IH]; intros ys; simpl.
  - split; [intros [= <-]; done|]. by destruct ys.
  - destruct (collect l) as [r|e] eqn:E.
    + split.
      * intros [= <-]. simpl. f_equal. by apply IH.
      * destruct ys as [|y ys]; [done|]. intros [= -> Hl].
        apply IH in Hl. by injection Hl as ->.
    + split; [done|]. destruct ys as [|y ys]; [done|]. intros [= -> Hl].
      by apply IH in Hl.
  - split; [done|]. by destruct ys.
Qed.

Lemma collect_fmap_Forall2 {A B} (f : A → outcome B) (xs : list A)
    (ys : list B) :
  collect (f <$> xs) = Returns ys → Forall2 (λ x y, f x = Returns y) xs ys.
Proof.
  rewrite collect_Returns. revert ys.
  induction xs as [|x xs IH]; intros [|y ys]; simpl; try done.
  intros [= Hx Hxs]. constructor; [done|by apply IH].
Qed.

Lemma collect_fmap_is_Returns {A B} (f : A → outcome B) (xs : list A) :
  (∀ x, x ∈ xs → ∃ y, f x = Returns y) →
  ∃ ys, collect (f <$> xs) = Returns ys.
Proof.
  induction xs as [|x xs IH]; intros Hall; [by eexists|].
  rewrite fmap_cons. cbn [collect].
  destruct (Hall x) as [y ->]; [apply list_elem_of_here|].
  destruct IH as [ys ->]; [|by eexists].
  intros x' Hx'. by apply Hall, list_elem_of_further.
Qed.

(** An inner loop that pushes [f x] for the elements that pass a test. *)
Lemma forOfCollect_push {A B} (P : A → Prop) `{!∀ x, Decision (P x)}
    (f : A → outcome B) (body : A → list B → outcome (list B))
    (l : list A) (acc : list B) :
  (∀ x acc, body x acc
            = if decide (P x) then
                match f x with
                | Returns y => Returns (acc ++ [y])
                | Throws e => Throws e
                end
              else Returns acc) →
  forOfCollect l body acc
  = match collect (f <$> filter P l) with
    | Returns ys => Returns (acc ++ ys)
    | Throws e => Throws e
    end.
Proof.
  intros Hbody. revert acc.
  induction l as [|x l IH]; intros acc; simpl.
  - by rewrite app_nil_r.
  - rewrite Hbody, filter_cons. destruct (decide (P x)); simpl.
    + destruct (f x) as [y|e]; [|done]. rewrite IH.
      destruct (collect _); [|done]. by rewrite <- app_assoc.
    + apply IH.
Qed.

(** An outer loop that runs its body for the elements that pass a
    test. *)
Lemma forOfCollect_select {A B} (P : A → Prop) `{!∀ x, Decision (P x)}
    (inner : A → list B → outcome (list B)) (l : list A) (acc : list B) :
  forOfCollect l (λ x acc, if decide (P x) then inner x acc else Returns acc)
    acc
  = forOfCollect (filter P l) inner acc.
Proof.
  revert acc. induction l as [|x l IH]; intros acc; simpl; [done|].
  rewrite filter_cons. destruct (decide (P x)); simpl; [|apply IH].
  destruct (inner x acc); [apply IH|done].
Qed.

Lemma forOfCollect_one {A B} (body : A → list B → outcome (list B))
    (x : A) (acc : list B) :
  forOfCollect [x] body acc = body x acc.
Proof. simpl. by destruct (body x acc). Qed.

(** [changedFilesInRepo] for the one repository that has the name, and
    for either way of reading the key [newAdr]. *)
Lemma changedFilesInRepo_collect (repoName : string) (r : nat) (st : Store) :
  filter (λ repo, repoName = fullName (repoAt st repo)) (addedRepositories st)
  = [r] →
  changedFilesInRepo repoName st
  = collect
      ((λ a, dataStructureDataCommit (adrAt st a) "changed")
         <$> filter (λ a, Js.has (newAdr (adrAt st a)) = false
                          ∧ editedMd (adrAt st a) ≠ originalMd (adrAt st a))
                    (adrs (repoAt st r))).
Proof.
  intros Hr. unfold changedFilesInRepo.
  rewrite (forOfCollect_select
             (λ repo, repoName = fullName (repoAt st repo))).
  rewrite Hr, forOfCollect_one.
  rewrite (forOfCollect_push
             (λ a, Js.has (newAdr (adrAt st a)) = false
                   ∧ editedMd (adrAt st a) ≠ originalMd (adrAt st a))
             (λ a, dataStructureDataCommit (adrAt st a) "changed")).
  - by destruct (collect _).
  - intros a acc.
    destruct (Js.has (newAdr (adrAt st a))) eqn:Hnew; cbn [negb].
    + rewrite decide_False; [done|]. by intros [? _].
    + destruct (decide (editedMd (adrAt st a) ≠ originalMd (adrAt st a))).
      * by rewrite decide_True.
      * rewrite decide_False; [done|]. by intros [_ ?].
Qed.

Lemma dataStructureDataCommit_Returns (o : Adr) (fileType : string)
    (file : CommitFile) :
  dataStructureDataCommit o fileType = Returns file
  ↔ ∃ p, path o = Some p
         ∧ file = {| title := Js.split "/" p !! 2%nat; value := editedMd o;
                     filePath := p; fileSelected := false;
                     fileStatus := fileType |}.
Proof.
  unfold dataStructureDataCommit. destruct (path o) as [p|].
  - split; [intros [= <-]; by exists p|by intros (? & [= <-] & ->)].
  - split; [done|by intros (? & ? & _)].
Qed.

(** C5, as the code has it: for the repository that [repoName] names,
    [changedFilesInRepo] returns the ADRs of [adrs] that do not carry
    the key [newAdr] (whatever its value) and whose [editedMd] differs
    from [originalMd], in order, each as the record of its third path
    segment, its [editedMd], its path and the status "changed"; an ADR
    whose [editedMd] is its [originalMd] is not among them. *)
Theorem changedFilesInRepo_spec (repoName : string) (r : nat) (st : Store) :
  filter (λ repo, repoName = fullName (repoAt st repo)) (addedRepositories st)
  = [r] →
  changedFilesSpec (λ o, Js.has (newAdr o)) repoName r st.
Proof.
  intros Hr. unfold changedFilesSpec.
  rewrite (changedFilesInRepo_collect repoName r st Hr).
  split; [|split].
  - intros Hpath. apply collect_fmap_is_Returns. intros a Ha.
    destruct (Hpath a Ha) as [p Hp]. eexists.
    apply dataStructureDataCommit_Returns. by exists p.
  - intros files Hfiles. apply collect_fmap_Forall2 in Hfiles.
    eapply Forall2_impl; [exact Hfiles|].
    intros a file Hf. by apply dataStructureDataCommit_Returns.
  - intros a Heq Hin. apply list_elem_of_filter in Hin as [[_ Hne] _].
    by destruct Hne.
Qed.

(** In [store1] the edited ADR [1] is the one changed file: ADR [0] is
    not edited and ADR [2] carries the key [newAdr]. *)
Lemma changedFilesInRepo_spec_witness :
  changedFilesInRepo "owner/repo" Examples.store1
  = Returns [ {| title := Some "0001-y.md"; value := Some "new";
                 filePath := "docs/adr/0001-y.md"; fileSelected := false;
                 fileStatus := "changed" |} ]
  ∧ changedFilesSpec (λ o, Js.has (newAdr o)) "owner/repo" 0%nat
      Examples.store1.
Proof.
  split; [reflexivity|].
  apply (changedFilesInRepo_spec "owner/repo" 0%nat Examples.store1).
  reflexivity.
Defined.

(** C5, as the claim has it, fails on [store2]: its ADR [0] carries the
    key [newAdr] with the value false and its [editedMd] differs from
    its [originalMd].  Read as a boolean whose absence means false, the
    flag is off and the ADR is a changed file; [changedFilesInRepo]
    tests for the key and returns no file. *)
Lemma changedFilesInRepo_flag_false_counterexample :
  filter (λ repo, "owner/repo" = fullName (repoAt Examples.store2 repo))
         (addedRepositories Examples.store2) = [0%nat]
  ∧ flaggedNew (adrAt Examples.store2 0%nat) = false
  ∧ changedFilesInRepo "owner/repo" Examples.store2 = Returns []
  ∧ ¬ changedFilesSpec flaggedNew "owner/repo" 0%nat Examples.store2.
Proof.
  split; [reflexivity|]. split; [reflexivity|]. split; [reflexivity|].
  intros (_ & Hfiles & _).
  specialize (Hfiles [] eq_refl).
  apply Forall2_length in Hfiles. vm_compute in Hfiles. discriminate.
Qed.

Lemma filter_all {A} (P : A → Prop) `{!∀ x, Decision (P x)} (l : list A) :
  (∀ x, x ∈ l → P x) → filter P l = l.
Proof.
  induction l as [|x l IH]; intros HP; [done|].
  rewrite filter_cons, decide_True by apply HP, list_elem_of_here.
  rewrite IH; [done|]. intros y Hy. by apply HP, list_elem_of_further.
Qed.

Lemma newFilesInRepo_collect (repoName : string) (r : nat) (st : Store) :
  filter (λ repo, repoName = fullName (repoAt st repo)) (addedRepositories st)
  = [r] →
  newFilesInRepo repoName st
  = collect ((λ a, dataStructureDataCommit (adrAt st a) "new")
               <$> addedAdrs (repoAt st r)).
Proof.
  intros Hr. unfold newFilesInRepo.
  rewrite (forOfCollect_select
             (λ repo, repoName = fullName (repoAt st repo))).
  rewrite Hr, forOfCollect_one.
  rewrite (forOfCollect_push (λ _, True)
             (λ a, dataStructureDataCommit (adrAt st a) "new")).
  - rewrite filter_all by done. by destruct (collect _).
  - intros a acc. by rewrite decide_True.
Qed.

(** The record of a deleted file, or the [TypeError] of reading the path
    of [undefined] or of splitting a missing path. *)
Lemma deletedFilesInRepo_collect (repoName : string) (r : nat) (st : Store)
    (deleted : list (option nat)) :
  filter (λ repo, repoName = fullName (repoAt st repo)) (addedRepositories st)
  = [r] →
  deletedAdrs (repoAt st r) = Some deleted →
  deletedFilesInRepo repoName st
  = collect
      ((λ e : option nat,
          match e with
          | None => Throws TypeError
          | Some d =>
              match path (adrAt st d) with
              | None => Throws TypeError
              | Some p =>
                  Returns {| filePath := p; title := Js.split "/" p !! 2%nat;
                             value := None; fileSelected := false;
                             fileStatus := "deleted" |}
              end
          end) <$> deleted).
Proof.
  intros Hr Hdel. unfold deletedFilesInRepo.
  rewrite (forOfCollect_select
             (λ repo, repoName = fullName (repoAt st repo))).
  rewrite Hr, forOfCollect_one, Hdel.
  rewrite (forOfCollect_push (λ _, True)
             (λ e : option nat,
                match e with
                | None => Throws TypeError
                | Some d =>
                    match path (adrAt st d) with
                    | None => Throws TypeError
                    | Some p =>
                        Returns {| filePath := p;
                                   title := Js.split "/" p !! 2%nat;
                                   value := None; fileSelected := false;
                                   fileStatus := "deleted" |}
                    end
                end)).
  - rewrite filter_all by done. by destruct (collect _).
  - intros [d|] acc; rewrite decide_True by done; [|done].
    by destruct (path (adrAt st d)).
Qed.

Lemma Forall2_elem_of_r {A B} (R : A → B → Prop) (xs : list A)
    (ys : list B) (y : B) :
  Forall2 R xs ys → y ∈ ys → ∃ x, x ∈ xs ∧ R x y.
Proof.
  induction 1 as [|x y' xs ys HR _ IH]; intros Hy.
  - by apply not_elem_of_nil in Hy.
  - apply elem_of_cons in Hy as [->|Hy].
    + exists x. split; [apply list_elem_of_here|done].
    + destruct (IH Hy) as (x' & Hx' & HR'). exists x'.
      split; [by apply list_elem_of_further|done].
Qed.

Lemma NoDup_fmap_eq {A B} (f : A → B) (l : list A) (x y : A) :
  NoDup (f <$> l) → x ∈ l → y ∈ l → f x = f y → x = y.
Proof.
  induction l as [|z l IH]; intros Hnd Hx Hy Hf.
  - by apply not_elem_of_nil in Hx.
  - rewrite fmap_cons in Hnd. apply NoDup_cons in Hnd as [Hz Hnd].
    apply elem_of_cons in Hx as [->|Hx]; apply elem_of_cons in Hy as [->|Hy].
    + done.
    + destruct Hz. rewrite Hf. apply list_elem_of_fmap. by exists y.
    + destruct Hz. rewrite <- Hf. apply list_elem_of_fmap. by exists x.
    + by apply IH.
Qed.

(** C8, as the code has it: when the repository that [repoName] names
    satisfies the invariants of the data model and, besides, no entry of
    its [deletedAdrs] has the path of an ADR of its [adrs], the three
    file listings return and no path is in two of them. *)
Theorem diffSets_disjoint (repoName : string) (r : nat) (st : Store) :
  filter (λ repo, repoName = fullName (repoAt st repo)) (addedRepositories st)
  = [r] →
  repositoryOk st (repoAt st r) →
  (∀ a d deleted,
     a ∈ adrs (repoAt st r) →
     deletedAdrs (repoAt st r) = Some deleted → Some d ∈ deleted →
     path (adrAt st a) ≠ path (adrAt st d)) →
  diffSetsDisjoint repoName st.
Proof.
  intros Hr (Hvalid & Hnodup & Hsub & Hflag & deleted & Hdel & Hdelok) Hpaths.
  assert (Hhas : ∀ a, a ∈ adrs (repoAt st r) →
                      ∃ p, path (adrAt st a) = Some p).
  { intros a Ha. specialize (Hvalid a Ha). unfold isValidAdr in Hvalid.
    destruct (path (adrAt st a)) as [p|]; [by exists p|].
    by rewrite andb_false_r in Hvalid. }
  unfold diffSetsDisjoint.
  rewrite (changedFilesInRepo_collect repoName r st Hr).
  rewrite (newFilesInRepo_collect repoName r st Hr).
  rewrite (deletedFilesInRepo_collect repoName r st _ Hr Hdel).
  destruct (collect_fmap_is_Returns
              (λ a, dataStructureDataCommit (adrAt st a) "changed")
              (filter (λ a, Js.has (newAdr (adrAt st a)) = false
                            ∧ editedMd (adrAt st a) ≠ originalMd (adrAt st a))
                      (adrs (repoAt st r)))) as [c Hc].
  { intros a Ha. apply list_elem_of_filter in Ha as [_ Ha].
    destruct (Hhas a Ha) as [p Hp]. eexists.
    apply dataStructureDataCommit_Returns. by exists p. }
  destruct (collect_fmap_is_Returns
              (λ a, dataStructureDataCommit (adrAt st a) "new")
              (addedAdrs (repoAt st r))) as [n Hn].
  { intros a Ha. destruct (Hhas a (Hsub a Ha)) as [p Hp]. eexists.
    apply dataStructureDataCommit_Returns. by exists p. }
  set (g := λ e : option nat, _).
  destruct (collect_fmap_is_Returns g (Some <$> deleted)) as [d Hd].
  { intros e He. apply list_elem_of_fmap in He as (x & -> & Hx).
    destruct (Hdelok x Hx) as [Hv _]. unfold isValidAdr in Hv. unfold g.
    destruct (path (adrAt st x)) as [p|]; [by eexists|].
    by rewrite andb_false_r in Hv. }
  exists c, n, d. rewrite Hc, Hn, Hd. repeat split; try done.
  - (* changed and new *)
    intros f f' Hf Hf' Heq.
    destruct (Forall2_elem_of_r _ _ _ _ (collect_fmap_Forall2 _ _ _ Hc) Hf)
      as (a & Ha & Hfa).
    destruct (Forall2_elem_of_r _ _ _ _ (collect_fmap_Forall2 _ _ _ Hn) Hf')
      as (b & Hb & Hfb).
    apply dataStructureDataCommit_Returns in Hfa as (p & Hp & ->).
    apply dataStructureDataCommit_Returns in Hfb as (q & Hq & ->).
    simpl in Heq. subst q.
    apply list_elem_of_filter in Ha as [[Hnokey _] Ha].
    assert (a = b) as ->.
    { apply (NoDup_fmap_eq (path ∘ adrAt st) (adrs (repoAt st r)));
        [done|done|by apply Hsub|]. simpl. by rewrite Hp, Hq. }
    apply (Hflag b (Hsub b Hb)) in Hb. by rewrite Hb in Hnokey.
  - (* changed and deleted *)
    intros f f' Hf Hf' Heq.
    destruct (Forall2_elem_of_r _ _ _ _ (collect_fmap_Forall2 _ _ _ Hc) Hf)
      as (a & Ha & Hfa).
    destruct (Forall2_elem_of_r _ _ _ _ (collect_fmap_Forall2 _ _ _ Hd) Hf')
      as (e & He & Hfe).
    apply dataStructureDataCommit_Returns in Hfa as (p & Hp & ->).
    apply list_elem_of_filter in Ha as [_ Ha].
    apply list_elem_of_fmap in He as (x & -> & Hx).
    unfold g in Hfe. destruct (path (adrAt st x)) as [q|] eqn:Hq; [|done].
    injection Hfe as <-. simpl in Heq. subst q.
    apply (Hpaths a x (Some <$> deleted) Ha Hdel).
    + apply list_elem_of_fmap. by exists x.
    + by rewrite Hp, Hq.
  - (* new and deleted *)
    intros f f' Hf Hf' Heq.
    destruct (Forall2_elem_of_r _ _ _ _ (collect_fmap_Forall2 _ _ _ Hn) Hf)
      as (b & Hb & Hfb).
    destruct (Forall2_elem_of_r _ _ _ _ (collect_fmap_Forall2 _ _ _ Hd) Hf')
      as (e & He & Hfe).
    apply dataStructureDataCommit_Returns in Hfb as (p & Hp & ->).
    apply list_elem_of_fmap in He as (x & -> & Hx).
    unfold g in Hfe. destruct (path (adrAt st x)) as [q|] eqn:Hq; [|done].
    injection Hfe as <-. simpl in Heq. subst q.
    apply (Hpaths b x (Some <$> deleted) (Hsub b Hb) Hdel).
    + apply list_elem_of_fmap. by exists x.
    + by rewrite Hp, Hq.
Qed.

(** In [store5] the repository has a published, an edited and an
    unpublished ADR and a deleted one, each with a path of its own. *)
Lemma diffSets_disjoint_witness :
  changedFilesInRepo "owner/repo" Examples.store5
  = Returns [ {| title := Some "0001-y.md"; value := Some "new";
                 filePath := "docs/adr/0001-y.md"; fileSelected := false;
                 fileStatus := "changed" |} ]
  ∧ newFilesInRepo "owner/repo" Examples.store5
    = Returns [ {| title := Some "0003-a.md"; value := Some "# A";
                   filePath := "docs/adr/0003-a.md"; fileSelected := false;
                   fileStatus := "new" |} ]
  ∧ deletedFilesInRepo "owner/repo" Examples.store5
    = Returns [ {| title := Some "0002-z.md"; value := None;
                   filePath := "docs/adr/0002-z.md"; fileSelected := false;
                   fileStatus := "deleted" |} ]
  ∧ diffSetsDisjoint "owner/repo" Examples.store5.
Proof.
  split; [reflexivity|]. split; [reflexivity|]. split; [reflexivity|].
  apply (diffSets_disjoint "owner/repo" 0%nat Examples.store5).
  - reflexivity.
  - split; [|split; [|split; [|split]]].
    + intros a Ha. vm_compute in Ha. each_elem Ha; reflexivity.
    + apply (bool_decide_unpack _). vm_compute. exact I.
    + intros a Ha. vm_compute in Ha. each_elem Ha. vm_compute.
      do 2 apply list_elem_of_further. apply list_elem_of_here.
    + intros a Ha. vm_compute in Ha.
      each_elem Ha; apply (bool_decide_unpack _); vm_compute; exact I.
    + exists [3%nat]. split; [reflexivity|].
      intros d Hd. each_elem Hd. split; [reflexivity|].
      apply (bool_decide_unpack _). vm_compute. exact I.
  - intros a d deleted Ha Hdel Hd. vm_compute in Hdel.
    injection Hdel as <-. apply list_elem_of_singleton in Hd.
    injection Hd as ->.
    vm_compute in Ha. each_elem Ha; vm_compute; discriminate.
Defined.

(** C8, as the claim has it, fails on [store3], whose repository
    satisfies the invariants of the data model ([repositoryOk] and
    [namingOk]): the published ADR [0] has been deleted, and ADR [1], created after that, took its id and
    then its file name.  The path docs/adr/0000-x.md is in the listing
    of new files and in the listing of deleted files. *)
Lemma diffSets_reused_path_counterexample :
  filter (λ repo, "owner/repo" = fullName (repoAt Examples.store3 repo))
         (addedRepositories Examples.store3) = [0%nat]
  ∧ repositoryOk Examples.store3 (repoAt Examples.store3 0%nat)
  ∧ namingOk Examples.store3 (repoAt Examples.store3 0%nat)
  ∧ newFilesInRepo "owner/repo" Examples.store3
    = Returns [ {| title := Some "0000-x.md"; value := Some "# x";
                   filePath := "docs/adr/0000-x.md"; fileSelected := false;
                   fileStatus := "new" |} ]
  ∧ deletedFilesInRepo "owner/repo" Examples.store3
    = Returns [ {| title := Some "0000-x.md"; value := None;
                   filePath := "docs/adr/0000-x.md"; fileSelected := false;
                   fileStatus := "deleted" |} ]
  ∧ ¬ diffSetsDisjoint "owner/repo" Examples.store3.
Proof.
  split; [reflexivity|].
  split; [|split; [|split; [reflexivity|split; [reflexivity|]]]].
  - split; [|split; [|split; [|split]]].
    + intros a Ha. vm_compute in Ha. each_elem Ha; reflexivity.
    + apply (bool_decide_unpack _). vm_compute. exact I.
    + intros a Ha. exact Ha.
    + intros a Ha. vm_compute in Ha.
      each_elem Ha; apply (bool_decide_unpack _); vm_compute; exact I.
    + exists [0%nat]. split; [reflexivity|].
      intros d Hd. each_elem Hd. split; [reflexivity|].
      apply (bool_decide_unpack _). vm_compute. exact I.
  - split; [apply (bool_decide_unpack _); vm_compute; exact I|].
    intros a Ha. vm_compute in Ha. each_elem Ha.
    by exists 0, "docs/adr/0000-x.md", ["docs"; "adr"], "x".
  - intros (c & n & d & _ & Hn & Hd & _ & _ & Hnd).
    vm_compute in Hn, Hd. injection Hn as <-. injection Hd as <-.
    apply (Hnd _ _ (list_elem_of_here _ _) (list_elem_of_here _ _)).
    reflexivity.
Qed.

(** [store3] is what the store's operations make of [store0]: delete the
    published ADR, create a new ADR (it gets the id 0 again), open it
    and give it the title of the deleted one. *)
Example store3_reached :
  let st1 := deleteAdr 0%nat 0%nat Examples.store0 in
  let created := createNewAdr "" "" 0%nat st1 in
  let st2 := openAdr (fst created) (snd created) in
  let st3 :=
    snd (updateMdOfCurrentAdr Collaborators.sanitize
           Collaborators.naturalCase2snakeCase "# x" st2) in
  fst created = Some 1%nat
  ∧ adrObjs st3 = adrObjs Examples.store3
  ∧ repoObjs st3 = repoObjs Examples.store3
  ∧ addedRepositories st3 = addedRepositories Examples.store3
  ∧ currentRepository st3 = currentRepository Examples.store3
  ∧ currentlyEditedAdr st3 = currentlyEditedAdr Examples.store3.
Proof. vm_compute. repeat split. Qed.

(** ** updateLocalStorageAfterCommit *)

Lemma splice1_length {A} (start : Z) (l : list A) :
  (length (fst (Js.splice1 start l)) ≤ length l)%nat.
Proof.
  unfold Js.splice1. simpl. rewrite length_app, length_take, length_drop.
  generalize (Js.spliceStart start l). intros k. lia.
Qed.

(** The rounds that [spliceWhileIterating] is given are enough: with
    more of them the loop ends in the same way. *)
Lemma spliceWhileIterating_fuel {A} `{EqDecision A}
    (matches : A → outcome bool) (fuel fuel' i : nat) (arr : list A) :
  (length arr ≤ fuel + i)%nat → (fuel ≤ fuel')%nat →
  spliceWhileIterating matches fuel' i arr
  = spliceWhileIterating matches fuel i arr.
Proof.
  revert fuel' i arr.
  induction fuel as [|fuel IH]; intros fuel' i arr Hlen Hle.
  - assert (Hnone : arr !! i = None) by (apply lookup_ge_None; lia).
    destruct fuel'; cbn [spliceWhileIterating]; [done|]. by rewrite Hnone.
  - destruct fuel' as [|fuel']; [lia|]. cbn [spliceWhileIterating].
    destruct (arr !! i) as [e|]; [|done].
    destruct (matches e) as [[]|]; [| |done].
    + apply IH; [|lia].
      pose proof (splice1_length (Js.findIndex (λ y, y = e) arr) arr). lia.
    + apply IH; lia.
Qed.

Lemma findIndex_NoDup `{EqDecision A} (arr : list A) (i : nat) (e : A) :
  NoDup arr → arr !! i = Some e →
  Js.findIndex (λ y, y = e) arr = Z.of_nat i.
Proof.
  intros Hnd Hi.
  destruct (findIndex_elem e arr) as (k & Hk & _ & ->);
    [by eapply list_elem_of_lookup_2|].
  by rewrite (NoDup_lookup arr k i e Hnd Hk Hi).
Qed.

Lemma NoDup_delete {A} (l : list A) (i : nat) : NoDup l → NoDup (delete i l).
Proof.
  intros Hnd. exact (sublist_NoDup _ _ Hnd (sublist_delete l i)).
Qed.

(** The loop that removes while it iterates, on an array without
    duplicates: the part before the iterator's index stays, the rest is
    what [keepAfterRemoval] leaves. *)
Lemma spliceWhileIterating_keepAfterRemoval `{EqDecision A}
    (matches : A → outcome bool) (p : A → bool) (fuel i : nat)
    (arr : list A) :
  (∀ e, e ∈ arr → matches e = Returns (p e)) →
  NoDup arr → (length arr ≤ fuel + i)%nat →
  spliceWhileIterating matches fuel i arr
  = (Returns tt, take i arr ++ keepAfterRemoval p (drop i arr)).
Proof.
  revert i arr.
  induction fuel as [|fuel IH]; intros i arr Hm Hnd Hlen.
  - cbn [spliceWhileIterating].
    by rewrite take_ge, drop_ge, app_nil_r by lia.
  - cbn [spliceWhileIterating]. destruct (arr !! i) as [e|] eqn:Hi.
    + rewrite (Hm e) by (by eapply list_elem_of_lookup_2).
      rewrite (drop_S _ _ _ Hi). cbn [keepAfterRemoval].
      destruct (p e).
      * rewrite (findIndex_NoDup arr i e Hnd Hi), (splice1_at _ _ _ Hi).
        cbn [fst]. pose proof (lookup_lt_Some _ _ _ Hi) as Hlt.
        rewrite IH.
        -- f_equal. rewrite delete_take_drop.
           assert (Hti : length (take i arr) = i)
             by (rewrite length_take; lia).
           destruct (drop (S i) arr) as [|y l'] eqn:Hd.
           ++ rewrite app_nil_r, take_ge, drop_ge by lia.
              by rewrite app_nil_r.
           ++ rewrite take_app_ge, drop_app_ge by lia. rewrite Hti.
              replace (S i - i)%nat with 1%nat by lia. simpl.
              by rewrite drop_0, <- app_assoc.
        -- intros x Hx. apply Hm. by eapply list_elem_of_delete_inv.
        -- by apply NoDup_delete.
        -- rewrite length_delete by eauto. lia.
      * rewrite IH by (done || lia).
        f_equal. rewrite (take_S_r _ _ _ Hi). by rewrite <- app_assoc.
    + apply lookup_ge_None in Hi.
      by rewrite take_ge, drop_ge, app_nil_r by lia.
Qed.

Lemma keepAfterRemoval_fmap {A B} (f : A → B) (p : B → bool) (l : list A) :
  keepAfterRemoval p (f <$> l) = f <$> keepAfterRemoval (p ∘ f) l.
Proof.
  cut (keepAfterRemoval p (f <$> l) = f <$> keepAfterRemoval (p ∘ f) l
       ∧ ∀ x, keepAfterRemoval p (f <$> x :: l)
              = f <$> keepAfterRemoval (p ∘ f) (x :: l)).
  { by intros [H _]. }
  induction l as [|y l [IH1 IH2]].
  - split; [done|]. intros x. simpl. by destruct (p (f x)).
  - split; [apply IH2|]. intros x.
    change (keepAfterRemoval p (f <$> x :: y :: l))
      with (if p (f x) then f y :: keepAfterRemoval p (f <$> l)
            else f x :: keepAfterRemoval p (f <$> y :: l)).
    change (keepAfterRemoval (p ∘ f) (x :: y :: l))
      with (if p (f x) then y :: keepAfterRemoval (p ∘ f) l
            else x :: keepAfterRemoval (p ∘ f) (y :: l)).
    destruct (p (f x)); [rewrite IH1|rewrite IH2]; reflexivity.
Qed.

Lemma keepAfterRemoval_none {A} (p : A → bool) (l : list A) :
  (∀ x, x ∈ l → p x = false) → keepAfterRemoval p l = l.
Proof.
  induction l as [|x l IH]; intros Hp; [done|]. cbn [keepAfterRemoval].
  rewrite (Hp x) by apply list_elem_of_here.
  rewrite IH; [done|]. intros y Hy. by apply Hp, list_elem_of_further.
Qed.

(** When at most one element passes the test, the loop removes it: all
    elements that pass the test are gone. *)
Lemma keepAfterRemoval_unique {A} (p : A → bool) (l : list A) :
  NoDup l →
  (∀ x y, x ∈ l → y ∈ l → p x = true → p y = true → x = y) →
  keepAfterRemoval p l = filter (λ x, p x = false) l.
Proof.
  induction l as [|x l IH]; intros Hnd Huniq; [done|].
  apply NoDup_cons in Hnd as [Hx Hnd].
  cbn [keepAfterRemoval]. rewrite filter_cons. destruct (p x) eqn:Hpx.
  - rewrite decide_False by done.
    assert (Hrest : ∀ y, y ∈ l → p y = false).
    { intros y Hy. destruct (p y) eqn:Hpy; [|done].
      destruct Hx.
      rewrite (Huniq x y (list_elem_of_here _ _)
                 (list_elem_of_further _ _ _ Hy) Hpx Hpy).
      done. }
    rewrite filter_all by exact Hrest.
    destruct l as [|y l']; [done|].
    rewrite keepAfterRemoval_none; [done|].
    intros z Hz. by apply Hrest, list_elem_of_further.
  - rewrite decide_True by done. f_equal. apply IH; [done|].
    intros y z Hy Hz. apply Huniq; by apply list_elem_of_further.
Qed.

(** Two neighbours that both pass the test: the second one stays. *)
Example keepAfterRemoval_neighbours :
  keepAfterRemoval (λ _ : nat, true) [0; 1]%nat = [1%nat]
  ∧ spliceWhileIterating (λ _ : nat, Returns true) 2 0 [0; 1]%nat
    = (Returns tt, [1%nat]).
Proof. split; reflexivity. Qed.

Lemma forOf_app {A} (l1 l2 : list A)
    (body : A → Store → outcome unit * Store) (st : Store) :
  forOf (l1 ++ l2) body st
  = match forOf l1 body st with
    | (Returns _, st') => forOf l2 body st'
    | (Throws e, st') => (Throws e, st')
    end.
Proof.
  revert st. induction l1 as [|x l1 IH]; intros st; [done|].
  simpl. destruct (body x st) as [[[]|e] st']; [apply IH|done].
Qed.

Lemma forOf_skip {A} (l : list A)
    (body : A → Store → outcome unit * Store) (st : Store) :
  (∀ x, x ∈ l → body x st = (Returns tt, st)) →
  forOf l body st = (Returns tt, st).
Proof.
  induction l as [|x l IH]; intros Hskip; [done|]. simpl.
  rewrite Hskip by apply list_elem_of_here.
  apply IH. intros y Hy. by apply Hskip, list_elem_of_further.
Qed.

Lemma filter_singleton {A} (P : A → Prop) `{!∀ x, Decision (P x)}
    (l : list A) (r : A) :
  filter P l = [r] →
  ∃ l1 l2, l = l1 ++ r :: l2 ∧ P r
           ∧ (∀ x, x ∈ l1 → ¬ P x) ∧ (∀ x, x ∈ l2 → ¬ P x).
Proof.
  induction l as [|y l IH]; [done|].
  rewrite filter_cons. destruct (decide (P y)) as [Hy|Hy].
  - intros [= -> Hnil]. exists [], l. repeat split; [done| |].
    + intros x Hx. by apply not_elem_of_nil in Hx.
    + intros x Hx HP.
      assert (Hin : x ∈ filter P l) by by apply list_elem_of_filter.
      rewrite Hnil in Hin. by apply not_elem_of_nil in Hin.
  - intros Hf. destruct (IH Hf) as (l1 & l2 & -> & Hr & H1 & H2).
    exists (y :: l1), l2. repeat split; [done| |done].
    intros x [->|Hx]%elem_of_cons; [done|by apply H1].
Qed.

(** The deleted type, for the one repository that has the name, when
    [deletedAdrs] holds ADRs and none of them twice: the entries that
    [keepAfterRemoval] leaves stay in [deletedAdrs].  Where at most one
    entry has the path of the file, that is every entry but this one
    ([keepAfterRemoval_unique]). *)
Lemma handleUpdateLocalStorageDeleted_kept (file : PushedFile)
    (repoName : string) (r : nat) (st : Store) (deleted : list nat) :
  filter (λ repo, repoName = fullName (repoAt st repo)) (addedRepositories st)
  = [r] →
  deletedAdrs (repoAt st r) = Some (Some <$> deleted) →
  NoDup deleted →
  handleUpdateLocalStorageDeleted file repoName st
  = (Returns tt,
     writeRepo r
       (set_deletedAdrs
          (Some (Some <$>
                   keepAfterRemoval
                     (λ d, bool_decide
                             (Some (pushedPath file) = path (adrAt st d)))
                     deleted))
          (repoAt st r))
       st).
Proof.
  intros Hr Hdel Hnd.
  destruct (filter_singleton _ _ _ Hr) as (l1 & l2 & Hl & Hname & H1 & H2).
  unfold handleUpdateLocalStorageDeleted. rewrite Hl, forOf_app.
  rewrite forOf_skip.
  2:{ intros x Hx. rewrite decide_False; [done|by apply H1]. }
  cbn [forOf]. rewrite decide_True by done. rewrite Hdel.
  rewrite (spliceWhileIterating_keepAfterRemoval _
             (λ e : option nat,
                match e with
                | Some d => bool_decide
                              (Some (pushedPath file) = path (adrAt st d))
                | None => false
                end)).
  - rewrite take_0, drop_0, keepAfterRemoval_fmap. cbn [app].
    apply forOf_skip. intros x Hx.
    assert (x ≠ r) by (intros ->; by apply (H2 r)).
    rewrite decide_False; [done|].
    unfold repoAt, writeRepo. simpl. rewrite lookup_insert_ne by done.
    by apply H2.
  - intros e He. apply list_elem_of_fmap in He as (d & -> & _). done.
  - apply NoDup_fmap_2; [|done]. by intros ? ? [=].
  - lia.
Qed.

(** On [store5], where every path is used once, a batch with a new, a
    changed and a deleted file (and one file that matches nothing) is
    folded into the baseline, type by type, and the same batch again
    changes nothing. *)
Example updateLocalStorageAfterCommit_store5 :
  let batch :=
    [ {| pushedType := "new"; pushedPath := "docs/adr/0003-a.md" |};
      {| pushedType := "changed"; pushedPath := "docs/adr/0001-y.md" |};
      {| pushedType := "deleted"; pushedPath := "docs/adr/0002-z.md" |};
      {| pushedType := "changed"; pushedPath := "docs/adr/0009-none.md" |} ] in
  let first :=
    updateLocalStorageAfterCommit batch "owner/repo" Examples.store5 in
  let second :=
    updateLocalStorageAfterCommit batch "owner/repo" (snd first) in
  fst first = Returns tt
  ∧ addedAdrs (repoAt (snd first) 0%nat) = []
  ∧ adrs (repoAt (snd first) 0%nat) = [0; 1; 2]%nat
  ∧ deletedAdrs (repoAt (snd first) 0%nat) = Some []
  ∧ adrAt (snd first) 2%nat
    = {| originalMd := Some "# A"; editedMd := Some "# A";
         path := Some "docs/adr/0003-a.md";
         id := Some (Js.Num 3); newAdr := None |}
  ∧ adrAt (snd first) 1%nat
    = {| originalMd := Some "new"; editedMd := Some "new";
         path := Some "docs/adr/0001-y.md";
         id := Some (Js.Num 1); newAdr := None |}
  ∧ adrAt (snd first) 0%nat = Examples.publishedAdr
  ∧ second = first.
Proof. vm_compute. repeat split. Qed.

(** C6: [updateLocalStorageAfterCommit] is not idempotent on [store4],
    where [deletedAdrs] of the repository holds two ADRs with the path
    docs/adr/0000-x.md.  For the batch of one deleted file with that
    path, the loop over [deletedAdrs] removes the first entry and, the
    array having shrunk under the iterator, never looks at the second;
    the same call again removes the second entry, so it is not a no-op. *)
Theorem updateLocalStorageAfterCommit_not_idempotent :
  let batch :=
    [ {| pushedType := "deleted"; pushedPath := "docs/adr/0000-x.md" |} ] in
  let first :=
    updateLocalStorageAfterCommit batch "owner/repo" Examples.store4 in
  let second :=
    updateLocalStorageAfterCommit batch "owner/repo" (snd first) in
  path (adrAt Examples.store4 0%nat) = Some "docs/adr/0000-x.md"
  ∧ path (adrAt Examples.store4 1%nat) = Some "docs/adr/0000-x.md"
  ∧ deletedAdrs (repoAt Examples.store4 0%nat)
    = Some [Some 0%nat; Some 1%nat]
  ∧ fst first = Returns tt
  ∧ deletedAdrs (repoAt (snd first) 0%nat) = Some [Some 1%nat]
  ∧ fst second = Returns tt
  ∧ deletedAdrs (repoAt (snd second) 0%nat) = Some []
  ∧ snd second ≠ snd first.
Proof.
  repeat split; try reflexivity.
  intros Heq.
  apply (f_equal (λ st, deletedAdrs (repoAt st 0%nat))) in Heq.
  vm_compute in Heq. discriminate.
Qed.

(** [store4] is what the store's operations make of [store3]: the new
    ADR is published (a partial commit, of the new file only) and then
    deleted as well. *)
Example store4_reached :
  let st1 :=
    snd (updateLocalStorageAfterCommit
           [ {| pushedType := "new"; pushedPath := "docs/adr/0000-x.md" |} ]
           "owner/repo" Examples.store3) in
  let st2 := deleteAdr 1%nat 0%nat st1 in
  adrObjs st2 = adrObjs Examples.store4
  ∧ repoObjs st2 = repoObjs Examples.store4
  ∧ addedRepositories st2 = addedRepositories Examples.store4
  ∧ currentRepository st2 = currentRepository Examples.store4
  ∧ currentlyEditedAdr st2 = currentlyEditedAdr Examples.store4.
Proof. vm_compute. repeat split. Qed.

(** ** ensureSomeAdrIsOpened and openAnyAdr *)

Lemma ensureSomeAdrIsOpened_noop (st : Store) (a : nat) :
  currentlyEditedAdr st = Some a →
  isValidAdr (adrAt st a) = true →
  (∃ r, r ∈ addedRepositories st ∧ a ∈ adrs (repoAt st r)) →
  ensureSomeAdrIsOpened st = st.
Proof.
  intros Hcur Hvalid (r & Hr & Ha). unfold ensureSomeAdrIsOpened.
  rewrite Hcur. cbn [isValidAdrValue]. rewrite Hvalid.
  rewrite bool_decide_eq_false_2 by done.
  replace (existsb _ _) with true; [done|].
  symmetry. apply existsb_exists. exists r.
  split; [by apply list_elem_of_In|by apply includes_Some].
Qed.

(** [openAnyAdr] on a store whose two pointers are unset either opens
    an ADR or leaves nothing but [currentRepository] changed. *)
Lemma openAnyAdr_cleared (st : Store) :
  let c := set_currentRepository None (set_currentlyEditedAdr None st) in
  currentlyEditedAdr (openAnyAdr c) ≠ None
  ∨ (currentlyEditedAdr (openAnyAdr c) = None
     ∧ set_currentRepository None (set_currentlyEditedAdr None (openAnyAdr c))
       = c).
Proof.
  intros c. unfold openAnyAdr.
  change (currentRepository c) with (@None nat). cbn [Js.includes].
  destruct (0 <? length _)%nat.
  - match goal with |- context [openAdr ?x c] =>
      destruct (openAdr_cases x c) as [->|(a & r & _ & _ & _ & _ & ->)]
    end; [by right|by left].
  - rewrite decide_True by done. by right.
Qed.

(** X1: [ensureSomeAdrIsOpened] heals the invariant on the opened ADR
    whatever the store was, changes nothing but the two pointers and the
    event log, does nothing when an ADR is opened that is valid and in
    an added repository, and is idempotent. *)
Theorem ensureSomeAdrIsOpened_heals (st : Store) :
  openedAdrOk (ensureSomeAdrIsOpened st)
  ∧ sameData st (ensureSomeAdrIsOpened st)
  ∧ (openedAdrOk st → currentlyEditedAdr st ≠ None →
     ensureSomeAdrIsOpened st = st)
  ∧ ensureSomeAdrIsOpened (ensureSomeAdrIsOpened st)
    = ensureSomeAdrIsOpened st.
Proof.
  split; [apply ensureSomeAdrIsOpened_ok|].
  split; [apply ensureSomeAdrIsOpened_sameData|].
  assert (Hnoop : ∀ s, openedAdrOk s → currentlyEditedAdr s ≠ None →
                       ensureSomeAdrIsOpened s = s).
  { intros s Hok Hset. destruct (currentlyEditedAdr s) as [a|] eqn:Hcur; [|done].
    destruct (Hok a Hcur) as [Hv Hr].
    by apply (ensureSomeAdrIsOpened_noop s a). }
  split; [apply Hnoop|].
  destruct (currentlyEditedAdr (ensureSomeAdrIsOpened st)) as [a|] eqn:Hcur.
  - apply Hnoop; [apply ensureSomeAdrIsOpened_ok|by rewrite Hcur].
  - revert Hcur. unfold ensureSomeAdrIsOpened at 1 3 4.
    destruct (_ || _) eqn:Hcond.
    + intros Hcur.
      destruct (openAnyAdr_cleared st) as [Hset|[_ Hc]]; [done|].
      unfold ensureSomeAdrIsOpened. rewrite Hcur.
      rewrite bool_decide_eq_true_2 by done. cbn [orb].
      by rewrite Hc.
    + intros Hcur. unfold ensureSomeAdrIsOpened.
      rewrite Hcur. rewrite bool_decide_eq_true_2 by done. cbn [orb].
      by rewrite Hcur in Hcond.
Qed.

(** In [store1] ADR [0] is opened, valid and in the added repository. *)
Lemma ensureSomeAdrIsOpened_heals_witness :
  ensureSomeAdrIsOpened Examples.store1 = Examples.store1.
Proof.
  apply (proj1 (proj2 (proj2 (ensureSomeAdrIsOpened_heals Examples.store1)))).
  - intros a [= <-]. split; [reflexivity|].
    exists 0%nat. split; [apply list_elem_of_here|].
    apply (bool_decide_unpack _). vm_compute. exact I.
  - discriminate.
Defined.

(** X2: what [ensureSomeAdrIsOpened] does when no ADR is opened.  Only
    one ADR is tried: the first ADR of the first added repository that
    has an ADR.  If it is valid, it is opened, in a repository that
    holds it, and the event is emitted.  If it is not valid, nothing is
    opened, though other ADRs may be valid, and [currentRepository] is
    left unset.  If no added repository has an ADR, [currentRepository]
    becomes the first added repository ([undefined] without one). *)
Theorem ensureSomeAdrIsOpened_unset (st : Store) :
  currentlyEditedAdr st = None →
  let st' := ensureSomeAdrIsOpened st in
  let withAdrs :=
    filter (λ r, is_Some (adrs (repoAt st r) !! 0%nat))
           (addedRepositories st) in
  (withAdrs = [] →
   currentlyEditedAdr st' = None
   ∧ currentRepository st' = addedRepositories st !! 0%nat
   ∧ emitted st' = emitted st)
  ∧ (∀ r a, withAdrs !! 0%nat = Some r →
            adrs (repoAt st r) !! 0%nat = Some a →
            isValidAdr (adrAt st a) = true →
     currentlyEditedAdr st' = Some a
     ∧ (∃ r', currentRepository st' = Some r'
              ∧ r' ∈ addedRepositories st ∧ a ∈ adrs (repoAt st r'))
     ∧ emitted st' = emitted st ++ [OpenAdrEvent a])
  ∧ (∀ r a, withAdrs !! 0%nat = Some r →
            adrs (repoAt st r) !! 0%nat = Some a →
            isValidAdr (adrAt st a) = false →
     currentlyEditedAdr st' = None
     ∧ currentRepository st' = None
     ∧ emitted st' = emitted st).
Proof.
  intros Hcur st' withAdrs.
  set (c := set_currentRepository None (set_currentlyEditedAdr None st)).
  assert (Hst' : st' = openAnyAdr c).
  { unfold st', ensureSomeAdrIsOpened. rewrite Hcur.
    by rewrite bool_decide_eq_true_2. }
  assert (Hany : openAnyAdr c
                 = if (0 <? length withAdrs)%nat then
                     openAdr (r ← withAdrs !! 0%nat; adrs (repoAt st r) !! 0%nat)
                             c
                   else set_currentRepository (addedRepositories st !! 0%nat) c).
  { unfold openAnyAdr. change (currentRepository c) with (@None nat).
    cbn [Js.includes].
    replace withAdrs
      with (filter (λ r, is_Some (adrs (repoAt c r) !! 0%nat))
                   (addedRepositories c)) by reflexivity.
    destruct (0 <? length _)%nat; [reflexivity|].
    rewrite decide_True by done. reflexivity. }
  rewrite Hst', Hany.
  split; [|split].
  - intros ->. done.
  - intros r a Hr Ha Hv.
    destruct withAdrs as [|r0 rest] eqn:E; [done|]. injection Hr as ->.
    cbn [length Nat.ltb Nat.leb]. cbn [lookup list_lookup mbind option_bind].
    rewrite Ha.
    assert (Hin : r ∈ addedRepositories st).
    { assert (Hf : r ∈ filter (λ r, is_Some (adrs (repoAt st r) !! 0%nat))
                       (addedRepositories st)).
      { fold withAdrs. rewrite E. apply list_elem_of_here. }
      by apply list_elem_of_filter in Hf as [_ ?]. }
    assert (Hmem : a ∈ adrs (repoAt st r)) by by eapply list_elem_of_lookup_2.
    unfold openAdr. rewrite decide_True by done.
    destruct (find_is_Some
                (λ r', Js.includes (adrs (repoAt c r')) (Some a) = true)
                (addedRepositories c) r Hin) as [r' F];
      [by apply includes_Some|].
    rewrite F. change (adrAt c a) with (adrAt st a). rewrite Hv.
    apply find_Some in F as [Hr' Ha']. apply includes_Some in Ha'.
    split; [done|]. split; [by exists r'|done].
  - intros r a Hr Ha Hv.
    destruct withAdrs as [|r0 rest] eqn:E; [done|]. injection Hr as ->.
    cbn [length Nat.ltb Nat.leb]. cbn [lookup list_lookup mbind option_bind].
    rewrite Ha.
    unfold openAdr. rewrite decide_True by done.
    change (adrAt c a) with (adrAt st a). rewrite Hv.
    by destruct (Js.find _ _).
Qed.

(** In [store4] no repository has an ADR; in [store1Closed] the first
    ADR is valid; in [invalidFirst] it is not, and the valid ADR [1]
    stays closed. *)
Lemma ensureSomeAdrIsOpened_unset_witness :
  (currentlyEditedAdr (ensureSomeAdrIsOpened Examples.store4) = None
   ∧ currentRepository (ensureSomeAdrIsOpened Examples.store4) = Some 0%nat)
  ∧ currentlyEditedAdr (ensureSomeAdrIsOpened MoreExamples.store1Closed)
    = Some 0%nat
  ∧ (isValidAdr (adrAt MoreExamples.invalidFirst 1%nat) = true
     ∧ currentlyEditedAdr (ensureSomeAdrIsOpened MoreExamples.invalidFirst)
       = None
     ∧ currentRepository (ensureSomeAdrIsOpened MoreExamples.invalidFirst)
       = None).
Proof.
  split; [|split].
  - destruct (proj1 (ensureSomeAdrIsOpened_unset Examples.store4 eq_refl))
      as (H1 & H2 & _); [reflexivity|].
    split; [exact H1|exact H2].
  - destruct (proj1 (proj2 (ensureSomeAdrIsOpened_unset
                              MoreExamples.store1Closed eq_refl))
                0%nat 0%nat) as (H1 & _);
      [reflexivity|reflexivity|reflexivity|].
    exact H1.
  - split; [reflexivity|].
    destruct (proj2 (proj2 (ensureSomeAdrIsOpened_unset
                              MoreExamples.invalidFirst eq_refl))
                0%nat 0%nat) as (H1 & H2 & _);
      [reflexivity|reflexivity|reflexivity|].
    split; [exact H1|exact H2].
Defined.

(** ** removeRepository and addRepositories *)

Lemma NoDup_fmap_filter {A B} (f : A → B) (P : A → Prop)
    `{!∀ x, Decision (P x)} (l : list A) :
  NoDup (f <$> l) → NoDup (f <$> filter P l).
Proof.
  induction l as [|x l IH]; [done|].
  rewrite fmap_cons, filter_cons. intros [Hx Hnd]%NoDup_cons.
  destruct (decide (P x)); [|by apply IH].
  rewrite fmap_cons. apply NoDup_cons. split; [|by apply IH].
  intros (y & Hy & Hin)%list_elem_of_fmap. apply Hx.
  apply list_elem_of_filter in Hin as [_ Hin].
  apply list_elem_of_fmap. by exists y.
Qed.

Lemma removeRepository_fields (repoToRemove : nat) (st : Store) :
  addedRepositories (removeRepository repoToRemove st)
  = filter (λ r, fullName (repoAt st r) ≠ fullName (repoAt st repoToRemove))
           (addedRepositories st)
  ∧ sameObjects st (removeRepository repoToRemove st).
Proof.
  unfold removeRepository.
  set (st1 := set_addedRepositories _ st).
  destruct (ensureSomeAdrIsOpened_sameData st1) as ((Ha & Hr) & Hl & _).
  split; [exact Hl|]. by split.
Qed.

(** X3: [removeRepository] goes by name: it removes every added
    repository that has the [fullName] of its argument (the argument
    need not be an added repository itself) and keeps the others in
    their order; no object is changed; the opened ADR is valid and in an
    added repository afterwards; uniqueness of the names is kept; and
    the local storage holds the list as it is afterwards. *)
Theorem removeRepository_removes (repoToRemove : nat) (st : Store) :
  let st' := removeRepository repoToRemove st in
  addedRepositories st'
  = filter (λ r, fullName (repoAt st r) ≠ fullName (repoAt st repoToRemove))
           (addedRepositories st)
  ∧ (∀ r, r ∈ addedRepositories st' →
          fullName (repoAt st' r) ≠ fullName (repoAt st' repoToRemove))
  ∧ sameObjects st st'
  ∧ openedAdrOk st'
  ∧ (uniqueNames st → uniqueNames st')
  ∧ localStorage st' = Some (toJson st' <$> addedRepositories st').
Proof.
  intros st'. destruct (removeRepository_fields repoToRemove st) as [Hl Hobj].
  fold st' in Hl, Hobj.
  split; [exact Hl|]. split; [|split; [exact Hobj|split; [|split]]].
  - intros r Hr. rewrite Hl in Hr. apply list_elem_of_filter in Hr as [Hne _].
    by rewrite !(sameObjects_repoAt st st').
  - apply removeRepository_ok.
  - unfold uniqueNames. intros Hnd. rewrite Hl.
    replace ((fullName ∘ repoAt st') <$> _)
      with ((fullName ∘ repoAt st) <$>
              filter (λ r, fullName (repoAt st r)
                             ≠ fullName (repoAt st repoToRemove))
                     (addedRepositories st)).
    + by apply NoDup_fmap_filter.
    + apply list_fmap_ext. intros i r _. simpl.
      by rewrite (sameObjects_repoAt st st').
  - reflexivity.
Qed.

(** X4: adding one repository and removing it again gives back the list
    of added repositories.  (When [addRepositories] returns, no added
    repository had the name.) *)
Theorem removeRepository_after_add (repo : nat) (st : Store) :
  fst (addRepositories [repo] st) = Returns tt →
  addedRepositories (removeRepository repo (snd (addRepositories [repo] st)))
  = addedRepositories st.
Proof.
  unfold addRepositories.
  destruct (0 <? length _)%nat eqn:E; [done|]. intros _. cbn [snd].
  set (st1 := ensureSomeAdrIsOpened _).
  assert (Hsame : sameData
                    (updateLocalStorageRepositories
                       (set_addedRepositories (addedRepositories st ++ [repo])
                          st)) st1)
    by apply ensureSomeAdrIsOpened_sameData.
  destruct Hsame as (Hobj & Hl & _).
  assert (Hrepo : ∀ r, repoAt st1 r = repoAt st r).
  { intros r. by rewrite (sameObjects_repoAt _ _ r Hobj). }
  destruct (removeRepository_fields repo st1) as [-> _].
  rewrite Hl. cbn [addedRepositories updateLocalStorageRepositories
                   set_localStorage set_addedRepositories].
  rewrite filter_app.
  assert (Hnone : ∀ r, r ∈ addedRepositories st →
                       fullName (repoAt st r) ≠ fullName (repoAt st repo)).
  { intros r Hr Heq.
    assert (Hpos : (0 <? length
                      (filter (λ repoToAdd,
                                 fullName (repoAt st repoToAdd)
                                   ∈ (fullName ∘ repoAt st)
                                       <$> addedRepositories st)
                              [repo]))%nat = true); [|congruence].
    apply filter_length_pos. exists repo.
    split; [apply list_elem_of_here|].
    apply list_elem_of_fmap. exists r. by split. }
  rewrite filter_all.
  - rewrite filter_cons, decide_False; [by rewrite app_nil_r|].
    intros Hne. by apply Hne.
  - intros r Hr. rewrite !Hrepo. by apply Hnone.
Qed.

(** Repository [2] of [store1] has a name of its own. *)
Lemma removeRepository_after_add_witness :
  addedRepositories
    (removeRepository 2%nat (snd (addRepositories [2%nat] Examples.store1)))
  = [0%nat].
Proof.
  apply (removeRepository_after_add 2%nat Examples.store1). reflexivity.
Defined.

(** X5: [addRepositories] compares the input with the added
    repositories only.  When it returns, from a store whose added
    repositories have unique names, the names are unique afterwards
    exactly when the input list has no name twice. *)
Theorem addRepositories_uniqueNames (repoList : list nat) (st : Store) :
  uniqueNames st →
  fst (addRepositories repoList st) = Returns tt →
  uniqueNames (snd (addRepositories repoList st))
  ↔ NoDup ((fullName ∘ repoAt st) <$> repoList).
Proof.
  intros Huniq. unfold addRepositories.
  destruct (0 <? length _)%nat eqn:E; [done|]. intros _. cbn [snd].
  set (st0 := updateLocalStorageRepositories _).
  destruct (ensureSomeAdrIsOpened_sameData st0) as (Hobj & Hl & _).
  unfold uniqueNames. rewrite Hl.
  replace ((fullName ∘ repoAt (ensureSomeAdrIsOpened st0))
             <$> addedRepositories st0)
    with ((fullName ∘ repoAt st) <$> (addedRepositories st ++ repoList)).
  2:{ apply list_fmap_ext. intros i r _. simpl.
      by rewrite (sameObjects_repoAt st0 _ r Hobj). }
  rewrite fmap_app, NoDup_app.
  assert (Hdisj : ∀ n, n ∈ (fullName ∘ repoAt st) <$> addedRepositories st →
                       n ∉ (fullName ∘ repoAt st) <$> repoList).
  { intros n Hn (r & -> & Hr)%list_elem_of_fmap.
    assert (Hpos : (0 <? length
                      (filter (λ repoToAdd,
                                 fullName (repoAt st repoToAdd)
                                   ∈ (fullName ∘ repoAt st)
                                       <$> addedRepositories st)
                              repoList))%nat = true); [|congruence].
    apply filter_length_pos. by exists r. }
  split; [by intros (_ & _ & ?)|]. intros Hnd. by repeat split.
Qed.

(** Repository [2] alone is added to [store1] with unique names;
    twice in one call it is added twice. *)
Lemma addRepositories_uniqueNames_witness :
  uniqueNames (snd (addRepositories [2%nat] Examples.store1))
  ∧ fst (addRepositories [2; 2]%nat Examples.store1) = Returns tt
  ∧ ¬ uniqueNames (snd (addRepositories [2; 2]%nat Examples.store1)).
Proof.
  assert (Huniq : uniqueNames Examples.store1).
  { apply (bool_decide_unpack _). vm_compute. exact I. }
  split; [|split; [reflexivity|]].
  - apply (addRepositories_uniqueNames [2%nat] Examples.store1 Huniq eq_refl).
    apply (bool_decide_unpack _). vm_compute. exact I.
  - intros H.
    apply (addRepositories_uniqueNames [2; 2]%nat Examples.store1 Huniq eq_refl)
      in H.
    revert H. apply (bool_decide_unpack _). vm_compute. exact I.
Defined.

(** Repository [1] of [store1] is not added and has the name of the
    added repository [0]. *)
Lemma removeRepository_removes_witness :
  addedRepositories (removeRepository 1%nat Examples.store1) = []
  ∧ uniqueNames (removeRepository 1%nat Examples.store1).
Proof.
  destruct (removeRepository_removes 1%nat Examples.store1)
    as (Hl & _ & _ & _ & Huniq & _).
  split; [rewrite Hl; reflexivity|].
  apply Huniq. apply (bool_decide_unpack _). vm_compute. exact I.
Defined.

(** ** updateRepository *)

Lemma splice1With_at {A} (l : list A) (i : nat) (x : A) :
  (i < length l)%nat → Js.splice1With (Z.of_nat i) x l = <[i := x]> l.
Proof.
  intros Hlt. unfold Js.splice1With, Js.spliceStart.
  replace (Z.of_nat i <? 0) with false by (symmetry; apply Z.ltb_ge; lia).
  rewrite Z.min_l, Nat2Z.id by lia. by rewrite insert_take_drop.
Qed.

Lemma splice1With_last {A} (l : list A) (x y : A) :
  Js.splice1With (-1) y (l ++ [x]) = l ++ [y].
Proof.
  assert (Hk : Js.spliceStart (-1) (l ++ [x]) = length l).
  { unfold Js.spliceStart. change (-1 <? 0) with true. cbv iota.
    rewrite length_app. simpl length. lia. }
  unfold Js.splice1With. rewrite Hk.
  rewrite take_app_length.
  by rewrite (drop_ge (l ++ [x])) by (rewrite length_app; simpl; lia).
Qed.

Lemma findIndex_first {A} (P : A → Prop) `{!∀ x, Decision (P x)}
    (l : list A) (i : nat) (x : A) :
  l !! i = Some x → P x → (∀ j y, (j < i)%nat → l !! j = Some y → ¬ P y) →
  Js.findIndex P l = Z.of_nat i.
Proof.
  intros Hi HP Hbefore. unfold Js.findIndex.
  assert (list_find P l = Some (i, x)) as ->; [|done].
  apply list_find_Some. repeat split; [done|done|].
  intros j y Hj Hlt. by apply (Hbefore j y).
Qed.

Lemma findIndex_none {A} (P : A → Prop) `{!∀ x, Decision (P x)}
    (l : list A) :
  (∀ x, x ∈ l → ¬ P x) → Js.findIndex P l = -1.
Proof.
  intros Hnone. unfold Js.findIndex.
  destruct (list_find P l) as [[i x]|] eqn:E; [|done].
  apply list_find_Some in E as (Hi & HP & _).
  destruct (Hnone x); [by eapply list_elem_of_lookup_2|done].
Qed.

(** X6: [updateRepository], when an added repository has the name of
    the updated one: the first such repository is replaced in place, the
    list keeps its length and its names, no object is changed, and the
    call returns.  If the opened ADR is not in the replaced repository,
    the pointers stay and the invariant on the opened ADR is kept.  If
    it is, and the updated repository has an ADR with the same path that
    is valid, that ADR is the opened one afterwards and the invariant
    holds. *)
Theorem updateRepository_replaces (updated : nat) (st : Store)
    (i old : nat) :
  addedRepositories st !! i = Some old →
  fullName (repoAt st old) = fullName (repoAt st updated) →
  (∀ j r, (j < i)%nat → addedRepositories st !! j = Some r →
          fullName (repoAt st r) ≠ fullName (repoAt st updated)) →
  let st' := snd (updateRepository updated st) in
  fst (updateRepository updated st) = Returns tt
  ∧ addedRepositories st' = <[i := updated]> (addedRepositories st)
  ∧ sameObjects st st'
  ∧ (fullName ∘ repoAt st') <$> addedRepositories st'
    = (fullName ∘ repoAt st) <$> addedRepositories st
  ∧ ((∀ c, currentlyEditedAdr st = Some c → c ∉ adrs (repoAt st old)) →
     currentlyEditedAdr st' = currentlyEditedAdr st
     ∧ currentRepository st' = currentRepository st
     ∧ emitted st' = emitted st
     ∧ (openedAdrOk st → openedAdrOk st'))
  ∧ (∀ c a, currentlyEditedAdr st = Some c → c ∈ adrs (repoAt st old) →
            Js.find (λ a, path (adrAt st a) = path (adrAt st c))
                    (adrs (repoAt st updated)) = Some a →
            isValidAdr (adrAt st a) = true →
     currentlyEditedAdr st' = Some a ∧ openedAdrOk st').
Proof.
  intros Hi Hname Hfirst st'.
  pose proof (lookup_lt_Some _ _ _ Hi) as Hlt.
  assert (Hidx : Js.findIndex
                   (λ r, fullName (repoAt st r) = fullName (repoAt st updated))
                   (addedRepositories st) = Z.of_nat i).
  { apply (findIndex_first _ _ i old); [done|done|].
    intros j y Hj Hy. by apply Hfirst with j. }
  assert (Hat : Js.at_ (addedRepositories st) (Z.of_nat i) = Some old).
  { unfold Js.at_.
    replace (Z.of_nat i <? 0) with false by (symmetry; apply Z.ltb_ge; lia).
    by rewrite Nat2Z.id. }
  set (st1 := set_addedRepositories (<[i := updated]> (addedRepositories st))
                st).
  assert (Hupd : updated ∈ addedRepositories st1).
  { apply list_elem_of_lookup. exists i. simpl.
    by apply list_lookup_insert_eq. }
  assert (Hrun : updateRepository updated st
                 = (Returns tt,
                    updateLocalStorageRepositories
                      match currentlyEditedAdr st with
                      | Some cur =>
                          if Js.includes (adrs (repoAt st old)) (Some cur) then
                            openAdr
                              (Js.find
                                 (λ a, path (adrAt st a) = path (adrAt st cur))
                                 (adrs (repoAt st updated)))
                              st1
                          else st1
                      | None => st1
                      end)).
  { unfold updateRepository. rewrite Hidx, Hat.
    by rewrite splice1With_at. }
  set (st2 := match currentlyEditedAdr st with
              | Some cur => _ | None => st1 end) in Hrun.
  assert (Hdata : sameData st1 st2).
  { unfold st2. repeat case_match; try apply openAdr_sameData;
      by repeat split. }
  destruct Hdata as (Hobj & Hl & _).
  assert (Hst' : st' = updateLocalStorageRepositories st2)
    by (unfold st'; by rewrite Hrun).
  assert (Hrepo : ∀ r, repoAt st' r = repoAt st r).
  { intros r. rewrite Hst'.
    change (repoAt (updateLocalStorageRepositories st2) r) with (repoAt st2 r).
    by rewrite (sameObjects_repoAt st1 st2 r Hobj). }
  assert (Hlist : addedRepositories st' = <[i := updated]> (addedRepositories st)).
  { rewrite Hst'. exact Hl. }
  split; [by rewrite Hrun|]. split; [exact Hlist|].
  split; [|split; [|split]].
  - rewrite Hst'. destruct Hobj as [Ha Hr]. by split.
  - rewrite Hlist.
    replace ((fullName ∘ repoAt st') <$> <[i:=updated]> (addedRepositories st))
      with ((fullName ∘ repoAt st) <$> <[i:=updated]> (addedRepositories st)).
    2:{ apply list_fmap_ext. intros k r _. simpl. by rewrite Hrepo. }
    rewrite list_fmap_insert. apply list_insert_id.
    rewrite list_lookup_fmap, Hi. simpl. by rewrite Hname.
  - intros Hout.
    assert (Hst2 : st2 = st1).
    { unfold st2. destruct (currentlyEditedAdr st) as [c|]; [|done].
      replace (Js.includes (adrs (repoAt st old)) (Some c)) with false; [done|].
      symmetry. apply bool_decide_eq_false. by apply Hout. }
    rewrite Hst', Hst2.
    split; [done|]. split; [done|]. split; [done|].
    intros Hok c Hc. destruct (Hok c Hc) as (Hv & r & Hr & Hin).
    split; [done|]. exists r. split; [|done].
    apply list_elem_of_lookup in Hr as [j Hj].
    apply list_elem_of_lookup. exists j. simpl.
    rewrite list_lookup_insert_ne; [done|].
    intros <-. rewrite Hi in Hj. injection Hj as <-. by apply (Hout c).
  - intros c a Hc Hin Hfind Hv.
    assert (Hst2 : st2 = openAdr (Some a) st1).
    { unfold st2. rewrite Hc.
      rewrite (proj2 (includes_Some _ _) Hin). by rewrite Hfind. }
    apply find_Some in Hfind as [Ha _].
    assert (Hcur : currentlyEditedAdr st2 = Some a).
    { rewrite Hst2.
      destruct (openAdr_cases (Some a) st1)
        as [Hsame|(a' & r & [= <-] & _ & _ & _ & ->)]; [|done].
      rewrite Hsame. unfold openAdr in Hsame.
      destruct (decide (Some a ≠ currentlyEditedAdr st1)) as [Hne|Heq].
      - destruct (find_is_Some
                    (λ r, Js.includes (adrs (repoAt st1 r)) (Some a) = true)
                    (addedRepositories st1) updated Hupd) as [r F];
          [by apply includes_Some|].
        rewrite F in Hsame. change (adrAt st1 a) with (adrAt st a) in Hsame.
        rewrite Hv in Hsame.
        apply (f_equal currentlyEditedAdr) in Hsame. simpl in Hsame.
        simpl. congruence.
      - by destruct (decide (Some a = currentlyEditedAdr st1)) as [<-|]. }
    rewrite Hst'. split; [exact Hcur|].
    intros a' Ha'. simpl in Ha'. rewrite Hcur in Ha'. injection Ha' as <-.
    split.
    + change (adrAt (updateLocalStorageRepositories st2) a) with (adrAt st2 a).
      by rewrite (sameObjects_adrAt st1 st2 a Hobj).
    + exists updated. split.
      * change (addedRepositories (updateLocalStorageRepositories st2))
          with (addedRepositories st2). by rewrite Hl.
      * change (repoAt (updateLocalStorageRepositories st2) updated)
          with (repoAt st2 updated).
        by rewrite (sameObjects_repoAt st1 st2 updated Hobj).
Qed.

(** X7: [updateRepository] for a name that no added repository has.
    [findIndex] answers [-1]; the splice at [-1] overwrites the last
    added repository (or, the list being empty, inserts the updated
    one); then reading [adrs] of [undefined] throws.  The list is
    changed, the pointers and the local storage are not. *)
Theorem updateRepository_unknown_name (updated : nat) (st : Store) :
  (∀ r, r ∈ addedRepositories st →
        fullName (repoAt st r) ≠ fullName (repoAt st updated)) →
  let st' := snd (updateRepository updated st) in
  fst (updateRepository updated st) = Throws TypeError
  ∧ (addedRepositories st = [] → addedRepositories st' = [updated])
  ∧ (∀ l x, addedRepositories st = l ++ [x] →
            addedRepositories st' = l ++ [updated])
  ∧ sameObjects st st'
  ∧ currentlyEditedAdr st' = currentlyEditedAdr st
  ∧ currentRepository st' = currentRepository st
  ∧ localStorage st' = localStorage st.
Proof.
  intros Hnone st'. unfold st', updateRepository.
  rewrite (findIndex_none _ _ Hnone).
  change (Js.at_ (addedRepositories st) (-1)) with (@None nat).
  cbn [fst snd]. split; [done|]. split; [|split; [|by repeat split]].
  - intros ->. reflexivity.
  - intros l x ->. simpl. apply splice1With_last.
Qed.

(** Repository [2] has a name that no added repository of [store1]
    has: the added repository [0] is overwritten. *)
Lemma updateRepository_unknown_name_witness :
  fst (updateRepository 2%nat Examples.store1) = Throws TypeError
  ∧ addedRepositories (snd (updateRepository 2%nat Examples.store1))
    = [2%nat].
Proof.
  destruct (updateRepository_unknown_name 2%nat Examples.store1)
    as (Hthrow & _ & Hlast & _).
  - intros r Hr. apply list_elem_of_singleton in Hr as ->.
    vm_compute. discriminate.
  - split; [exact Hthrow|]. exact (Hlast [] 0%nat eq_refl).
Defined.

(** In [refreshed] the copy has an ADR at the path of the opened one:
    it is opened in its place. *)
Lemma updateRepository_replaces_witness :
  fst (updateRepository 1%nat MoreExamples.refreshed) = Returns tt
  ∧ addedRepositories (snd (updateRepository 1%nat MoreExamples.refreshed))
    = [1%nat]
  ∧ currentlyEditedAdr (snd (updateRepository 1%nat MoreExamples.refreshed))
    = Some 1%nat
  ∧ openedAdrOk (snd (updateRepository 1%nat MoreExamples.refreshed)).
Proof.
  destruct (updateRepository_replaces 1%nat MoreExamples.refreshed 0%nat 0%nat)
    as (Hret & Hl & _ & _ & _ & Hopen).
  - reflexivity.
  - reflexivity.
  - intros j r Hj. lia.
  - destruct (Hopen 0%nat 1%nat) as [Hcur Hok].
    + reflexivity.
    + apply (bool_decide_unpack _). vm_compute. exact I.
    + reflexivity.
    + reflexivity.
    + split; [exact Hret|]. split; [exact Hl|]. split; [exact Hcur|exact Hok].
Defined.

(** ** openAdrBy *)

Lemma findThrowing_Some {A} (p : A → outcome bool) (l : list A) (x : A) :
  findThrowing p l = Returns (Some x) → x ∈ l ∧ p x = Returns true.
Proof.
  induction l as [|y l IH]; [done|]. simpl.
  destruct (p y) as [[]|e] eqn:E; [| |done].
  - intros [= <-]. split; [apply list_elem_of_here|done].
  - intros H. destruct (IH H). split; [by apply list_elem_of_further|done].
Qed.

Lemma findThrowing_None {A} (p : A → outcome bool) (l : list A) :
  findThrowing p l = Returns None → ∀ x, x ∈ l → p x = Returns false.
Proof.
  induction l as [|y l IH]; intros H x Hx.
  - by apply not_elem_of_nil in Hx.
  - simpl in H. destruct (p y) as [[]|e] eqn:E; [done| |done].
    apply elem_of_cons in Hx as [->|Hx]; [done|by apply IH].
Qed.

(** X8: [openAdrBy] looks into the first added repository that has the
    name, and only into that one.  When it returns an ADR, the ADR is in
    that repository, the last segment of its path is the file name, and
    [openAdr] was called with it: a valid ADR is the opened one
    afterwards, an ADR that is not valid is returned without being
    opened, the store unchanged.  When it returns nothing, or throws
    (the [TypeError] of an ADR without a path), the store is
    unchanged. *)
Theorem openAdrBy_spec (repoFullName adrName : string) (st : Store)
    (res : outcome (option nat)) (st' : Store) :
  openAdrBy repoFullName adrName st = (res, st') →
  match res with
  | Returns (Some a) =>
      ∃ r p,
        Js.find (λ repo, fullName (repoAt st repo) = repoFullName)
                (addedRepositories st) = Some r
        ∧ a ∈ adrs (repoAt st r)
        ∧ path (adrAt st a) = Some p
        ∧ last (Js.split "/" p) = Some adrName
        ∧ st' = openAdr (Some a) st
        ∧ (isValidAdr (adrAt st a) = true → currentlyEditedAdr st' = Some a)
        ∧ (isValidAdr (adrAt st a) = false → st' = st)
  | Returns None =>
      st' = st
      ∧ ∀ r, Js.find (λ repo, fullName (repoAt st repo) = repoFullName)
                     (addedRepositories st) = Some r →
             ∀ a p, a ∈ adrs (repoAt st r) → path (adrAt st a) = Some p →
                    last (Js.split "/" p) ≠ Some adrName
  | Throws e => e = TypeError ∧ st' = st
  end.
Proof.
  unfold openAdrBy.
  destruct (Js.find _ _) as [r|] eqn:Hfind.
  2:{ intros [= <- <-]. split; [done|]. by intros r [=]. }
  destruct (findThrowing _ _) as [[a|]|e] eqn:Hadr; intros [= <- <-].
  - apply findThrowing_Some in Hadr as [Hin Hname].
    unfold hasFileName in Hname.
    destruct (path (adrAt st a)) as [p|] eqn:Hp; [|done].
    injection Hname as Hname. apply bool_decide_eq_true in Hname.
    exists r, p. repeat split; try done.
    + intros Hv. unfold openAdr.
      destruct (decide (Some a ≠ currentlyEditedAdr st)) as [Hne|Heq].
      * apply find_Some in Hfind as [Hr _].
        destruct (find_is_Some
                    (λ r, Js.includes (adrs (repoAt st r)) (Some a) = true)
                    (addedRepositories st) r Hr) as [r' F];
          [by apply includes_Some|].
        by rewrite F, Hv.
      * by destruct (decide (Some a = currentlyEditedAdr st)) as [<-|].
    + intros Hv. unfold openAdr. rewrite Hv. by repeat case_match.
  - split; [done|]. intros r' [= <-] a p Ha Hp Hlast.
    pose proof (findThrowing_None _ _ Hadr a Ha) as Hno.
    unfold hasFileName in Hno. rewrite Hp in Hno. injection Hno as Hno.
    by apply bool_decide_eq_false in Hno.
  - split; [|done]. clear Hfind. revert Hadr.
    induction (adrs (repoAt st r)) as [|a l IH]; [done|]. simpl.
    unfold hasFileName at 1.
    destruct (path (adrAt st a)); [|by intros [= <-]].
    by destruct (bool_decide _).
Qed.

(** In [store1] the file 0001-y.md is the valid ADR [1]; in
    [invalidFirst] the file 0007-w.md is ADR [0], which is not valid:
    it is returned and not opened. *)
Lemma openAdrBy_spec_witness :
  (fst (openAdrBy "owner/repo" "0001-y.md" Examples.store1)
   = Returns (Some 1%nat)
   ∧ currentlyEditedAdr
       (snd (openAdrBy "owner/repo" "0001-y.md" Examples.store1))
     = Some 1%nat)
  ∧ (fst (openAdrBy "owner/repo" "0007-w.md" MoreExamples.invalidFirst)
     = Returns (Some 0%nat)
     ∧ snd (openAdrBy "owner/repo" "0007-w.md" MoreExamples.invalidFirst)
       = MoreExamples.invalidFirst).
Proof.
  split.
  - split; [reflexivity|].
    destruct (openAdrBy_spec "owner/repo" "0001-y.md" Examples.store1
                (Returns (Some 1%nat))
                (snd (openAdrBy "owner/repo" "0001-y.md" Examples.store1))
                eq_refl)
      as (r & p & _ & _ & _ & _ & _ & Hopen & _).
    apply Hopen. reflexivity.
  - split; [reflexivity|].
    destruct (openAdrBy_spec "owner/repo" "0007-w.md" MoreExamples.invalidFirst
                (Returns (Some 0%nat))
                (snd (openAdrBy "owner/repo" "0007-w.md"
                        MoreExamples.invalidFirst))
                eq_refl)
      as (r & p & _ & _ & _ & _ & _ & _ & Hkept).
    apply Hkept. reflexivity.
Defined.

(** ** The file listings after createNewAdr and deleteAdr *)

Lemma collect_app {A} (l1 l2 : list (outcome A)) :
  collect (l1 ++ l2)
  = match collect l1 with
    | Returns a =>
        match collect l2 with
        | Returns b => Returns (a ++ b)
        | Throws e => Throws e
        end
    | Throws e => Throws e
    end.
Proof.
  induction l1 as [|[a|e] l1 IH]; simpl.
  - by destruct (collect l2).
  - rewrite IH. destruct (collect l1); [|done]. by destruct (collect l2).
  - done.
Qed.

Lemma collect_fmap_ext {A B} (f g : A → outcome B) (l : list A) :
  (∀ x, x ∈ l → f x = g x) → collect (f <$> l) = collect (g <$> l).
Proof.
  intros H. f_equal. apply list_fmap_ext. intros i x Hi. apply H.
  by eapply list_elem_of_lookup_2.
Qed.

(** The repositories that a name selects are the same in two stores
    with the same list and the same names. *)
Lemma filter_named_ext (repoName : string) (st st' : Store) :
  addedRepositories st' = addedRepositories st →
  (∀ r, fullName (repoAt st' r) = fullName (repoAt st r)) →
  filter (λ repo, repoName = fullName (repoAt st' repo))
         (addedRepositories st')
  = filter (λ repo, repoName = fullName (repoAt st repo))
           (addedRepositories st).
Proof.
  intros -> Hname. apply list_filter_iff. intros r. by rewrite Hname.
Qed.

(** X9: for a name that no added repository has, the three file
    listings return the empty list; they do not look into any
    repository, so they do not throw either. *)
Theorem listings_unknown_name (repoName : string) (st : Store) :
  (∀ r, r ∈ addedRepositories st → repoName ≠ fullName (repoAt st r)) →
  changedFilesInRepo repoName st = Returns []
  ∧ newFilesInRepo repoName st = Returns []
  ∧ deletedFilesInRepo repoName st = Returns [].
Proof.
  intros Hnone.
  assert (Hnil : filter (λ repo, repoName = fullName (repoAt st repo))
                        (addedRepositories st) = []).
  { induction (addedRepositories st) as [|r l IH]; [done|].
    rewrite filter_cons, decide_False by (apply Hnone, list_elem_of_here).
    apply IH. intros x Hx. by apply Hnone, list_elem_of_further. }
  unfold changedFilesInRepo, newFilesInRepo, deletedFilesInRepo.
  rewrite !(forOfCollect_select
              (λ repo, repoName = fullName (repoAt st repo))).
  by rewrite Hnil.
Qed.

(** [store1] has no repository named owner/none; its repository has
    one changed and one new file. *)
Lemma listings_unknown_name_witness :
  changedFilesInRepo "owner/none" Examples.store1 = Returns []
  ∧ newFilesInRepo "owner/none" Examples.store1 = Returns []
  ∧ deletedFilesInRepo "owner/none" Examples.store1 = Returns [].
Proof.
  apply (listings_unknown_name "owner/none" Examples.store1).
  intros r Hr. apply list_elem_of_singleton in Hr as ->.
  vm_compute. discriminate.
Defined.

Lemma deleteAdr_frame (adr repo : nat) (st : Store) :
  addedRepositories (deleteAdr adr repo st) = addedRepositories st
  ∧ adrObjs (deleteAdr adr repo st) = adrObjs st
  ∧ (∀ r, r ≠ repo → repoAt (deleteAdr adr repo st) r = repoAt st r)
  ∧ (∀ r, fullName (repoAt (deleteAdr adr repo st) r)
          = fullName (repoAt st r)).
Proof.
  assert (Hrun : ∃ R2, deleteAdr adr repo st
                       = updateLocalStorageRepositories
                           (ensureSomeAdrIsOpened (writeRepo repo R2 st))).
  { unfold deleteAdr. by eexists. }
  destruct Hrun as [R2 Hrun].
  destruct (ensureSomeAdrIsOpened_sameData (writeRepo repo R2 st))
    as ((Hadr & Hrepo) & Hl & _).
  assert (Hne : ∀ r, r ≠ repo → repoAt (deleteAdr adr repo st) r = repoAt st r).
  { intros r Hr. rewrite Hrun. unfold repoAt. simpl. rewrite Hrepo. simpl.
    by rewrite lookup_insert_ne. }
  split; [|split; [|split; [exact Hne|]]].
  - rewrite Hrun. simpl. by rewrite Hl.
  - rewrite Hrun. simpl. by rewrite Hadr.
  - intros r. destruct (decide (r = repo)) as [->|Hr]; [|by rewrite Hne].
    rewrite deleteAdr_repoAt. by destruct (0 <=? _).
Qed.

(** X10: [deleteAdr] on a repository that has no ADR, for an ADR that
    is not in [addedAdrs]: nothing can be removed, the first element of
    the empty array of removed elements is [undefined], and that is
    pushed to [deletedAdrs].  From then on [deletedFilesInRepo] for this
    repository throws a [TypeError]. *)
Theorem deleteAdr_without_adrs (adr repo : nat) (repoName : string)
    (st : Store) :
  adrs (repoAt st repo) = [] →
  adr ∉ addedAdrs (repoAt st repo) →
  let st' := deleteAdr adr repo st in
  deletedAdrs (repoAt st' repo)
  = Some (default [] (deletedAdrs (repoAt st repo)) ++ [None])
  ∧ adrs (repoAt st' repo) = []
  ∧ (filter (λ r, repoName = fullName (repoAt st r)) (addedRepositories st)
     = [repo] →
     deletedFilesInRepo repoName st' = Throws TypeError).
Proof.
  intros Hadrs Hnot st'.
  assert (HR : repoAt st' repo
               = set_deletedAdrs
                   (Some (default [] (deletedAdrs (repoAt st repo)) ++ [None]))
                   (repoAt st repo)).
  { unfold st'. rewrite deleteAdr_repoAt.
    rewrite (findIndex_not_elem adr (addedAdrs (repoAt st repo)) Hnot).
    change (0 <=? -1) with false. cbv iota.
    rewrite Hadrs, splice1_nil. cbn [fst snd lookup list_lookup].
    unfold set_deletedAdrs. by rewrite Hadrs. }
  rewrite HR. split; [done|]. split; [done|].
  intros Hr.
  destruct (deleteAdr_frame adr repo st) as (Hl & _ & _ & Hname).
  rewrite (deletedFilesInRepo_collect repoName repo st'
             (default [] (deletedAdrs (repoAt st repo)) ++ [None])).
  - rewrite fmap_app, collect_app.
    set (g := λ e : option nat, _).
    assert (Hg : ∀ l e, collect (g <$> l) = Throws e → e = TypeError).
    { induction l as [|[d|] l IH]; intros e; [done| |by intros [= <-]].
      rewrite fmap_cons. cbn [collect]. unfold g at 1.
      destruct (path (adrAt st' d)); [|by intros [= <-]].
      destruct (collect (g <$> l)) eqn:E; [done|].
      intros [= <-]. by apply IH. }
    destruct (collect (g <$> default [] (deletedAdrs (repoAt st repo))))
      as [a|e] eqn:E; [done|].
    by rewrite (Hg _ _ E).
  - unfold st'. rewrite (filter_named_ext repoName st); done.
  - by rewrite HR.
Qed.

(** Repository [0] of [store4] has no ADR left. *)
Lemma deleteAdr_without_adrs_witness :
  deletedAdrs (repoAt (deleteAdr 5%nat 0%nat Examples.store4) 0%nat)
  = Some [Some 0%nat; Some 1%nat; None]
  ∧ deletedFilesInRepo "owner/repo" (deleteAdr 5%nat 0%nat Examples.store4)
    = Throws TypeError.
Proof.
  destruct (deleteAdr_without_adrs 5%nat 0%nat "owner/repo" Examples.store4)
    as (Hdel & _ & Hthrow).
  - reflexivity.
  - vm_compute. apply not_elem_of_nil.
  - split; [exact Hdel|]. apply Hthrow. reflexivity.
Defined.

Section NewAdrListed.

Variable templateTitle : string.
Variable templateMd : string.

(** What [createNewAdr] changes, for an added repository. *)
Lemma createNewAdr_frame (repo : nat) (st : Store) :
  repo ∈ addedRepositories st →
  let st' := snd (createNewAdr templateTitle templateMd repo st) in
  ∃ ref,
    fst (createNewAdr templateTitle templateMd repo st) = Some ref
    ∧ adrObjs st !! ref = None
    ∧ addedRepositories st' = addedRepositories st
    ∧ repoAt st' repo = addAdr ref (repoAt st repo)
    ∧ (∀ r, r ≠ repo → repoAt st' r = repoAt st r)
    ∧ (∀ a, a ≠ ref → adrAt st' a = adrAt st a)
    ∧ newAdr (adrAt st' ref) = Some true
    ∧ editedMd (adrAt st' ref) = Some templateMd
    ∧ originalMd (adrAt st' ref) = Some ""
    ∧ id (adrAt st' ref)
      = Some (Js.add1 (maxId ((id ∘ adrAt st) <$> adrs (repoAt st repo))))
    ∧ path (adrAt st' ref)
      = Some ("docs/adr/"
                +:+ Js.padStart 4 "0"
                      (Js.toString
                         (Js.add1
                            (maxId ((id ∘ adrAt st)
                                      <$> adrs (repoAt st repo)))))
                +:+ "-" +:+ templateTitle +:+ ".md").
Proof.
  intros Hin st'. unfold st', createNewAdr.
  rewrite bool_decide_eq_true_2 by done.
  set (ref := fresh (dom (adrObjs st))).
  exists ref. cbn [fst snd].
  split; [done|]. split; [apply not_elem_of_dom, is_fresh|].
  split; [done|].
  split; [unfold repoAt; simpl; by rewrite lookup_insert_eq|].
  split; [intros r Hr; unfold repoAt; simpl; by rewrite lookup_insert_ne|].
  split; [intros a Ha; unfold adrAt; simpl; by rewrite lookup_insert_ne|].
  unfold adrAt. simpl. rewrite lookup_insert_eq. by simpl.
Qed.

(** X11: after [createNewAdr] the new ADR is a new file and not a
    changed one.  For the repository that the name selects,
    [newFilesInRepo] returns what it returned before, followed by the
    record of the new ADR: the template's markdown as value, the path
    under docs/adr/, the status "new".  [changedFilesInRepo] returns
    what it returned before. *)
Theorem createNewAdr_listed (repoName : string) (repo : nat) (st : Store)
    (files : list CommitFile) :
  filter (λ r, repoName = fullName (repoAt st r)) (addedRepositories st)
  = [repo] →
  newFilesInRepo repoName st = Returns files →
  let st' := snd (createNewAdr templateTitle templateMd repo st) in
  ∃ ref p,
    fst (createNewAdr templateTitle templateMd repo st) = Some ref
    ∧ path (adrAt st' ref) = Some p
    ∧ newFilesInRepo repoName st'
      = Returns (files ++ [ {| title := Js.split "/" p !! 2%nat;
                               value := Some templateMd;
                               filePath := p;
                               fileSelected := false;
                               fileStatus := "new" |} ])
    ∧ changedFilesInRepo repoName st' = changedFilesInRepo repoName st.
Proof.
  intros Hr Hfiles st'.
  assert (Hin : repo ∈ addedRepositories st).
  { assert (H : repo ∈ filter (λ r, repoName = fullName (repoAt st r))
                        (addedRepositories st))
      by (rewrite Hr; apply list_elem_of_here).
    by apply list_elem_of_filter in H as [_ ?]. }
  destruct (createNewAdr_frame repo st Hin)
    as (ref & Hret & Hfresh & Hl & HR & Hother & Hadr & Hnew & Hed & _ & _
        & Hpath).
  fold st' in Hl, HR, Hother, Hadr, Hnew, Hed, Hpath.
  assert (Hblank : adrAt st ref = blankAdr).
  { unfold adrAt. by rewrite Hfresh. }
  assert (Hr' : filter (λ r, repoName = fullName (repoAt st' r))
                       (addedRepositories st') = [repo]).
  { rewrite (filter_named_ext repoName st); [done|done|].
    intros r. destruct (decide (r = repo)) as [->|Hne].
    - by rewrite HR. - by rewrite Hother. }
  eexists ref, _.
  split; [done|]. split; [exact Hpath|]. split.
  - rewrite (newFilesInRepo_collect repoName repo st' Hr'), HR.
    rewrite (newFilesInRepo_collect repoName repo st Hr) in Hfiles.
    cbn [addAdr set_addedAdrs set_adrs addedAdrs].
    rewrite fmap_app, collect_app.
    rewrite (collect_fmap_ext _
               (λ a, dataStructureDataCommit (adrAt st a) "new")).
    + rewrite Hfiles. cbn [fmap list_fmap collect].
      unfold dataStructureDataCommit. by rewrite Hpath, Hed.
    + intros a Ha. rewrite Hadr; [done|]. intros ->.
      apply collect_fmap_Forall2 in Hfiles.
      assert (Hex : ∃ f, dataStructureDataCommit (adrAt st ref) "new"
                         = Returns f).
      { clear -Hfiles Ha. induction Hfiles as [|x y l k Hxy _ IH];
          [by apply not_elem_of_nil in Ha|].
        apply elem_of_cons in Ha as [->|Ha]; [by exists y|by apply IH]. }
      destruct Hex as [f Hf]. by rewrite Hblank in Hf.
  - unfold changedFilesInRepo at 1 2.
    rewrite !(forOfCollect_select (λ r, repoName = fullName (repoAt _ r))).
    rewrite Hr', Hr, !forOfCollect_one.
    rewrite (forOfCollect_push
               (λ a, Js.has (newAdr (adrAt st' a)) = false
                     ∧ editedMd (adrAt st' a) ≠ originalMd (adrAt st' a))
               (λ a, dataStructureDataCommit (adrAt st' a) "changed")).
    2:{ intros a acc.
        destruct (Js.has (newAdr (adrAt st' a))) eqn:Hn; cbn [negb].
        - rewrite decide_False; [done|]. by intros [? _].
        - destruct (decide (editedMd (adrAt st' a) ≠ originalMd (adrAt st' a))).
          + by rewrite decide_True.
          + rewrite decide_False; [done|]. by intros [_ ?]. }
    rewrite (forOfCollect_push
               (λ a, Js.has (newAdr (adrAt st a)) = false
                     ∧ editedMd (adrAt st a) ≠ originalMd (adrAt st a))
               (λ a, dataStructureDataCommit (adrAt st a) "changed")).
    2:{ intros a acc.
        destruct (Js.has (newAdr (adrAt st a))) eqn:Hn; cbn [negb].
        - rewrite decide_False; [done|]. by intros [? _].
        - destruct (decide (editedMd (adrAt st a) ≠ originalMd (adrAt st a))).
          + by rewrite decide_True.
          + rewrite decide_False; [done|]. by intros [_ ?]. }
    rewrite HR. cbn [addAdr set_addedAdrs set_adrs adrs].
    rewrite filter_app, filter_cons, decide_False, filter_nil, app_nil_r.
    2:{ rewrite Hnew. by intros [? _]. }
    assert (Hsame : ∀ a, a ≠ ref → adrAt st' a = adrAt st a) by exact Hadr.
    assert (Hfilter :
              filter (λ a, Js.has (newAdr (adrAt st' a)) = false
                           ∧ editedMd (adrAt st' a) ≠ originalMd (adrAt st' a))
                     (adrs (repoAt st repo))
              = filter (λ a, Js.has (newAdr (adrAt st a)) = false
                             ∧ editedMd (adrAt st a) ≠ originalMd (adrAt st a))
                       (adrs (repoAt st repo))).
    { apply list_filter_iff. intros a.
      destruct (decide (a = ref)) as [->|Hne]; [|by rewrite Hsame].
      rewrite Hnew, Hblank. simpl. split; by intros [? ?]. }
    rewrite Hfilter.
    rewrite (collect_fmap_ext
               (λ a, dataStructureDataCommit (adrAt st' a) "changed")
               (λ a, dataStructureDataCommit (adrAt st a) "changed"));
      [done|].
    intros a Ha. rewrite Hsame; [done|]. intros ->.
    apply list_elem_of_filter in Ha as [[_ Hne] _].
    by rewrite Hblank in Hne.
Qed.

End NewAdrListed.

(** In [store1] the new file of the repository is ADR [2]; the created
    ADR gets the id 4. *)
Lemma createNewAdr_listed_witness :
  newFilesInRepo "owner/repo"
    (snd (createNewAdr "title" "# title" 0%nat Examples.store1))
  = Returns [ {| title := Some "0003-a.md"; value := Some "# A";
                 filePath := "docs/adr/0003-a.md"; fileSelected := false;
                 fileStatus := "new" |};
              {| title := Some "0004-title.md"; value := Some "# title";
                 filePath := "docs/adr/0004-title.md"; fileSelected := false;
                 fileStatus := "new" |} ]
  ∧ changedFilesInRepo "owner/repo"
      (snd (createNewAdr "title" "# title" 0%nat Examples.store1))
    = changedFilesInRepo "owner/repo" Examples.store1.
Proof.
  destruct (createNewAdr_listed "title" "# title" "owner/repo" 0%nat
              Examples.store1 _ eq_refl eq_refl)
    as (ref & p & Hret & Hp & Hnew & Hchanged).
  split; [|exact Hchanged].
  rewrite Hnew. injection Hret as <-.
  vm_compute in Hp. injection Hp as <-. reflexivity.
Defined.

(** The repository object after [deleteAdr], by whether the ADR is in
    [addedAdrs]. *)
Lemma deleteAdr_repoAt_published (adr repo : nat) (st : Store) :
  adr ∈ adrs (repoAt st repo) → adr ∉ addedAdrs (repoAt st repo) →
  ∃ i, adrs (repoAt st repo) !! i = Some adr
       ∧ repoAt (deleteAdr adr repo st) repo
         = {| fullName := fullName (repoAt st repo);
              activeBranch := activeBranch (repoAt st repo);
              branches := branches (repoAt st repo);
              adrs := delete i (adrs (repoAt st repo));
              addedAdrs := addedAdrs (repoAt st repo);
              deletedAdrs :=
                Some (default [] (deletedAdrs (repoAt st repo))
                        ++ [Some adr]) |}.
Proof.
  intros Hin Hnot. rewrite deleteAdr_repoAt.
  destruct (findIndex_elem adr _ Hin) as (i & Hi & _ & ->).
  rewrite (findIndex_not_elem adr _ Hnot), (splice1_at _ _ _ Hi).
  change (0 <=? -1) with false. by exists i.
Qed.

Lemma deleteAdr_repoAt_unpublished (adr repo : nat) (st : Store) :
  adr ∈ adrs (repoAt st repo) → adr ∈ addedAdrs (repoAt st repo) →
  ∃ i k, adrs (repoAt st repo) !! i = Some adr
         ∧ addedAdrs (repoAt st repo) !! k = Some adr
         ∧ (∀ j, (j < k)%nat → addedAdrs (repoAt st repo) !! j ≠ Some adr)
         ∧ repoAt (deleteAdr adr repo st) repo
           = {| fullName := fullName (repoAt st repo);
                activeBranch := activeBranch (repoAt st repo);
                branches := branches (repoAt st repo);
                adrs := delete i (adrs (repoAt st repo));
                addedAdrs := delete k (addedAdrs (repoAt st repo));
                deletedAdrs :=
                  Some (default [] (deletedAdrs (repoAt st repo))) |}.
Proof.
  intros Hin Hadded. rewrite deleteAdr_repoAt.
  destruct (findIndex_elem adr _ Hin) as (i & Hi & _ & ->).
  destruct (findIndex_elem adr _ Hadded) as (k & Hk & Hfirst & ->).
  rewrite (splice1_at _ _ _ Hi), (splice1_at _ _ _ Hk).
  replace (0 <=? Z.of_nat k) with true by (symmetry; apply Z.leb_le; lia).
  by exists i, k.
Qed.

Lemma deleteAdr_named (adr repo : nat) (repoName : string) (st : Store) :
  filter (λ r, repoName = fullName (repoAt (deleteAdr adr repo st) r))
         (addedRepositories (deleteAdr adr repo st))
  = filter (λ r, repoName = fullName (repoAt st r)) (addedRepositories st).
Proof.
  destruct (deleteAdr_frame adr repo st) as (Hl & _ & _ & Hname).
  by apply filter_named_ext.
Qed.

Lemma deleteAdr_adrAt (adr repo : nat) (st : Store) (a : nat) :
  adrAt (deleteAdr adr repo st) a = adrAt st a.
Proof.
  destruct (deleteAdr_frame adr repo st) as (_ & Hobj & _).
  unfold adrAt. by rewrite Hobj.
Qed.

(** X12: deleting a published ADR (one of [adrs] that is not in
    [addedAdrs]) marks it for deletion: [deletedFilesInRepo] returns
    what it returned before, followed by the record of the ADR's path.
    Where [deletedAdrs] was missing, and the listing threw for that, it
    now returns that record alone.  [newFilesInRepo] returns what it
    returned before. *)
Theorem deleteAdr_published_listed (adr repo : nat) (repoName p : string)
    (st : Store) :
  filter (λ r, repoName = fullName (repoAt st r)) (addedRepositories st)
  = [repo] →
  adr ∈ adrs (repoAt st repo) → adr ∉ addedAdrs (repoAt st repo) →
  path (adrAt st adr) = Some p →
  let st' := deleteAdr adr repo st in
  let record := {| title := Js.split "/" p !! 2%nat; value := None;
                   filePath := p; fileSelected := false;
                   fileStatus := "deleted" |} in
  (deletedAdrs (repoAt st repo) = None →
   deletedFilesInRepo repoName st = Throws TypeError
   ∧ deletedFilesInRepo repoName st' = Returns [record])
  ∧ (∀ files, deletedFilesInRepo repoName st = Returns files →
              deletedFilesInRepo repoName st' = Returns (files ++ [record]))
  ∧ newFilesInRepo repoName st' = newFilesInRepo repoName st.
Proof.
  intros Hr Hin Hnot Hp st' record.
  destruct (deleteAdr_repoAt_published adr repo st Hin Hnot) as (i & Hi & HR).
  fold st' in HR.
  assert (Hr' : filter (λ r, repoName = fullName (repoAt st' r))
                       (addedRepositories st') = [repo]).
  { unfold st'. by rewrite deleteAdr_named. }
  set (g := λ st0 (e : option nat),
              match e with
              | None => Throws TypeError
              | Some d =>
                  match path (adrAt st0 d) with
                  | None => Throws TypeError
                  | Some p =>
                      Returns {| filePath := p; title := Js.split "/" p !! 2%nat;
                                 value := None; fileSelected := false;
                                 fileStatus := "deleted" |}
                  end
              end).
  assert (Hafter : deletedFilesInRepo repoName st'
                   = collect (g st <$> (default [] (deletedAdrs (repoAt st repo))
                                          ++ [Some adr]))).
  { rewrite (deletedFilesInRepo_collect repoName repo st'
               (default [] (deletedAdrs (repoAt st repo)) ++ [Some adr]) Hr');
      [|by rewrite HR].
    apply collect_fmap_ext. intros [d|] _; [|done]. simpl.
    unfold st'. by rewrite deleteAdr_adrAt. }
  rewrite Hafter, fmap_app, collect_app.
  assert (Hlast : collect (g st <$> [Some adr]) = Returns [record]).
  { simpl. by rewrite Hp. }
  rewrite Hlast.
  split; [|split].
  - intros Hnone. rewrite Hnone. split; [|done].
    unfold deletedFilesInRepo.
    rewrite (forOfCollect_select (λ r, repoName = fullName (repoAt st r))).
    by rewrite Hr, forOfCollect_one, Hnone.
  - intros files Hfiles.
    destruct (deletedAdrs (repoAt st repo)) as [deleted|] eqn:Hdel.
    + rewrite (deletedFilesInRepo_collect repoName repo st deleted Hr Hdel)
        in Hfiles.
      simpl. fold (g st). unfold g in Hfiles |- *. by rewrite Hfiles.
    + unfold deletedFilesInRepo in Hfiles.
      rewrite (forOfCollect_select (λ r, repoName = fullName (repoAt st r)))
        in Hfiles.
      by rewrite Hr, forOfCollect_one, Hdel in Hfiles.
  - rewrite (newFilesInRepo_collect repoName repo st' Hr').
    rewrite (newFilesInRepo_collect repoName repo st Hr), HR. simpl.
    apply collect_fmap_ext. intros a _. unfold st'.
    by rewrite deleteAdr_adrAt.
Qed.

(** In [store1] ADR [1] is published. *)
Lemma deleteAdr_published_listed_witness :
  deletedFilesInRepo "owner/repo" (deleteAdr 1%nat 0%nat Examples.store1)
  = Returns [ {| title := Some "0001-y.md"; value := None;
                 filePath := "docs/adr/0001-y.md"; fileSelected := false;
                 fileStatus := "deleted" |} ].
Proof.
  destruct (deleteAdr_published_listed 1%nat 0%nat "owner/repo"
              "docs/adr/0001-y.md" Examples.store1)
    as (_ & Hfiles & _).
  - reflexivity.
  - apply (bool_decide_unpack _). vm_compute. exact I.
  - apply (bool_decide_unpack _). vm_compute. exact I.
  - reflexivity.
  - exact (Hfiles [] eq_refl).
Defined.

Lemma collect_delete {A} (l : list (outcome A)) (ys : list A) (k : nat) :
  collect l = Returns ys → collect (delete k l) = Returns (delete k ys).
Proof.
  rewrite !collect_Returns. intros ->. by rewrite list_fmap_delete.
Qed.

(** X13: deleting an ADR that was never published (one of [adrs] that
    is in [addedAdrs]) discards it: the record at its place in
    [addedAdrs] is gone from what [newFilesInRepo] returns, and
    [deletedFilesInRepo] returns what it returned before. *)
Theorem deleteAdr_unpublished_listed (adr repo : nat) (repoName : string)
    (st : Store) (files : list CommitFile) :
  filter (λ r, repoName = fullName (repoAt st r)) (addedRepositories st)
  = [repo] →
  adr ∈ adrs (repoAt st repo) → adr ∈ addedAdrs (repoAt st repo) →
  newFilesInRepo repoName st = Returns files →
  let st' := deleteAdr adr repo st in
  (∃ k, addedAdrs (repoAt st repo) !! k = Some adr
        ∧ (∀ j, (j < k)%nat → addedAdrs (repoAt st repo) !! j ≠ Some adr)
        ∧ newFilesInRepo repoName st' = Returns (delete k files))
  ∧ (∀ deleted, deletedFilesInRepo repoName st = Returns deleted →
                deletedFilesInRepo repoName st' = Returns deleted).
Proof.
  intros Hr Hin Hadded Hfiles st'.
  destruct (deleteAdr_repoAt_unpublished adr repo st Hin Hadded)
    as (i & k & Hi & Hk & Hfirst & HR).
  fold st' in HR.
  assert (Hr' : filter (λ r, repoName = fullName (repoAt st' r))
                       (addedRepositories st') = [repo]).
  { unfold st'. by rewrite deleteAdr_named. }
  split.
  - exists k. split; [done|]. split; [done|].
    rewrite (newFilesInRepo_collect repoName repo st' Hr'), HR. simpl.
    rewrite (newFilesInRepo_collect repoName repo st Hr) in Hfiles.
    rewrite (collect_fmap_ext _
               (λ a, dataStructureDataCommit (adrAt st a) "new")).
    + rewrite list_fmap_delete. by apply collect_delete.
    + intros a _. unfold st'. by rewrite deleteAdr_adrAt.
  - intros deleted Hdeleted.
    destruct (deletedAdrs (repoAt st repo)) as [l|] eqn:Hdel.
    + rewrite (deletedFilesInRepo_collect repoName repo st l Hr Hdel)
        in Hdeleted.
      rewrite (deletedFilesInRepo_collect repoName repo st' l Hr');
        [|by rewrite HR].
      rewrite <- Hdeleted. apply collect_fmap_ext.
      intros [d|] _; [|done]. unfold st'. by rewrite deleteAdr_adrAt.
    + unfold deletedFilesInRepo in Hdeleted.
      rewrite (forOfCollect_select (λ r, repoName = fullName (repoAt st r)))
        in Hdeleted.
      by rewrite Hr, forOfCollect_one, Hdel in Hdeleted.
Qed.

(** In [store1] ADR [2] is the one new file. *)
Lemma deleteAdr_unpublished_listed_witness :
  newFilesInRepo "owner/repo" (deleteAdr 2%nat 0%nat Examples.store1)
  = Returns []
  ∧ deletedFilesInRepo "owner/repo" (deleteAdr 2%nat 0%nat Examples.store1)
    = Returns [].
Proof.
  destruct (deleteAdr_unpublished_listed 2%nat 0%nat "owner/repo"
              Examples.store1
              [ {| title := Some "0003-a.md"; value := Some "# A";
                   filePath := "docs/adr/0003-a.md"; fileSelected := false;
                   fileStatus := "new" |} ])
    as ((k & Hk & _ & Hnew) & Hdel).
  - reflexivity.
  - apply (bool_decide_unpack _). vm_compute. exact I.
  - apply (bool_decide_unpack _). vm_compute. exact I.
  - reflexivity.
  - split; [|exact (Hdel [] eq_refl)].
    rewrite Hnew. destruct k as [|k]; [reflexivity|].
    vm_compute in Hk. destruct k; discriminate.
Defined.

(** ** updateLocalStorageAfterCommit, the changed type *)

Lemma rebased_refl (st : Store) : rebased st st.
Proof.
  unfold rebased. repeat (split; [done|]). by left.
Qed.

Lemma rebased_trans (st1 st2 st3 : Store) :
  rebased st1 st2 → rebased st2 st3 → rebased st1 st3.
Proof.
  intros (H1 & H2 & H3 & H4 & H5 & H6) (K1 & K2 & K3 & K4 & K5 & K6).
  unfold rebased. repeat (split; [congruence|]). intros a.
  destruct (H6 a) as (Hp & He & Hn & Hi & Ho).
  destruct (K6 a) as (Kp & Ke & Kn & Ki & Ko).
  repeat (split; [congruence|]).
  destruct Ko as [Ko|Ko]; [destruct Ho; [left|right]; congruence|].
  right. congruence.
Qed.

Lemma rebased_repoAt (st st' : Store) (r : nat) :
  rebased st st' → repoAt st' r = repoAt st r.
Proof. intros (H & _). unfold repoAt. by rewrite H. Qed.

(** An ADR whose baseline is its edited text stays so. *)
Lemma rebased_settled (st st' : Store) (a : nat) :
  rebased st st' →
  originalMd (adrAt st a) = editedMd (adrAt st a) →
  originalMd (adrAt st' a) = editedMd (adrAt st' a).
Proof.
  intros (_ & _ & _ & _ & _ & H) Hs.
  destruct (H a) as (_ & He & _ & _ & [Ho|Ho]); congruence.
Qed.

Lemma adrAt_writeAdr (st : Store) (e a : nat) (o : Adr) :
  adrAt (writeAdr e o st) a = if decide (e = a) then o else adrAt st a.
Proof.
  unfold adrAt at 1. simpl. destruct (decide (e = a)) as [->|Hne].
  - by rewrite lookup_insert_eq.
  - by rewrite lookup_insert_ne.
Qed.

Lemma rebased_write (st : Store) (e : nat) :
  rebased st
    (writeAdr e (set_originalMd (editedMd (adrAt st e)) (adrAt st e)) st)
  ∧ originalMd
      (adrAt (writeAdr e (set_originalMd (editedMd (adrAt st e)) (adrAt st e))
                st) e)
    = editedMd (adrAt st e).
Proof.
  split.
  - unfold rebased. repeat (split; [done|]). intros a.
    rewrite adrAt_writeAdr.
    destruct (decide (e = a)) as [->|Hne].
    + simpl. repeat (split; [done|]). by right.
    + repeat (split; [done|]). by left.
  - rewrite adrAt_writeAdr. by rewrite decide_True.
Qed.

(** The inner loop of the changed type over the ADRs of a repository. *)
Lemma changed_adrs_loop (p : string) (l : list nat) (st : Store) :
  ∃ st', forOf l
           (λ repoEntry st,
              if decide (Some p = path (adrAt st repoEntry)) then
                (Returns tt,
                 writeAdr repoEntry
                   (set_originalMd (editedMd (adrAt st repoEntry))
                      (adrAt st repoEntry)) st)
              else (Returns tt, st))
           st = (Returns tt, st')
         ∧ rebased st st'
         ∧ ∀ e, e ∈ l → path (adrAt st e) = Some p →
                originalMd (adrAt st' e) = editedMd (adrAt st' e).
Proof.
  revert st. induction l as [|x l IH]; intros st.
  - exists st. split; [done|]. split; [apply rebased_refl|].
    intros e He. by apply not_elem_of_nil in He.
  - cbn [forOf]. cbv beta zeta.
    set (st1 := if decide (Some p = path (adrAt st x)) then
                  writeAdr x
                    (set_originalMd (editedMd (adrAt st x)) (adrAt st x)) st
                else st).
    assert (Hstep : (if decide (Some p = path (adrAt st x)) then
                       (Returns tt,
                        writeAdr x
                          (set_originalMd (editedMd (adrAt st x)) (adrAt st x))
                          st)
                     else (Returns tt, st))
                    = (Returns tt, st1)).
    { unfold st1. by destruct (decide _). }
    rewrite Hstep.
    assert (H1 : rebased st st1
                 ∧ (path (adrAt st x) = Some p →
                    originalMd (adrAt st1 x) = editedMd (adrAt st1 x))).
    { unfold st1. destruct (decide _) as [Hp|Hp].
      - destruct (rebased_write st x) as [Hr Ho]. split; [done|]. intros _.
        rewrite Ho. destruct Hr as (_ & _ & _ & _ & _ & Hr).
        by destruct (Hr x) as (_ & -> & _).
      - split; [apply rebased_refl|]. intros Hx. by rewrite Hx in Hp. }
    destruct H1 as [Hr1 Hx].
    destruct (IH st1) as (st' & Hrun & Hr' & Hall).
    exists st'. split; [done|]. split; [by eapply rebased_trans|].
    intros e He Hp.
    destruct (decide (e = x)) as [->|Hne].
    + eapply rebased_settled; [exact Hr'|by apply Hx].
    + apply elem_of_cons in He as [->|He]; [done|].
      apply Hall; [done|].
      destruct Hr1 as (_ & _ & _ & _ & _ & Hr1).
      destruct (Hr1 e) as (-> & _). done.
Qed.

(** The handler of the changed type. *)
Lemma handleUpdateLocalStorageChanged_rebased (file : PushedFile)
    (repoName : string) (st : Store) :
  ∃ st', handleUpdateLocalStorageChanged file repoName st = (Returns tt, st')
         ∧ rebased st st'
         ∧ ∀ e, e ∈ adrsNamed repoName st →
                path (adrAt st e) = Some (pushedPath file) →
                originalMd (adrAt st' e) = editedMd (adrAt st' e).
Proof.
  unfold handleUpdateLocalStorageChanged, adrsNamed. cbv zeta.
  generalize (addedRepositories st) as repos.
  intros repos.
  cut (∀ st0, rebased st st0 →
         ∃ st',
           forOf repos
             (λ repo st,
                if decide (repoName = fullName (repoAt st repo)) then
                  forOf (adrs (repoAt st repo))
                    (λ repoEntry st,
                       if decide (Some (pushedPath file)
                                    = path (adrAt st repoEntry)) then
                         (Returns tt,
                          writeAdr repoEntry
                            (set_originalMd (editedMd (adrAt st repoEntry))
                               (adrAt st repoEntry)) st)
                       else (Returns tt, st))
                    st
                else (Returns tt, st))
             st0 = (Returns tt, st')
           ∧ rebased st0 st'
           ∧ ∀ e, e ∈ (r ← filter (λ repo, repoName
                                             = fullName (repoAt st repo))
                                   repos;
                       adrs (repoAt st r)) →
                  path (adrAt st e) = Some (pushedPath file) →
                  originalMd (adrAt st' e) = editedMd (adrAt st' e)).
  { intros H. destruct (H st (rebased_refl st)) as (st' & ? & ? & ?).
    by exists st'. }
  induction repos as [|r repos IH]; intros st0 Hr0.
  - exists st0. split; [done|]. split; [apply rebased_refl|].
    intros e He. by apply not_elem_of_nil in He.
  - cbn [forOf]. cbv beta. rewrite (rebased_repoAt st st0 r Hr0).
    rewrite filter_cons.
    destruct (decide (repoName = fullName (repoAt st r))) as [Hn|Hn].
    + destruct (changed_adrs_loop (pushedPath file) (adrs (repoAt st r)) st0)
        as (st1 & Hrun1 & Hr1 & Hall1).
      rewrite Hrun1.
      destruct (IH st1 (rebased_trans _ _ _ Hr0 Hr1))
        as (st' & Hrun & Hr' & Hall).
      exists st'. split; [done|]. split; [by eapply rebased_trans|].
      intros e He Hp. cbn [mbind list_bind] in He.
      apply elem_of_app in He as [He|He]; [|by apply Hall].
      eapply rebased_settled; [exact Hr'|]. apply Hall1; [done|].
      destruct Hr0 as (_ & _ & _ & _ & _ & Hr0).
      destruct (Hr0 e) as (-> & _). done.
    + destruct (IH st0 Hr0) as (st' & Hrun & Hr' & Hall).
      exists st'. split; [exact Hrun|]. split; [exact Hr'|]. exact Hall.
Qed.

Lemma rebased_adrsNamed (repoName : string) (st st' : Store) :
  rebased st st' → adrsNamed repoName st' = adrsNamed repoName st.
Proof.
  intros Hr. unfold adrsNamed.
  destruct Hr as (Hrepo & -> & _).
  assert (Hat : ∀ r, repoAt st' r = repoAt st r).
  { intros r. unfold repoAt. by rewrite Hrepo. }
  induction (addedRepositories st) as [|r l IH]; [done|].
  rewrite !filter_cons, Hat.
  destruct (decide _); [|exact IH].
  rewrite !bind_cons, Hat. by f_equal.
Qed.

(** An outer loop whose body collects the results of [h] over the
    elements that [g] gives. *)
Lemma forOfCollect_bind {A B C} (g : A → list C) (h : C → outcome B)
    (inner : A → list B → outcome (list B)) (l : list A) (acc : list B) :
  (∀ x acc, inner x acc
            = match collect (h <$> g x) with
              | Returns ys => Returns (acc ++ ys)
              | Throws e => Throws e
              end) →
  forOfCollect l inner acc
  = match collect (h <$> (l ≫= g)) with
    | Returns ys => Returns (acc ++ ys)
    | Throws e => Throws e
    end.
Proof.
  intros Hin. revert acc. induction l as [|x l IH]; intros acc.
  - simpl. by rewrite app_nil_r.
  - cbn [forOfCollect]. rewrite bind_cons, Hin, fmap_app, collect_app.
    destruct (collect (h <$> g x)) as [ys|e]; [|done].
    rewrite IH. destruct (collect _); [|done]. by rewrite app_assoc.
Qed.

(** [changedFilesInRepo] whatever the number of repositories that have
    the name: the loops visit them in order. *)
Lemma changedFilesInRepo_named (repoName : string) (st : Store) :
  changedFilesInRepo repoName st
  = collect
      ((λ a, dataStructureDataCommit (adrAt st a) "changed")
         <$> (filter (λ repo, repoName = fullName (repoAt st repo))
                     (addedRepositories st)
              ≫= λ r, filter (λ a, Js.has (newAdr (adrAt st a)) = false
                                    ∧ editedMd (adrAt st a)
                                      ≠ originalMd (adrAt st a))
                             (adrs (repoAt st r)))).
Proof.
  unfold changedFilesInRepo.
  rewrite (forOfCollect_select
             (λ repo, repoName = fullName (repoAt st repo))).
  rewrite (forOfCollect_bind
             (λ r, filter (λ a, Js.has (newAdr (adrAt st a)) = false
                                ∧ editedMd (adrAt st a)
                                  ≠ originalMd (adrAt st a))
                          (adrs (repoAt st r)))
             (λ a, dataStructureDataCommit (adrAt st a) "changed")).
  - by destruct (collect _).
  - intros r acc.
    apply (forOfCollect_push
             (λ a, Js.has (newAdr (adrAt st a)) = false
                   ∧ editedMd (adrAt st a) ≠ originalMd (adrAt st a))
             (λ a, dataStructureDataCommit (adrAt st a) "changed")).
    intros a acc'.
    destruct (Js.has (newAdr (adrAt st a))) eqn:Hnew; cbn [negb].
    + rewrite decide_False; [done|]. by intros [? _].
    + destruct (decide (editedMd (adrAt st a) ≠ originalMd (adrAt st a))).
      * by rewrite decide_True.
      * rewrite decide_False; [done|]. by intros [_ ?].
Qed.

Lemma Forall2_elem_of_l {A B} (R : A → B → Prop) (xs : list A)
    (ys : list B) (x : A) :
  Forall2 R xs ys → x ∈ xs → ∃ y, y ∈ ys ∧ R x y.
Proof.
  induction 1 as [|x' y xs ys HR _ IH]; intros Hx.
  - by apply not_elem_of_nil in Hx.
  - apply elem_of_cons in Hx as [->|Hx].
    + exists y. split; [apply list_elem_of_here|done].
    + destruct (IH Hx) as (y' & Hy' & HR'). exists y'.
      split; [by apply list_elem_of_further|done].
Qed.

(** A batch of the changed type. *)
Lemma changed_batch (repoName : string) (files : list CommitFile)
    (st : Store) :
  ∃ st',
    forOf (pushedAs "changed" files)
      (λ file st,
         if decide (pushedType file = "new") then
           handleUpdateLocalStorageNew file repoName st
         else if decide (pushedType file = "changed") then
           handleUpdateLocalStorageChanged file repoName st
         else if decide (pushedType file = "deleted") then
           handleUpdateLocalStorageDeleted file repoName st
         else (Returns tt, st))
      st = (Returns tt, st')
    ∧ rebased st st'
    ∧ ∀ e file, e ∈ adrsNamed repoName st → file ∈ files →
                path (adrAt st e) = Some (filePath file) →
                originalMd (adrAt st' e) = editedMd (adrAt st' e).
Proof.
  revert st. induction files as [|f files IH]; intros st.
  - exists st. split; [done|]. split; [apply rebased_refl|].
    intros e file _ Hf. by apply not_elem_of_nil in Hf.
  - unfold pushedAs. rewrite fmap_cons. cbn [forOf]. cbv beta.
    cbn [pushedType].
    rewrite (decide_False (P := "changed" = "new")) by discriminate.
    rewrite (decide_True (P := "changed" = "changed")) by reflexivity.
    destruct (handleUpdateLocalStorageChanged_rebased
                {| pushedType := "changed"; pushedPath := filePath f |}
                repoName st) as (st1 & -> & Hr1 & Hall1).
    destruct (IH st1) as (st' & Hrun & Hr' & Hall).
    exists st'. split; [exact Hrun|]. split; [by eapply rebased_trans|].
    intros e file He Hf Hp.
    apply elem_of_cons in Hf as [->|Hf].
    + eapply rebased_settled; [exact Hr'|]. by apply Hall1.
    + apply (Hall e file); [by rewrite (rebased_adrsNamed _ _ _ Hr1)|done|].
      destruct Hr1 as (_ & _ & _ & _ & _ & Hr1).
      destruct (Hr1 e) as (-> & _). done.
Qed.

(** X14: when [changedFilesInRepo] lists [files] for a repository name
    and [updateLocalStorageAfterCommit] is told that exactly these were
    pushed as changed, it returns, and afterwards [changedFilesInRepo]
    lists nothing for that name: every listed ADR has its edited text as
    its baseline.  The lists of the repositories, the pointers and the
    paths, edited texts, ids and [newAdr] keys of all ADRs are as
    before. *)
Theorem commit_changed_clears (repoName : string) (files : list CommitFile)
    (st : Store) :
  changedFilesInRepo repoName st = Returns files →
  let run :=
    updateLocalStorageAfterCommit (pushedAs "changed" files) repoName st in
  fst run = Returns tt
  ∧ changedFilesInRepo repoName (snd run) = Returns []
  ∧ rebased st (snd run).
Proof.
  intros Hret run.
  destruct (changed_batch repoName files st) as (st1 & Hrun & Hr & Hall).
  assert (Hsnd : run = (Returns tt, updateLocalStorageRepositories st1)).
  { unfold run, updateLocalStorageAfterCommit. by rewrite Hrun. }
  rewrite Hsnd. cbn [fst snd].
  assert (Hr' : rebased st (updateLocalStorageRepositories st1)).
  { eapply rebased_trans; [exact Hr|].
    unfold rebased. repeat (split; [done|]). by left. }
  split; [done|]. split; [|exact Hr'].
  rewrite changedFilesInRepo_named in Hret.
  apply collect_fmap_Forall2 in Hret.
  rewrite changedFilesInRepo_named.
  set (st2 := updateLocalStorageRepositories st1) in *.
  destruct (filter (λ repo, repoName = fullName (repoAt st2 repo))
                   (addedRepositories st2)
            ≫= λ r, filter (λ a, Js.has (newAdr (adrAt st2 a)) = false
                                  ∧ editedMd (adrAt st2 a)
                                    ≠ originalMd (adrAt st2 a))
                           (adrs (repoAt st2 r))) as [|a l] eqn:El; [done|].
  exfalso.
  assert (Ha : a ∈ a :: l) by apply list_elem_of_here.
  rewrite <- El in Ha.
  apply list_elem_of_bind in Ha as (r & Ha & Hrin).
  apply list_elem_of_filter in Ha as ((Hnew & Hdiff) & Ha).
  assert (Hnamed : a ∈ adrsNamed repoName st2).
  { unfold adrsNamed. apply list_elem_of_bind. by exists r. }
  rewrite (rebased_adrsNamed _ _ _ Hr') in Hnamed.
  pose proof Hr' as (_ & _ & _ & _ & _ & Hobj).
  destruct (Hobj a) as (Hp & He & Hn & _ & Ho).
  apply Hdiff. rewrite He.
  destruct (decide (editedMd (adrAt st a) = originalMd (adrAt st a)))
    as [Hsame|Hchanged].
  - destruct Ho as [->| ->]; congruence.
  - assert (Hlisted :
      a ∈ filter (λ repo, repoName = fullName (repoAt st repo))
                 (addedRepositories st)
          ≫= λ r, filter (λ a, Js.has (newAdr (adrAt st a)) = false
                                ∧ editedMd (adrAt st a)
                                  ≠ originalMd (adrAt st a))
                         (adrs (repoAt st r))).
    { unfold adrsNamed in Hnamed.
      apply list_elem_of_bind in Hnamed as (r0 & Ha0 & Hr0).
      apply list_elem_of_bind. exists r0. split; [|done].
      apply list_elem_of_filter. split; [|done].
      split; [by rewrite <- Hn|done]. }
    destruct (Forall2_elem_of_l _ _ _ _ Hret Hlisted) as (file & Hfile & Hds).
    apply dataStructureDataCommit_Returns in Hds as (p & Hpath & ->).
    rewrite <- He.
    symmetry. unfold st2.
    assert (Hs1 : originalMd (adrAt st1 a) = editedMd (adrAt st1 a)).
    { eapply Hall; [done|exact Hfile|done]. }
    exact Hs1.
Qed.

(** [store1] lists one changed file for owner/repo; after the commit of
    that file it lists none. *)
Lemma commit_changed_clears_witness :
  ∃ file,
    changedFilesInRepo "owner/repo" Examples.store1 = Returns [file]
    ∧ let run :=
        updateLocalStorageAfterCommit (pushedAs "changed" [file])
          "owner/repo" Examples.store1 in
      fst run = Returns tt
      ∧ changedFilesInRepo "owner/repo" (snd run) = Returns []
      ∧ rebased Examples.store1 (snd run).
Proof.
  eexists. split; [vm_compute; reflexivity|].
  apply (commit_changed_clears "owner/repo" _ Examples.store1).
  vm_compute. reflexivity.
Defined.

(** ** updateLocalStorageAfterCommit, the deleted type *)

Lemma repoAt_writeRepo (st : Store) (r r' : nat) (o : Repository) :
  repoAt (writeRepo r o st) r' = if decide (r = r') then o else repoAt st r'.
Proof.
  unfold repoAt at 1. simpl. destruct (decide (r = r')) as [->|Hne].
  - by rewrite lookup_insert_eq.
  - by rewrite lookup_insert_ne.
Qed.

(** A batch of the deleted type, for the one repository that has the
    name, when the ADRs of [deletedAdrs] have paths that differ: what
    stays in [deletedAdrs] are the ADRs whose path is not in the
    batch. *)
Lemma deleted_batch (repoName : string) (r : nat) (files : list CommitFile) :
  ∀ (st : Store) (deleted : list nat),
    filter (λ repo, repoName = fullName (repoAt st repo))
           (addedRepositories st) = [r] →
    deletedAdrs (repoAt st r) = Some (Some <$> deleted) →
    NoDup ((path ∘ adrAt st) <$> deleted) →
    ∃ st',
      forOf (pushedAs "deleted" files)
        (λ file st,
           if decide (pushedType file = "new") then
             handleUpdateLocalStorageNew file repoName st
           else if decide (pushedType file = "changed") then
             handleUpdateLocalStorageChanged file repoName st
           else if decide (pushedType file = "deleted") then
             handleUpdateLocalStorageDeleted file repoName st
           else (Returns tt, st))
        st = (Returns tt, st')
      ∧ adrObjs st' = adrObjs st
      ∧ addedRepositories st' = addedRepositories st
      ∧ currentRepository st' = currentRepository st
      ∧ currentlyEditedAdr st' = currentlyEditedAdr st
      ∧ emitted st' = emitted st
      ∧ (∀ r', r' ≠ r → repoAt st' r' = repoAt st r')
      ∧ repoAt st' r
        = set_deletedAdrs
            (Some (Some <$>
                     filter (λ d, path (adrAt st d)
                                    ∉ (Some ∘ filePath) <$> files)
                            deleted))
            (repoAt st r).
Proof.
  induction files as [|f files IH]; intros st deleted Hr Hdel Hnd.
  - exists st. repeat (split; [done|]).
    rewrite filter_all by (intros; apply not_elem_of_nil).
    rewrite <- Hdel. by destruct (repoAt st r).
  - unfold pushedAs. rewrite fmap_cons. cbn [forOf]. cbv beta.
    cbn [pushedType].
    rewrite (decide_False (P := "deleted" = "new")) by discriminate.
    rewrite (decide_False (P := "deleted" = "changed")) by discriminate.
    rewrite (decide_True (P := "deleted" = "deleted")) by reflexivity.
    pose proof (NoDup_fmap_1 _ _ Hnd) as Hnd'.
    rewrite (handleUpdateLocalStorageDeleted_kept _ repoName r st deleted
               Hr Hdel Hnd').
    cbn [pushedPath].
    rewrite keepAfterRemoval_unique; [|exact Hnd'|].
    2:{ intros x y Hx Hy Hpx Hpy.
        apply bool_decide_eq_true in Hpx, Hpy.
        apply (NoDup_fmap_eq (path ∘ adrAt st) deleted); [done..|].
        simpl. congruence. }
    set (deleted1 :=
           filter (λ d, bool_decide (Some (filePath f) = path (adrAt st d))
                        = false) deleted).
    set (st1 := writeRepo r
                  (set_deletedAdrs (Some (Some <$> deleted1)) (repoAt st r))
                  st).
    assert (Hname : ∀ r0, fullName (repoAt st1 r0) = fullName (repoAt st r0)).
    { intros r0. unfold st1. rewrite repoAt_writeRepo.
      by destruct (decide (r = r0)) as [->|]. }
    destruct (IH st1 deleted1) as (st' & Hrun & Ha & Hl & Hc & He & Hev & Ho & HR).
    + rewrite <- Hr. by apply filter_named_ext.
    + unfold st1. rewrite repoAt_writeRepo, decide_True by done. done.
    + apply (NoDup_fmap_filter (path ∘ adrAt st)). exact Hnd.
    + exists st'. split; [exact Hrun|]. repeat (split; [done|]).
      split.
      * intros r' Hr'. rewrite Ho by done. unfold st1.
        rewrite repoAt_writeRepo. by rewrite decide_False.
      * assert (HR1 : repoAt st1 r
                      = set_deletedAdrs (Some (Some <$> deleted1))
                          (repoAt st r)).
        { unfold st1. by rewrite repoAt_writeRepo, decide_True. }
        rewrite HR, HR1.
        unfold set_deletedAdrs. simpl. do 3 f_equal.
        unfold deleted1. rewrite list_filter_filter.
        apply list_filter_iff. intros d.
        change (path (adrAt st1 d)) with (path (adrAt st d)).
        fold (fmap (M := list) (Some ∘ filePath) files).
        rewrite not_elem_of_cons.
        split.
        -- intros [H1 H2]. apply bool_decide_eq_false in H2.
           split; [congruence|exact H1].
        -- intros [H1 H2]. split; [exact H2|].
           apply bool_decide_eq_false. congruence.
Qed.

(** X15: the deleted type, for the one repository that has the name,
    when the ADRs of [deletedAdrs] have paths that differ.  When
    [deletedFilesInRepo] returns [files] and
    [updateLocalStorageAfterCommit] is told that exactly these were
    pushed as deleted, it returns, [deletedAdrs] of the repository is
    empty afterwards, and [deletedFilesInRepo] returns the empty list.
    Nothing else changes in the repository, the other repositories, the
    ADRs and the list. *)
Theorem commit_deleted_clears (repoName : string) (r : nat)
    (deleted : list nat) (files : list CommitFile) (st : Store) :
  filter (λ repo, repoName = fullName (repoAt st repo)) (addedRepositories st)
  = [r] →
  deletedAdrs (repoAt st r) = Some (Some <$> deleted) →
  NoDup ((path ∘ adrAt st) <$> deleted) →
  deletedFilesInRepo repoName st = Returns files →
  let run :=
    updateLocalStorageAfterCommit (pushedAs "deleted" files) repoName st in
  fst run = Returns tt
  ∧ repoAt (snd run) r = set_deletedAdrs (Some []) (repoAt st r)
  ∧ (∀ r', r' ≠ r → repoAt (snd run) r' = repoAt st r')
  ∧ adrObjs (snd run) = adrObjs st
  ∧ addedRepositories (snd run) = addedRepositories st
  ∧ deletedFilesInRepo repoName (snd run) = Returns [].
Proof.
  intros Hr Hdel Hnd Hfiles run.
  destruct (deleted_batch repoName r files st deleted Hr Hdel Hnd)
    as (st1 & Hrun & Ha & Hl & _ & _ & _ & Ho & HR).
  assert (Hsnd : run = (Returns tt, updateLocalStorageRepositories st1)).
  { unfold run, updateLocalStorageAfterCommit. by rewrite Hrun. }
  rewrite Hsnd. cbn [fst snd].
  set (st2 := updateLocalStorageRepositories st1).
  assert (Hat : ∀ r', repoAt st2 r' = repoAt st1 r') by done.
  assert (Hnone : filter (λ d, path (adrAt st d)
                                 ∉ (Some ∘ filePath) <$> files) deleted = []).
  { rewrite (deletedFilesInRepo_collect repoName r st (Some <$> deleted))
      in Hfiles by done.
    apply collect_fmap_Forall2 in Hfiles.
    destruct (filter _ deleted) as [|d l] eqn:El; [done|]. exfalso.
    assert (Hd : d ∈ d :: l) by apply list_elem_of_here.
    rewrite <- El in Hd. apply list_elem_of_filter in Hd as [Hnot Hd].
    assert (Hin : Some d ∈ Some <$> deleted)
      by (apply list_elem_of_fmap; by exists d).
    destruct (Forall2_elem_of_l _ _ _ _ Hfiles Hin) as (file & Hfile & Hrec).
    apply Hnot. apply list_elem_of_fmap. exists file. split; [|done].
    simpl. destruct (path (adrAt st d)) as [p|]; [|done].
    by injection Hrec as <-. }
  rewrite Hnone in HR.
  split; [done|]. split; [by rewrite Hat|].
  split; [intros r' Hr'; by rewrite Hat, Ho|].
  split; [done|]. split; [done|].
  rewrite (deletedFilesInRepo_collect repoName r st2 []).
  - done.
  - rewrite <- Hr. apply filter_named_ext; [done|].
    intros r0. rewrite Hat.
    destruct (decide (r0 = r)) as [->|Hne]; [by rewrite HR|by rewrite Ho].
  - by rewrite Hat, HR.
Qed.

(** In [twoDeleted] the two deleted ADRs have their own paths; the
    batch of the two files empties [deletedAdrs]. *)
Lemma commit_deleted_clears_witness :
  let files :=
    [ {| title := Some "0000-x.md"; value := None;
         filePath := "docs/adr/0000-x.md"; fileSelected := false;
         fileStatus := "deleted" |};
      {| title := Some "0002-z.md"; value := None;
         filePath := "docs/adr/0002-z.md"; fileSelected := false;
         fileStatus := "deleted" |} ] in
  let run :=
    updateLocalStorageAfterCommit (pushedAs "deleted" files) "owner/repo"
      MoreExamples.twoDeleted in
  deletedFilesInRepo "owner/repo" MoreExamples.twoDeleted = Returns files
  ∧ fst run = Returns tt
  ∧ deletedAdrs (repoAt (snd run) 0%nat) = Some []
  ∧ deletedFilesInRepo "owner/repo" (snd run) = Returns [].
Proof.
  intros files run. split; [reflexivity|].
  destruct (commit_deleted_clears "owner/repo" 0%nat [0; 3]%nat files
              MoreExamples.twoDeleted) as (Hret & HR & _ & _ & _ & Hnone).
  - reflexivity.
  - reflexivity.
  - apply (bool_decide_unpack _). vm_compute. exact I.
  - reflexivity.
  - split; [exact Hret|]. split; [|exact Hnone].
    unfold run. by rewrite HR.
Defined.

(** ** updateLocalStorageAfterCommit, the new type *)

Lemma released_refl (st : Store) : released st st.
Proof. intros a. repeat (split; [done|]). by left. Qed.

Lemma released_trans (st1 st2 st3 : Store) :
  released st1 st2 → released st2 st3 → released st1 st3.
Proof.
  intros H K a.
  destruct (H a) as (Hp & He & Hi & Ho).
  destruct (K a) as (Kp & Ke & Ki & Ko).
  repeat (split; [congruence|]).
  destruct Ko as [[Ko Kn]|[Ko Kn]].
  - destruct Ho as [[Ho Hn]|[Ho Hn]]; [left|right]; split; congruence.
  - right. split; congruence.
Qed.

Lemma released_same (st st' : Store) :
  adrObjs st' = adrObjs st → released st st'.
Proof.
  intros Hobj a. unfold adrAt. rewrite Hobj.
  repeat (split; [done|]). by left.
Qed.

(** A settled ADR stays so. *)
Lemma released_settled (st st' : Store) (a : nat) :
  released st st' → settled st a → settled st' a.
Proof.
  intros H [Ho Hn]. unfold settled.
  destruct (H a) as (_ & He & _ & [[Ko Kn]|[Ko Kn]]); split; congruence.
Qed.

Lemma released_write (st : Store) (e : nat) :
  let st' :=
    writeAdr e
      (set_originalMd (editedMd (set_newAdr None (adrAt st e)))
         (set_newAdr None (adrAt st e))) st in
  released st st' ∧ settled st' e.
Proof.
  intros st'. split.
  - intros a. unfold st'. rewrite adrAt_writeAdr.
    destruct (decide (e = a)) as [->|Hne].
    + simpl. repeat (split; [done|]). by right.
    + repeat (split; [done|]). by left.
  - unfold settled, st'. rewrite adrAt_writeAdr, decide_True by done. done.
Qed.

(** The inner loop of the new type over the ADRs of a repository. *)
Lemma new_adrs_loop (p : string) (l : list nat) (st : Store) :
  ∃ st', forOf l
           (λ repoEntry st,
              if decide (Some p = path (adrAt st repoEntry)) then
                (Returns tt,
                 writeAdr repoEntry
                   (set_originalMd
                      (editedMd (set_newAdr None (adrAt st repoEntry)))
                      (set_newAdr None (adrAt st repoEntry))) st)
              else (Returns tt, st))
           st = (Returns tt, st')
         ∧ repoObjs st' = repoObjs st
         ∧ addedRepositories st' = addedRepositories st
         ∧ released st st'
         ∧ ∀ e, e ∈ l → path (adrAt st e) = Some p → settled st' e.
Proof.
  revert st. induction l as [|x l IH]; intros st.
  - exists st. repeat (split; [done|]). split; [apply released_refl|].
    intros e He. by apply not_elem_of_nil in He.
  - cbn [forOf]. cbv beta.
    set (st1 := if decide (Some p = path (adrAt st x)) then
                  writeAdr x
                    (set_originalMd (editedMd (set_newAdr None (adrAt st x)))
                       (set_newAdr None (adrAt st x))) st
                else st).
    assert (Hstep : (if decide (Some p = path (adrAt st x)) then
                       (Returns tt,
                        writeAdr x
                          (set_originalMd
                             (editedMd (set_newAdr None (adrAt st x)))
                             (set_newAdr None (adrAt st x))) st)
                     else (Returns tt, st))
                    = (Returns tt, st1)).
    { unfold st1. by destruct (decide _). }
    rewrite Hstep.
    assert (H1 : repoObjs st1 = repoObjs st
                 ∧ addedRepositories st1 = addedRepositories st
                 ∧ released st st1
                 ∧ (path (adrAt st x) = Some p → settled st1 x)).
    { unfold st1. destruct (decide _) as [Hp|Hp].
      - destruct (released_write st x) as [Hr Hs].
        split; [done|]. split; [done|]. split; [exact Hr|]. intros _. exact Hs.
      - repeat (split; [done|]). split; [apply released_refl|].
        intros Hx. by rewrite Hx in Hp. }
    destruct H1 as (Ho1 & Hl1 & Hr1 & Hx).
    destruct (IH st1) as (st' & Hrun & Ho' & Hl' & Hr' & Hall).
    exists st'. split; [done|]. split; [congruence|]. split; [congruence|].
    split; [by eapply released_trans|].
    intros e He Hp.
    destruct (decide (e = x)) as [->|Hne].
    + eapply released_settled; [exact Hr'|by apply Hx].
    + apply elem_of_cons in He as [->|He]; [done|].
      apply Hall; [done|]. destruct (Hr1 e) as (-> & _). done.
Qed.

(** The handler of the new type, for the one repository that has the
    name, when the ADRs of [addedAdrs] have paths that differ. *)
Lemma handleUpdateLocalStorageNew_kept (file : PushedFile)
    (repoName : string) (r : nat) (st : Store) :
  filter (λ repo, repoName = fullName (repoAt st repo)) (addedRepositories st)
  = [r] →
  NoDup ((path ∘ adrAt st) <$> addedAdrs (repoAt st r)) →
  ∃ st',
    handleUpdateLocalStorageNew file repoName st = (Returns tt, st')
    ∧ addedRepositories st' = addedRepositories st
    ∧ (∀ r', r' ≠ r → repoAt st' r' = repoAt st r')
    ∧ repoAt st' r
      = set_addedAdrs
          (filter (λ a, path (adrAt st a) ≠ Some (pushedPath file))
                  (addedAdrs (repoAt st r)))
          (repoAt st r)
    ∧ released st st'
    ∧ ∀ e, e ∈ adrs (repoAt st r) →
           path (adrAt st e) = Some (pushedPath file) → settled st' e.
Proof.
  intros Hr Hnd.
  pose proof (NoDup_fmap_1 _ _ Hnd) as Hnd'.
  destruct (filter_singleton _ _ _ Hr) as (l1 & l2 & Hl & Hname & H1 & H2).
  unfold handleUpdateLocalStorageNew. rewrite Hl, forOf_app.
  rewrite forOf_skip.
  2:{ intros x Hx. rewrite decide_False; [done|by apply H1]. }
  cbn [forOf]. rewrite decide_True by done. cbv zeta.
  rewrite (spliceWhileIterating_keepAfterRemoval _
             (λ e, bool_decide (Some (pushedPath file) = path (adrAt st e))));
    [|done|exact Hnd'|lia].
  rewrite take_0, drop_0. cbn [app snd].
  rewrite keepAfterRemoval_unique; [|exact Hnd'|].
  2:{ intros x y Hx Hy Hpx Hpy.
      apply bool_decide_eq_true in Hpx, Hpy.
      apply (NoDup_fmap_eq (path ∘ adrAt st) (addedAdrs (repoAt st r)));
        [done..|].
      simpl. congruence. }
  assert (Hfilter :
    filter (λ x, bool_decide (Some (pushedPath file) = path (adrAt st x))
                 = false) (addedAdrs (repoAt st r))
    = filter (λ a, path (adrAt st a) ≠ Some (pushedPath file))
             (addedAdrs (repoAt st r))).
  { apply list_filter_iff. intros a. rewrite bool_decide_eq_false.
    split; congruence. }
  rewrite Hfilter.
  set (added' := filter _ (addedAdrs (repoAt st r))).
  set (st1 := writeRepo r (set_addedAdrs added' (repoAt st r)) st).
  assert (HR1 : repoAt st1 r = set_addedAdrs added' (repoAt st r)).
  { unfold st1. by rewrite repoAt_writeRepo, decide_True. }
  assert (Ho1 : ∀ r', r' ≠ r → repoAt st1 r' = repoAt st r').
  { intros r' Hr'. unfold st1. by rewrite repoAt_writeRepo, decide_False. }
  destruct (new_adrs_loop (pushedPath file) (adrs (repoAt st1 r)) st1)
    as (st2 & Hrun & Hobj & Hlist & Hrel & Hall).
  rewrite Hrun.
  assert (Hat : ∀ r', repoAt st2 r' = repoAt st1 r').
  { intros r'. unfold repoAt. by rewrite Hobj. }
  exists st2. split.
  - apply forOf_skip. intros x Hx.
    assert (x ≠ r) by (intros ->; by apply (H2 r)).
    rewrite decide_False; [done|]. rewrite Hat, Ho1 by done. by apply H2.
  - split; [by rewrite Hlist|].
    split; [intros r' Hr'; by rewrite Hat, Ho1|].
    split; [by rewrite Hat, HR1|].
    split; [exact Hrel|].
    intros e He Hp. apply Hall; [by rewrite HR1|done].
Qed.

(** A batch of the new type: what stays in [addedAdrs] are the ADRs
    whose path is not in the batch. *)
Lemma new_batch (repoName : string) (r : nat) (files : list CommitFile) :
  ∀ st : Store,
    filter (λ repo, repoName = fullName (repoAt st repo))
           (addedRepositories st) = [r] →
    NoDup ((path ∘ adrAt st) <$> addedAdrs (repoAt st r)) →
    ∃ st',
      forOf (pushedAs "new" files)
        (λ file st,
           if decide (pushedType file = "new") then
             handleUpdateLocalStorageNew file repoName st
           else if decide (pushedType file = "changed") then
             handleUpdateLocalStorageChanged file repoName st
           else if decide (pushedType file = "deleted") then
             handleUpdateLocalStorageDeleted file repoName st
           else (Returns tt, st))
        st = (Returns tt, st')
      ∧ addedRepositories st' = addedRepositories st
      ∧ (∀ r', r' ≠ r → repoAt st' r' = repoAt st r')
      ∧ repoAt st' r
        = set_addedAdrs
            (filter (λ a, path (adrAt st a) ∉ (Some ∘ filePath) <$> files)
                    (addedAdrs (repoAt st r)))
            (repoAt st r)
      ∧ released st st'
      ∧ ∀ e file, e ∈ adrs (repoAt st r) → file ∈ files →
                  path (adrAt st e) = Some (filePath file) → settled st' e.
Proof.
  induction files as [|f files IH]; intros st Hr Hnd.
  - exists st. repeat (split; [done|]).
    split.
    { rewrite filter_all by (intros; apply not_elem_of_nil).
      by destruct (repoAt st r). }
    split; [apply released_refl|].
    intros e file _ Hf. by apply not_elem_of_nil in Hf.
  - unfold pushedAs. rewrite fmap_cons. cbn [forOf]. cbv beta.
    cbn [pushedType].
    rewrite (decide_True (P := "new" = "new")) by reflexivity.
    destruct (handleUpdateLocalStorageNew_kept
                {| pushedType := "new"; pushedPath := filePath f |}
                repoName r st Hr Hnd)
      as (st1 & -> & Hl1 & Ho1 & HR1 & Hrel1 & Hall1).
    cbn [pushedPath] in HR1, Hall1.
    assert (Hpath : ∀ a, path (adrAt st1 a) = path (adrAt st a)).
    { intros a. by destruct (Hrel1 a) as (-> & _). }
    assert (Hname : ∀ r0, fullName (repoAt st1 r0) = fullName (repoAt st r0)).
    { intros r0. destruct (decide (r0 = r)) as [->|Hne];
        [by rewrite HR1|by rewrite Ho1]. }
    destruct (IH st1) as (st' & Hrun & Hl & Ho & HR & Hrel & Hall).
    + rewrite <- Hr. by apply filter_named_ext.
    + rewrite HR1. cbn [addedAdrs set_addedAdrs].
      rewrite (list_fmap_ext (path ∘ adrAt st1) (path ∘ adrAt st))
        by (intros; apply Hpath).
      by apply NoDup_fmap_filter.
    + exists st'. split; [exact Hrun|]. split; [congruence|].
      split; [intros r' Hr'; by rewrite Ho, Ho1|].
      split.
      { rewrite HR, HR1. unfold set_addedAdrs. simpl. f_equal.
        rewrite list_filter_filter.
        apply list_filter_iff. intros a. rewrite Hpath.
        fold (fmap (M := list) (Some ∘ filePath) files).
        rewrite not_elem_of_cons. split; [intros [H1 H2]; split; congruence|].
        intros [H1 H2]. split; [exact H2|congruence]. }
      split; [by eapply released_trans|].
      intros e file He Hf Hp.
      apply elem_of_cons in Hf as [->|Hf].
      * eapply released_settled; [exact Hrel|]. by apply Hall1.
      * apply (Hall e file); [by rewrite HR1|done|by rewrite Hpath].
Qed.

(** X16: the new type, for the one repository that has the name, when
    the ADRs of [addedAdrs] have paths that differ.  When
    [newFilesInRepo] returns [files] and [updateLocalStorageAfterCommit]
    is told that exactly these were pushed as new, it returns,
    [addedAdrs] of the repository is empty afterwards and
    [newFilesInRepo] returns the empty list.  Every ADR of [addedAdrs]
    that is in [adrs] is as a published one: its key [newAdr] is gone
    and its baseline is its edited text.  The paths, edited texts and
    ids of all ADRs, the other fields of the repository, the other
    repositories and the list are as before. *)
Theorem commit_new_clears (repoName : string) (r : nat)
    (files : list CommitFile) (st : Store) :
  filter (λ repo, repoName = fullName (repoAt st repo)) (addedRepositories st)
  = [r] →
  NoDup ((path ∘ adrAt st) <$> addedAdrs (repoAt st r)) →
  newFilesInRepo repoName st = Returns files →
  let run :=
    updateLocalStorageAfterCommit (pushedAs "new" files) repoName st in
  fst run = Returns tt
  ∧ repoAt (snd run) r = set_addedAdrs [] (repoAt st r)
  ∧ (∀ r', r' ≠ r → repoAt (snd run) r' = repoAt st r')
  ∧ addedRepositories (snd run) = addedRepositories st
  ∧ released st (snd run)
  ∧ (∀ a, a ∈ addedAdrs (repoAt st r) → a ∈ adrs (repoAt st r) →
          settled (snd run) a)
  ∧ newFilesInRepo repoName (snd run) = Returns [].
Proof.
  intros Hr Hnd Hfiles run.
  destruct (new_batch repoName r files st Hr Hnd)
    as (st1 & Hrun & Hl & Ho & HR & Hrel & Hall).
  assert (Hsnd : run = (Returns tt, updateLocalStorageRepositories st1)).
  { unfold run, updateLocalStorageAfterCommit. by rewrite Hrun. }
  rewrite Hsnd. cbn [fst snd].
  set (st2 := updateLocalStorageRepositories st1).
  assert (Hat : ∀ r', repoAt st2 r' = repoAt st1 r') by done.
  assert (Hadr : ∀ a, adrAt st2 a = adrAt st1 a) by done.
  rewrite (newFilesInRepo_collect repoName r st) in Hfiles by done.
  apply collect_fmap_Forall2 in Hfiles.
  assert (Hcommitted : ∀ a, a ∈ addedAdrs (repoAt st r) →
            ∃ file, file ∈ files ∧ path (adrAt st a) = Some (filePath file)).
  { intros a Ha.
    destruct (Forall2_elem_of_l _ _ _ _ Hfiles Ha) as (file & Hfile & Hrec).
    apply dataStructureDataCommit_Returns in Hrec as (p & Hp & ->).
    eexists. split; [exact Hfile|]. exact Hp. }
  assert (Hnone : filter (λ a, path (adrAt st a)
                                 ∉ (Some ∘ filePath) <$> files)
                         (addedAdrs (repoAt st r)) = []).
  { destruct (filter _ (addedAdrs (repoAt st r))) as [|a l] eqn:El; [done|].
    exfalso.
    assert (Ha : a ∈ a :: l) by apply list_elem_of_here.
    rewrite <- El in Ha. apply list_elem_of_filter in Ha as [Hnot Ha].
    destruct (Hcommitted a Ha) as (file & Hfile & Hp).
    apply Hnot. apply list_elem_of_fmap. by exists file. }
  rewrite Hnone in HR.
  split; [done|]. split; [by rewrite Hat|].
  split; [intros r' Hr'; by rewrite Hat, Ho|].
  split; [done|]. split; [exact Hrel|].
  split.
  - intros a Ha Hin. destruct (Hcommitted a Ha) as (file & Hfile & Hp).
    exact (Hall a file Hin Hfile Hp).
  - rewrite (newFilesInRepo_collect repoName r st2).
    + by rewrite Hat, HR.
    + rewrite <- Hr. apply filter_named_ext; [done|].
      intros r0. rewrite Hat.
      destruct (decide (r0 = r)) as [->|Hne]; [by rewrite HR|by rewrite Ho].
Qed.

(** [store1] lists its unpublished ADR as a new file; after the commit
    it lists none, and the ADR is as a published one. *)
Lemma commit_new_clears_witness :
  let files :=
    [ {| title := Some "0003-a.md"; value := Some "# A";
         filePath := "docs/adr/0003-a.md"; fileSelected := false;
         fileStatus := "new" |} ] in
  let run :=
    updateLocalStorageAfterCommit (pushedAs "new" files) "owner/repo"
      Examples.store1 in
  newFilesInRepo "owner/repo" Examples.store1 = Returns files
  ∧ fst run = Returns tt
  ∧ addedAdrs (repoAt (snd run) 0%nat) = []
  ∧ settled (snd run) 2%nat
  ∧ newFilesInRepo "owner/repo" (snd run) = Returns [].
Proof.
  intros files run. split; [reflexivity|].
  destruct (commit_new_clears "owner/repo" 0%nat files Examples.store1)
    as (Hret & HR & _ & _ & _ & Hset & Hnone).
  - reflexivity.
  - apply (bool_decide_unpack _). vm_compute. exact I.
  - reflexivity.
  - split; [exact Hret|]. split; [unfold run; by rewrite HR|].
    split; [|exact Hnone].
    apply Hset; apply (bool_decide_unpack _); vm_compute; exact I.
Defined.

(** ** getRepoInfoForCommit *)

Lemma find_cons {A} (P : A → Prop) `{!∀ x, Decision (P x)} (x : A)
    (l : list A) :
  Js.find P (x :: l) = if decide (P x) then Some x else Js.find P l.
Proof.
  unfold Js.find. cbn [list_find]. destruct (decide (P x)); [done|].
  by destruct (list_find P l) as [[]|].
Qed.

(** X17: [getRepoInfoForCommit] returns nothing exactly when no added
    repository has the name.  What it returns is taken from the first
    added repository with the name (the one that [openAdrBy] searches):
    its active branch, and the name cut at the slashes.  For a name
    owner/repo it is the owner and the repository; a name without a
    slash is the user name, and the repository name is missing. *)
Theorem getRepoInfoForCommit_spec (name : string) (st : Store) :
  (getRepoInfoForCommit name st = None
   ↔ ∀ r, r ∈ addedRepositories st → fullName (repoAt st r) ≠ name)
  ∧ ∀ info, getRepoInfoForCommit name st = Some info →
      (∃ r, Js.find (λ r, fullName (repoAt st r) = name)
                    (addedRepositories st) = Some r
            ∧ infoActiveBranch info = activeBranch (repoAt st r))
      ∧ (∀ owner repo, name = owner +:+ "/" +:+ repo →
           noChar "/" owner = true → noChar "/" repo = true →
           userName info = Some owner ∧ repoName info = Some repo)
      ∧ (noChar "/" name = true →
         userName info = Some name ∧ repoName info = None).
Proof.
  unfold getRepoInfoForCommit.
  induction (addedRepositories st) as [|r l [IHn IHs]].
  - split; [|done]. split; [|done]. intros _ r Hr.
    by apply not_elem_of_nil in Hr.
  - cbn [getRepoInfoLoop]. rewrite find_cons.
    destruct (decide (name = fullName (repoAt st r))) as [Hn|Hn].
    + rewrite decide_True by done. split.
      * split; [done|]. intros Hall. destruct (Hall r); [|done].
        apply list_elem_of_here.
      * intros info [= <-]. cbn [infoActiveBranch userName repoName].
        split; [by exists r|]. rewrite <- Hn. split.
        -- intros owner repo -> Ho Hrp.
           change (owner +:+ "/" +:+ repo)
             with (owner +:+ String "/" repo).
           rewrite (split_app "/" owner repo Ho), (split_noChar "/" repo Hrp).
           done.
        -- intros Hname. by rewrite (split_noChar "/" name Hname).
    + rewrite decide_False by done. split; [|exact IHs].
      rewrite IHn. split.
      * intros Hall x [->|Hx]%elem_of_cons; [done|by apply Hall].
      * intros Hall x Hx. by apply Hall, list_elem_of_further.
Qed.

(** [store1] has one added repository named owner/repo, on the branch
    main. *)
Lemma getRepoInfoForCommit_spec_witness :
  getRepoInfoForCommit "owner/repo" Examples.store1
  = Some {| userName := Some "owner"; repoName := Some "repo";
            infoActiveBranch := "main" |}
  ∧ ∀ info, getRepoInfoForCommit "owner/repo" Examples.store1 = Some info →
            userName info = Some "owner" ∧ repoName info = Some "repo".
Proof.
  split; [reflexivity|]. intros info Hinfo.
  destruct (getRepoInfoForCommit_spec "owner/repo" Examples.store1)
    as (_ & Hsome).
  destruct (Hsome info Hinfo) as (_ & Hsplit & _).
  apply (Hsplit "owner" "repo"); reflexivity.
Defined.

(** ** The snapshot and the validation of reload *)

Lemma forallb_elem {A} (f : A → bool) (l : list A) :
  forallb f l = true ↔ ∀ x, x ∈ l → f x = true.
Proof.
  induction l as [|x l IH]; cbn [forallb].
  - split; [|done]. intros _ x Hx. by apply not_elem_of_nil in Hx.
  - rewrite andb_true_iff, IH. split.
    + intros [Hx Hl] y [->|Hy]%elem_of_cons; [done|by apply Hl].
    + intros Hall. split; [apply Hall, list_elem_of_here|].
      intros y Hy. by apply Hall, list_elem_of_further.
Qed.

(** X18: what [updateLocalStorageRepositories] writes is a list that
    [isValidRepoList] accepts when it is read back exactly when every
    added repository has [deletedAdrs] and every ADR of its [adrs] is
    valid.  The ADRs of [addedAdrs] and [deletedAdrs] are not looked
    at. *)
Theorem snapshot_valid (st : Store) :
  ∃ stored,
    localStorage (updateLocalStorageRepositories st) = Some stored
    ∧ (isValidRepoList (parseJson <$> stored) = true
       ↔ ∀ r, r ∈ addedRepositories st →
              is_Some (deletedAdrs (repoAt st r))
              ∧ ∀ a, a ∈ adrs (repoAt st r) →
                     isValidAdr (adrAt st a) = true).
Proof.
  eexists. split; [reflexivity|].
  unfold isValidRepoList. rewrite forallb_elem. split.
  - intros Hall r Hr.
    assert (Hin : parseJson (toJson st r)
                  ∈ parseJson <$> (toJson st <$> addedRepositories st)).
    { apply list_elem_of_fmap. eexists. split; [done|].
      apply list_elem_of_fmap. by exists r. }
    apply Hall in Hin. cbn in Hin.
    destruct (deletedAdrs (repoAt st r)) as [d|]; [|done].
    split; [by eexists|]. intros a Ha.
    cbn in Hin. rewrite forallb_elem in Hin.
    apply (Hin (Some (adrAt st a))).
    apply list_elem_of_fmap. eexists. split; [done|].
    apply list_elem_of_fmap. by exists a.
  - intros Hall x Hx.
    apply list_elem_of_fmap in Hx as (j & -> & Hj).
    apply list_elem_of_fmap in Hj as (r & -> & Hr).
    destruct (Hall r Hr) as [[d Hd] Hadrs]. cbn. rewrite Hd. cbn.
    rewrite forallb_elem. intros o Ho.
    apply list_elem_of_fmap in Ho as (o' & -> & Ho').
    apply list_elem_of_fmap in Ho' as (a & -> & Ha).
    by apply Hadrs.
Qed.

(** ** The ids after createNewAdr *)

(** X19: [createNewAdr] keeps the ids of a repository apart, as long
    as they are integers below [2^53].  When the ADRs of [adrs] are
    objects of the store and their ids are such integers and differ,
    the ADRs of [adrs] are objects of the store and their ids differ
    afterwards: the new ADR is a new object, and its id is greater than
    every id in [adrs]. *)
Theorem createNewAdr_ids (templateTitle templateMd : string) (repo : nat)
    (st : Store) :
  repo ∈ addedRepositories st →
  (∀ a, a ∈ adrs (repoAt st repo) → is_Some (adrObjs st !! a)) →
  (∀ a, a ∈ adrs (repoAt st repo) →
        ∃ z, id (adrAt st a) = Some (Js.Num z) ∧ z < 2 ^ 53) →
  NoDup ((id ∘ adrAt st) <$> adrs (repoAt st repo)) →
  let st' := snd (createNewAdr templateTitle templateMd repo st) in
  (∀ a, a ∈ adrs (repoAt st' repo) → is_Some (adrObjs st' !! a))
  ∧ NoDup ((id ∘ adrAt st') <$> adrs (repoAt st' repo)).
Proof.
  intros Hin Hdom Hsafe Hnd st'.
  destruct (createNewAdr_frame templateTitle templateMd repo st Hin)
    as (ref & _ & Hfresh & _ & HR & _ & Hadr & _ & _ & _ & Hid & _).
  fold st' in HR, Hadr, Hid.
  assert (Hobj : adrObjs st'
                 = <[ref := adrAt st' ref]> (adrObjs st)).
  { unfold st', createNewAdr in *. rewrite bool_decide_eq_true_2 in * by done.
    cbn [fst snd] in *. unfold adrAt. simpl.
    set (k := fresh (dom (adrObjs st))) in *.
    assert (ref = k) as ->.
    { destruct (decide (ref = k)) as [|Hne]; [done|].
      specialize (Hadr k (not_eq_sym Hne)). unfold adrAt in Hadr.
      simpl in Hadr. rewrite lookup_insert_eq in Hadr.
      assert (Hk : adrObjs st !! k = None) by apply not_elem_of_dom, is_fresh.
      rewrite Hk in Hadr. discriminate. }
    by rewrite lookup_insert_eq. }
  assert (Hold : ∀ a, a ∈ adrs (repoAt st repo) → a ≠ ref).
  { intros a Ha ->. destruct (Hdom ref Ha) as [o Ho]. congruence. }
  rewrite HR. cbn [adrs addAdr set_addedAdrs set_adrs]. split.
  - intros a [Ha| ->%list_elem_of_singleton]%elem_of_app; rewrite Hobj.
    + rewrite lookup_insert_ne by (apply not_eq_sym; by apply Hold).
      by apply Hdom.
    + rewrite lookup_insert_eq. by eexists.
  - rewrite fmap_app. cbn [fmap list_fmap].
    rewrite (list_fmap_ext (id ∘ adrAt st') (id ∘ adrAt st)
               (adrs (repoAt st repo))).
    2:{ intros i a Ha. simpl. rewrite Hadr; [done|].
        apply Hold. by eapply list_elem_of_lookup_2. }
    apply NoDup_app. split; [exact Hnd|]. split.
    + intros x Hx [Heq|Hnil]%elem_of_cons; [|by apply not_elem_of_nil in Hnil].
      simpl in Heq. rewrite Hid in Heq.
      destruct (maxId_integers ((id ∘ adrAt st) <$> adrs (repoAt st repo)))
        as (m & Hm & Hlow & Hup & Hmem).
      { intros v (a & -> & Ha)%list_elem_of_fmap.
        destruct (Hsafe a Ha) as (z & Hz & _). by exists z. }
      assert (Hm53 : m < 2 ^ 53).
      { destruct Hmem as [->|Hmem]; [done|].
        apply list_elem_of_fmap in Hmem as (a & Hid' & Ha).
        destruct (Hsafe a Ha) as (z & Hz & Hz53). simpl in Hid'.
        congruence. }
      rewrite Hm, add1_exact in Heq by lia. subst x.
      specialize (Hup (m + 1) Hx). lia.
    + apply NoDup_singleton.
Qed.

(** The ADRs of [store1] have the ids 0, 1 and 3; the new one gets 4. *)
Lemma createNewAdr_ids_witness :
  NoDup ((id ∘ adrAt (snd (createNewAdr "title" "# title" 0%nat
                             Examples.store1)))
           <$> adrs (repoAt (snd (createNewAdr "title" "# title" 0%nat
                                    Examples.store1)) 0%nat)).
Proof.
  apply (createNewAdr_ids "title" "# title" 0%nat Examples.store1).
  - apply (bool_decide_unpack _). vm_compute. exact I.
  - intros a Ha. vm_compute in Ha. each_elem Ha; by eexists.
  - intros a Ha. vm_compute in Ha.
    each_elem Ha; eexists; (split; [reflexivity|reflexivity]).
  - apply (bool_decide_unpack _). vm_compute. exact I.
Defined.

(** ** The mode and its stored copy *)

(** X20: [setMode] keeps the store's mode and the key [mode] of the
    local storage in step.  From a store whose mode is what [reload]
    reads from the storage, after any row of calls of [setMode] the
    mode is again what [reload] would read; it is one of basic,
    advanced and professional if it was; and the set-mode event was
    emitted once for each call with one of these three, in order, and
    for no other call. *)
Theorem setMode_reloadMode (ms : list string) (st : Store)
    (stored : option string) :
  reloadMode stored = mode st →
  let final := foldl setModeStored (st, stored) ms in
  reloadMode (snd final) = mode (fst final)
  ∧ (mode st ∈ ["basic"; "advanced"; "professional"] →
     mode (fst final) ∈ ["basic"; "advanced"; "professional"])
  ∧ emitted (fst final)
    = emitted st
      ++ (SetModeEvent
            <$> filter (λ m, m ∈ ["basic"; "advanced"; "professional"]) ms).
Proof.
  revert st stored.
  induction ms as [|m ms IH]; intros st stored Hsync; cbv zeta.
  - cbn [foldl fst snd]. split; [done|]. split; [done|].
    by rewrite filter_nil, app_nil_r.
  - cbn [foldl]. rewrite filter_cons.
    destruct (decide (m ∈ ["basic"; "advanced"; "professional"]))
      as [Hm|Hm].
    + assert (Hstep : setModeStored (st, stored) m
                      = (emit (SetModeEvent m) (set_mode m st), Some m)).
      { unfold setModeStored, setMode. cbn [fst snd].
        by rewrite bool_decide_eq_true_2. }
      rewrite Hstep.
      destruct (IH (emit (SetModeEvent m) (set_mode m st)) (Some m))
        as (Hs & Hv & He).
      { each_elem Hm; reflexivity. }
      split; [exact Hs|]. split; [intros _; by apply Hv|].
      rewrite He. cbn [emitted emit set_mode fmap list_fmap].
      by rewrite <- app_assoc.
    + assert (Hstep : setModeStored (st, stored) m = (st, stored)).
      { unfold setModeStored, setMode. cbn [fst snd].
        by rewrite bool_decide_eq_false_2. }
      rewrite Hstep. exact (IH st stored Hsync).
Qed.

(** A fresh store and an empty storage; profesional, as the header of
    the store spells it, is not a mode. *)
Lemma setMode_reloadMode_witness :
  let final :=
    foldl setModeStored (Examples.store0, None)
      ["advanced"; "profesional"] in
  reloadMode (snd final) = "advanced"
  ∧ mode (fst final) = "advanced"
  ∧ emitted (fst final) = [SetModeEvent "advanced"].
Proof.
  intros final.
  destruct (setMode_reloadMode ["advanced"; "profesional"] Examples.store0
              None) as (Hs & _ & He).
  - reflexivity.
  - fold final in Hs, He. split; [by rewrite Hs|]. split; [reflexivity|].
    rewrite He. reflexivity.
Defined.

(** ** updateMdOfCurrentAdr, twice *)

Lemma writeAdr_same (st : Store) (a : nat) (o : Adr) :
  adrObjs st !! a = Some o → writeAdr a o st = st.
Proof.
  intros Ha. unfold writeAdr, set_adrObjs. rewrite (insert_id _ _ _ Ha).
  by destruct st.
Qed.

Lemma set_editedMd_same (o : Adr) (md : string) :
  editedMd o = Some md → set_editedMd (Some md) o = o.
Proof. intros <-. by destruct o. Qed.

Lemma set_path_same (o : Adr) (p : string) :
  path o = Some p → set_path (Some p) o = o.
Proof. intros <-. by destruct o. Qed.

(** Writing the text that the opened ADR already has changes
    nothing. *)
Lemma write_editedMd_same (st : Store) (cur : nat) (o : Adr) (md : string) :
  adrObjs st !! cur = Some o → editedMd o = Some md →
  writeAdr cur (set_editedMd (Some md) (adrAt st cur)) st = st.
Proof.
  intros Ho Hmd. apply writeAdr_same.
  unfold adrAt. rewrite Ho. cbn [default].
  by rewrite set_editedMd_same.
Qed.

Section Twice.

Variable sanitize : string → string.
Variable naturalCase2snakeCase : string → string.

(** The sanitizer leaves no slash in a file name. *)
Hypothesis sanitize_noSlash : ∀ s, noChar "/" (sanitize s) = true.

(** X21: [updateMdOfCurrentAdr] with the same text a second time does
    what the first call did and leaves the store as the first call left
    it, for a sanitizer that leaves no slash in a file name.  The file
    name that the first call put in the last place of the path is found
    there by the second call, which puts the same name there. *)
Theorem updateMdOfCurrentAdr_twice (md : string) (st : Store) :
  let first := updateMdOfCurrentAdr sanitize naturalCase2snakeCase md st in
  updateMdOfCurrentAdr sanitize naturalCase2snakeCase md (snd first) = first.
Proof.
  intros first. unfold first.
  destruct (currentlyEditedAdr st) as [cur|] eqn:Hcur.
  2:{ unfold updateMdOfCurrentAdr. rewrite Hcur. cbn [snd]. by rewrite Hcur. }
  rewrite (updateMdOfCurrentAdr_cases sanitize naturalCase2snakeCase md cur st
             Hcur).
  cbv zeta.
  set (o1 := set_editedMd (Some md) (adrAt st cur)).
  set (st1 := writeAdr cur o1 st).
  assert (Ho1 : adrObjs st1 !! cur = Some o1).
  { unfold st1. simpl. by rewrite lookup_insert_eq. }
  assert (Hsame1 : writeAdr cur (set_editedMd (Some md) (adrAt st1 cur)) st1
                   = st1).
  { by apply (write_editedMd_same st1 cur o1 md). }
  destruct (match currentRepository st with
            | Some r => Js.includes (addedAdrs (repoAt st r)) (Some cur)
            | None => false
            end) eqn:Hadded.
  - destruct (path (adrAt st cur)) as [p|] eqn:Hp.
    + destruct (Js.split "010" md !! 0%nat) as [line|] eqn:Hline;
        [destruct (id (adrAt st cur)) as [n|] eqn:Hid|].
      * cbn [snd].
        set (name := sanitize
                       (Js.padStart 4 "0" (Js.toString n)
                          +:+ "-"
                          +:+ naturalCase2snakeCase
                                (Js.trim (Js.stripHashes line))
                          +:+ ".md")).
        set (segments := <[(length (Js.split "/" p) - 1)%nat := name]>
                           (Js.split "/" p)).
        set (o2 := set_path (Some (Js.join "/" segments)) o1).
        set (st2 := updateLocalStorageRepositories (writeAdr cur o2 st1)).
        assert (Ho2 : adrObjs st2 !! cur = Some o2).
        { unfold st2. simpl. by rewrite lookup_insert_eq. }
        assert (Hat2 : adrAt st2 cur = o2).
        { unfold adrAt. by rewrite Ho2. }
        rewrite (updateMdOfCurrentAdr_cases sanitize naturalCase2snakeCase
                   md cur st2) by done.
        cbv zeta. rewrite Hat2.
        change (currentRepository st2) with (currentRepository st).
        change (repoAt st2) with (repoAt st).
        rewrite Hadded.
        change (path o2) with (Some (Js.join "/" segments)).
        rewrite Hline.
        change (id o2) with (id (adrAt st cur)). rewrite Hid. fold name.
        assert (Hsplit : Js.split "/" (Js.join "/" segments) = segments).
        { apply split_join.
          - unfold segments. pose proof (split_nonempty "/" p) as Hne.
            destruct (Js.split "/" p) as [|x [|y l]]; done.
          - unfold segments. apply Forall_insert; [apply split_segments|].
            apply sanitize_noSlash. }
        rewrite Hsplit.
        assert (Hagain : <[(length segments - 1)%nat := name]> segments
                         = segments).
        { unfold segments. by rewrite length_insert, list_insert_insert_eq. }
        rewrite Hagain.
        assert (Hed : set_editedMd (Some md) o2 = o2) by done.
        rewrite Hed.
        assert (Hpa : set_path (Some (Js.join "/" segments)) o2 = o2) by done.
        rewrite Hpa.
        rewrite !(writeAdr_same st2 cur o2 Ho2). done.
      * cbn [snd].
        rewrite (updateMdOfCurrentAdr_cases sanitize naturalCase2snakeCase
                   md cur st1) by done.
        cbv zeta. rewrite Hsame1.
        change (currentRepository st1) with (currentRepository st).
        change (repoAt st1) with (repoAt st).
        rewrite Hadded.
        assert (Hp1 : path (adrAt st1 cur) = Some p).
        { unfold adrAt. rewrite Ho1. exact Hp. }
        assert (Hid1 : id (adrAt st1 cur) = None).
        { unfold adrAt. rewrite Ho1. exact Hid. }
        by rewrite Hp1, Hline, Hid1.
      * cbn [snd].
        rewrite (updateMdOfCurrentAdr_cases sanitize naturalCase2snakeCase
                   md cur st1) by done.
        cbv zeta. rewrite Hsame1.
        change (currentRepository st1) with (currentRepository st).
        change (repoAt st1) with (repoAt st).
        rewrite Hadded.
        assert (Hp1 : path (adrAt st1 cur) = Some p).
        { unfold adrAt. rewrite Ho1. exact Hp. }
        by rewrite Hp1, Hline.
    + cbn [snd].
      rewrite (updateMdOfCurrentAdr_cases sanitize naturalCase2snakeCase
                 md cur st1) by done.
      cbv zeta. rewrite Hsame1.
      change (currentRepository st1) with (currentRepository st).
      change (repoAt st1) with (repoAt st).
      rewrite Hadded.
      assert (Hp1 : path (adrAt st1 cur) = None).
      { unfold adrAt. rewrite Ho1. exact Hp. }
      by rewrite Hp1.
  - cbn [snd].
    set (st2 := updateLocalStorageRepositories st1).
    rewrite (updateMdOfCurrentAdr_cases sanitize naturalCase2snakeCase
               md cur st2) by done.
    cbv zeta.
    change (currentRepository st2) with (currentRepository st).
    change (repoAt st2) with (repoAt st).
    rewrite Hadded.
    rewrite (write_editedMd_same st2 cur o1 md) by done. done.
Qed.

End Twice.

Lemma sanitize_drops_slash (s : string) :
  noChar "/" (Collaborators.sanitize s) = true.
Proof.
  induction s as [|c s IH]; [done|]. cbn [Collaborators.sanitize].
  destruct (Collaborators.illegalInFileName c) eqn:Hc; [done|].
  cbn [noChar]. rewrite IH, andb_true_r. apply negb_true_iff.
  apply Ascii.eqb_neq. intros ->. vm_compute in Hc. discriminate.
Qed.

(** The unpublished ADR of [store1] is renamed by the first call and
    keeps that name in the second. *)
Lemma updateMdOfCurrentAdr_twice_witness :
  let first :=
    updateMdOfCurrentAdr Collaborators.sanitize
      Collaborators.naturalCase2snakeCase "# My Decision"
      Examples.store1Unpublished in
  path (adrAt (snd first) 2%nat) = Some "docs/adr/0003-my_decision.md"
  ∧ updateMdOfCurrentAdr Collaborators.sanitize
      Collaborators.naturalCase2snakeCase "# My Decision" (snd first)
    = first.
Proof.
  intros first. split; [reflexivity|].
  apply (updateMdOfCurrentAdr_twice Collaborators.sanitize
           Collaborators.naturalCase2snakeCase sanitize_drops_slash).
Defined.

(** ** What updateLocalStorageAfterCommit never touches *)

Lemma committed_refl (st : Store) : committed st st.
Proof.
  unfold committed. repeat (split; [done|]). split; by left.
Qed.

Lemma committed_trans (st1 st2 st3 : Store) :
  committed st1 st2 → committed st2 st3 → committed st1 st3.
Proof.
  intros (H1 & H2 & H3 & H4 & H5 & H6 & H7) (K1 & K2 & K3 & K4 & K5 & K6 & K7).
  unfold committed. repeat (split; [congruence|]). split.
  - intros r. destruct (H6 r) as (? & ? & ? & ?).
    destruct (K6 r) as (? & ? & ? & ?). repeat split; congruence.
  - intros a. destruct (H7 a) as (Hp & He & Hi & Ho & Hn).
    destruct (K7 a) as (Kp & Ke & Ki & Ko & Kn).
    repeat (split; [congruence|]). split.
    + destruct Ko as [Ko|Ko]; [destruct Ho; [left|right]; congruence|].
      right. congruence.
    + destruct Kn as [Kn|Kn]; [destruct Hn; [left|right]; congruence|].
      by right.
Qed.

(** A loop keeps what every round keeps, whether it ends by a throw or
    not. *)
Lemma forOf_committed {A} (l : list A)
    (body : A → Store → outcome unit * Store) (st : Store) :
  (∀ x st0, committed st0 (snd (body x st0))) →
  committed st (snd (forOf l body st)).
Proof.
  intros Hbody. revert st. induction l as [|x l IH]; intros st.
  - apply committed_refl.
  - cbn [forOf]. pose proof (Hbody x st) as Hx.
    destruct (body x st) as [[u|e] st']; cbn [snd] in Hx.
    + eapply committed_trans; [exact Hx|apply IH].
    + exact Hx.
Qed.

Lemma committed_writeRepo (st : Store) (r : nat) (R : Repository) :
  fullName R = fullName (repoAt st r) →
  activeBranch R = activeBranch (repoAt st r) →
  branches R = branches (repoAt st r) →
  adrs R = adrs (repoAt st r) →
  committed st (writeRepo r R st).
Proof.
  intros Hf Ha Hb Hadrs. unfold committed. repeat (split; [done|]). split.
  - intros r'. rewrite repoAt_writeRepo.
    by destruct (decide (r = r')) as [<-|].
  - intros a. repeat (split; [done|]). split; by left.
Qed.

Lemma committed_writeAdr (st : Store) (a : nat) (o : Adr) :
  path o = path (adrAt st a) → editedMd o = editedMd (adrAt st a) →
  id o = id (adrAt st a) →
  originalMd o = editedMd (adrAt st a) →
  newAdr o = newAdr (adrAt st a) ∨ newAdr o = None →
  committed st (writeAdr a o st).
Proof.
  intros Hp He Hi Ho Hn. unfold committed. repeat (split; [done|]).
  intros a'. rewrite adrAt_writeAdr.
  destruct (decide (a = a')) as [<-|].
  - repeat (split; [done|]). split; [by right|done].
  - repeat (split; [done|]). split; by left.
Qed.

Lemma handleUpdateLocalStorageNew_committed (file : PushedFile)
    (repoName : string) (st : Store) :
  committed st (snd (handleUpdateLocalStorageNew file repoName st)).
Proof.
  unfold handleUpdateLocalStorageNew. apply forOf_committed.
  intros repo st0. destruct (decide _); [|apply committed_refl].
  cbv zeta.
  eapply committed_trans; [|apply forOf_committed].
  - by apply committed_writeRepo.
  - intros entry st1. destruct (decide _); [|apply committed_refl].
    cbn [snd]. apply committed_writeAdr; try done. by right.
Qed.

Lemma handleUpdateLocalStorageChanged_committed (file : PushedFile)
    (repoName : string) (st : Store) :
  committed st (snd (handleUpdateLocalStorageChanged file repoName st)).
Proof.
  unfold handleUpdateLocalStorageChanged. apply forOf_committed.
  intros repo st0. destruct (decide _); [|apply committed_refl].
  apply forOf_committed.
  intros entry st1. destruct (decide _); [|apply committed_refl].
  cbn [snd]. apply committed_writeAdr; try done. by left.
Qed.

Lemma handleUpdateLocalStorageDeleted_committed (file : PushedFile)
    (repoName : string) (st : Store) :
  committed st (snd (handleUpdateLocalStorageDeleted file repoName st)).
Proof.
  unfold handleUpdateLocalStorageDeleted. apply forOf_committed.
  intros repo st0. destruct (decide _); [|apply committed_refl].
  destruct (deletedAdrs (repoAt st0 repo)) as [deleted|];
    [|apply committed_refl].
  destruct (spliceWhileIterating _ _ _ _) as [res deleted'].
  cbn [snd]. by apply committed_writeRepo.
Qed.

(** X22: whatever the batch and the repository name, and whether it
    returns or throws, [updateLocalStorageAfterCommit] touches nothing
    but the baselines and [newAdr] keys of ADRs, [addedAdrs] and
    [deletedAdrs] of repositories and the local storage: a baseline is
    as before or the ADR's edited text, a [newAdr] key is as before or
    gone.  So the opened ADR stays valid and in [adrs] of an added
    repository when it was. *)
Theorem updateLocalStorageAfterCommit_committed
    (pushedFiles : list PushedFile) (repoName : string) (st : Store) :
  let st' := snd (updateLocalStorageAfterCommit pushedFiles repoName st) in
  committed st st' ∧ (openedAdrOk st → openedAdrOk st').
Proof.
  intros st'.
  assert (Hc : committed st st').
  { unfold st', updateLocalStorageAfterCommit.
    match goal with
    | |- context [forOf pushedFiles ?body st] =>
        pose proof (forOf_committed pushedFiles body st) as Hloop
    end.
    destruct (forOf pushedFiles _ st) as [[u|e] st1]; cbn [snd] in *.
    - eapply committed_trans; [apply Hloop|].
      + intros file st0.
        destruct (decide _);
          [apply handleUpdateLocalStorageNew_committed|].
        destruct (decide _);
          [apply handleUpdateLocalStorageChanged_committed|].
        destruct (decide _);
          [apply handleUpdateLocalStorageDeleted_committed|].
        apply committed_refl.
      + unfold committed. repeat (split; [done|]). split; by left.
    - apply Hloop. intros file st0.
      destruct (decide _);
        [apply handleUpdateLocalStorageNew_committed|].
      destruct (decide _);
        [apply handleUpdateLocalStorageChanged_committed|].
      destruct (decide _);
        [apply handleUpdateLocalStorageDeleted_committed|].
      apply committed_refl. }
  split; [exact Hc|].
  destruct Hc as (Hl & _ & Hcur & _ & _ & Hrepo & Hadr).
  intros Hok a Ha. rewrite Hcur in Ha. destruct (Hok a Ha) as (Hvalid & r & Hr & Hin).
  split.
  - unfold isValidAdr in *. destruct (Hadr a) as (-> & He & _ & Ho & _).
    rewrite He.
    apply andb_true_iff in Hvalid as [Hvalid Hp].
    apply andb_true_iff in Hvalid as [Horig Hed].
    rewrite Hed, Hp, !andb_true_r.
    destruct Ho as [->| ->]; done.
  - exists r. split; [by rewrite Hl|].
    destruct (Hrepo r) as (_ & _ & _ & ->). done.
Qed.

(** On [store5] the opened ADR is ADR [0] of the added repository; a
    batch of the three types keeps it so. *)
Lemma updateLocalStorageAfterCommit_committed_witness :
  openedAdrOk
    (snd (updateLocalStorageAfterCommit
            [ {| pushedType := "new"; pushedPath := "docs/adr/0003-a.md" |};
              {| pushedType := "changed"; pushedPath := "docs/adr/0000-x.md" |};
              {| pushedType := "deleted"; pushedPath := "docs/adr/0002-z.md" |} ]
            "owner/repo" Examples.store5)).
Proof.
  apply updateLocalStorageAfterCommit_committed.
  intros a [= <-]. split; [reflexivity|]. exists 0%nat.
  split; apply (bool_decide_unpack _); vm_compute; exact I.
Defined.

(** ** The opened ADR after createNewAdr and updateMdOfCurrentAdr *)

Section OpenedKept.

Variable sanitize : string → string.
Variable naturalCase2snakeCase : string → string.
Variable templateTitle : string.
Variable templateMd : string.

(** X23: [createNewAdr] and [updateMdOfCurrentAdr] keep the invariant
    of the store on the opened ADR, the latter also when it throws
    after it has set the text: the opened ADR stays valid and in
    [adrs] of an added repository.  [createNewAdr] does not open the
    ADR that it creates. *)
Theorem openedAdrOk_kept (repo : nat) (md : string) (st : Store) :
  openedAdrOk st →
  openedAdrOk (snd (createNewAdr templateTitle templateMd repo st))
  ∧ currentlyEditedAdr (snd (createNewAdr templateTitle templateMd repo st))
    = currentlyEditedAdr st
  ∧ openedAdrOk
      (snd (updateMdOfCurrentAdr sanitize naturalCase2snakeCase md st)).
Proof.
  intros Hok. split; [|split].
  - destruct (decide (repo ∈ addedRepositories st)) as [Hin|Hin].
    2:{ unfold createNewAdr. by rewrite bool_decide_eq_false_2. }
    destruct (createNewAdr_frame templateTitle templateMd repo st Hin)
      as (ref & _ & Hfresh & Hl & HR & Hother & Hadr & _).
    assert (Hcur : currentlyEditedAdr
                     (snd (createNewAdr templateTitle templateMd repo st))
                   = currentlyEditedAdr st).
    { unfold createNewAdr. by rewrite bool_decide_eq_true_2. }
    intros a Ha. rewrite Hcur in Ha.
    destruct (Hok a Ha) as (Hvalid & r & Hr & Hmem).
    assert (Hne : a ≠ ref).
    { intros ->. unfold isValidAdr, adrAt in Hvalid.
      by rewrite Hfresh in Hvalid. }
    rewrite (Hadr a Hne). split; [done|].
    exists r. rewrite Hl. split; [done|].
    destruct (decide (r = repo)) as [->|Hrne].
    + rewrite HR. cbn [adrs addAdr set_addedAdrs set_adrs].
      apply elem_of_app. by left.
    + by rewrite Hother.
  - unfold createNewAdr. by destruct (bool_decide _).
  - destruct (currentlyEditedAdr st) as [cur|] eqn:Hcur.
    2:{ unfold updateMdOfCurrentAdr. by rewrite Hcur. }
    destruct (Hok cur Hcur) as (Hvalid & r & Hr & Hmem).
    unfold isValidAdr in Hvalid.
    apply andb_true_iff in Hvalid as [Hvalid Hp].
    apply andb_true_iff in Hvalid as [Horig _].
    rewrite (updateMdOfCurrentAdr_cases sanitize naturalCase2snakeCase md cur
               st Hcur).
    cbv zeta.
    set (o1 := set_editedMd (Some md) (adrAt st cur)).
    assert (Hkept : ∀ o st',
              currentlyEditedAdr st' = Some cur →
              addedRepositories st' = addedRepositories st →
              (∀ r0, repoAt st' r0 = repoAt st r0) →
              adrAt st' cur = o →
              originalMd o = originalMd (adrAt st cur) →
              is_Some (editedMd o) → is_Some (path o) →
              openedAdrOk st').
    { intros o st' Hc Hl HR Ho Hor [e He] [p' Hp'] a Ha.
      rewrite Hc in Ha. injection Ha as <-. split.
      - unfold isValidAdr. rewrite Ho, Hor, He, Hp'.
        by destruct (originalMd (adrAt st cur)).
      - exists r. rewrite Hl, HR. done. }
    assert (Hpath : is_Some (path (adrAt st cur))).
    { by destruct (path (adrAt st cur)); [eexists|]. }
    assert (Hwrite : ∀ o, adrAt (writeAdr cur o (writeAdr cur o1 st)) cur = o).
    { intros o. by rewrite adrAt_writeAdr, decide_True. }
    destruct (match currentRepository st with
              | Some r0 => Js.includes (addedAdrs (repoAt st r0)) (Some cur)
              | None => false
              end).
    + destruct Hpath as [p Hpath]. rewrite Hpath.
      destruct (Js.split "010" md !! 0%nat) as [line|];
        [destruct (id (adrAt st cur)) as [n|]|]; cbn [snd].
      * eapply Hkept; [done|done|done|apply Hwrite|done|by eexists|by eexists].
      * eapply (Hkept o1); [done|done|done| |done|by eexists|by eexists].
        by rewrite adrAt_writeAdr, decide_True.
      * eapply (Hkept o1); [done|done|done| |done|by eexists|by eexists].
        by rewrite adrAt_writeAdr, decide_True.
    + cbn [snd].
      eapply (Hkept o1); [done|done|done| |done|by eexists|done].
      unfold updateLocalStorageRepositories.
      change (adrAt (set_localStorage _ ?s) cur) with (adrAt s cur).
      by rewrite adrAt_writeAdr, decide_True.
Qed.

End OpenedKept.

(** ADR [2] of [store1Unpublished] is opened; it stays so when a new
    ADR is created, and it is still in [adrs] when it is renamed. *)
Lemma openedAdrOk_kept_witness :
  openedAdrOk
    (snd (createNewAdr "title" "# title" 0%nat Examples.store1Unpublished))
  ∧ openedAdrOk
      (snd (updateMdOfCurrentAdr Collaborators.sanitize
              Collaborators.naturalCase2snakeCase "# My Decision"
              Examples.store1Unpublished)).
Proof.
  destruct (openedAdrOk_kept Collaborators.sanitize
              Collaborators.naturalCase2snakeCase "title" "# title" 0%nat
              "# My Decision" Examples.store1Unpublished) as (H1 & _ & H2).
  - intros a [= <-]. split; [reflexivity|]. exists 0%nat.
    split; apply (bool_decide_unpack _); vm_compute; exact I.
  - by split.
Defined.
